(** * namedconf: a lossless parser and writer for BIND9 [named.conf]

    A shallow embedding of the Go package [namedconf] (parser.go, the node
    model and writer, editing.go) and the verification of its round-trip,
    scanning, decomposition and regeneration properties.

    Conventions of the embedding.
    - A Go [[]byte] and a Go [string] are both [list byte].
    - A Go [int] is a [Z].  Every index of the program is bounded by the
      length of a slice, so no arithmetic of the program can wrap around.
    - A function that can fail returns an [outcome]: [Ok] for a normal
      return, [Err] for a returned Go [error], [Panic] for a run-time panic
      (index or slice bounds out of range) and [OutOfFuel] when the fuel
      that bounds a loop or the recursion of the embedding is exhausted.
    - A [for] loop is a [Fixpoint] on a fuel that runs one transcribed
      iteration of the loop body (a [...Step] function) at a time. *)

From Stdlib Require Import ZArith List Bool Lia.
From Stdlib Require Import Strings.Byte Strings.String.
Import ListNotations.

Local Open Scope Z_scope.
Local Open Scope bool_scope.

(** ** Bytes, indexing and slicing *)

Definition bytes := list byte.

(** [B "text"] is the byte string of an ASCII literal. *)
Definition B (s : string) : bytes := list_byte_of_string s.

Definition nl : byte := x0a.  (* '\n' *)
Definition tab : byte := x09. (* '\t' *)
Definition vt : byte := x0b.  (* '\v' *)
Definition ff : byte := x0c.  (* '\f' *)
Definition cr : byte := x0d.  (* '\r' *)
Definition sp : byte := x20.  (* ' '  *)
Definition dq : byte := x22.  (* the double quote *)
Definition bsl : byte := x5c. (* '\\' *)

Definition beq (a b : byte) : bool := Byte.eqb a b.
Infix "==" := beq (at level 68, no associativity).

Definition len {A : Type} (s : list A) : Z := Z.of_nat (List.length s).

(** [s[i]] when the index is known to be in range (guarded by a test
    against [len(s)] in the same condition of the source). *)
Definition at_ (s : bytes) (i : Z) : byte := nth (Z.to_nat i) s x00.

(** [s[a:b]] without the bounds check. *)
Definition slice (s : bytes) (a b : Z) : bytes :=
  firstn (Z.to_nat (b - a)) (skipn (Z.to_nat a) s).

Inductive error : Type :=
| MissingSemicolon. (* errors.New("statement missing semicolon") *)

Inductive outcome (A : Type) : Type :=
| Ok (a : A)
| Err (e : error)
| Panic
| OutOfFuel.
Arguments Ok {A} a.
Arguments Err {A} e.
Arguments Panic {A}.
Arguments OutOfFuel {A}.

Definition bind {A C : Type} (m : outcome A) (k : A -> outcome C) : outcome C :=
  match m with
  | Ok a => k a
  | Err e => Err e
  | Panic => Panic
  | OutOfFuel => OutOfFuel
  end.

Notation "x <- m ;; k" := (bind m (fun x => k))
  (at level 61, m at next level, right associativity).

(** [s[i]] with Go's bounds check. *)
Definition rd (s : bytes) (i : Z) : outcome byte :=
  if (0 <=? i) && (i <? len s) then Ok (at_ s i) else Panic.

(** [s[a:b]] with Go's bounds check, [0 <= a <= b <= len(s)].  (For a
    [[]byte] Go checks [b] against the capacity; no upper bound of the
    program exceeds the length.) *)
Definition sl (s : bytes) (a b : Z) : outcome bytes :=
  if (0 <=? a) && (a <=? b) && (b <=? len s) then Ok (slice s a b) else Panic.

(** ** The node model (type Node, Raw, Stmt) *)

Record Raw : Type := mkRaw {
  Text : bytes;
  r_start : Z;
  r_end : Z
}.

Record StmtOf (N : Type) : Type := mkStmt {
  RawText : bytes;
  s_start : Z;
  s_end : Z;
  Keyword : bytes;
  HeadRaw : bytes;
  HasBlock : bool;
  LBraceRaw : bytes;
  Body : list N;
  RBraceRaw : bytes;
  TrailingAfterR : bytes;
  Modified : bool
}.
Arguments mkStmt {N}.
Arguments RawText {N}.
Arguments s_start {N}.
Arguments s_end {N}.
Arguments Keyword {N}.
Arguments HeadRaw {N}.
Arguments HasBlock {N}.
Arguments LBraceRaw {N}.
Arguments Body {N}.
Arguments RBraceRaw {N}.
Arguments TrailingAfterR {N}.
Arguments Modified {N}.

(** The interface [Node] has exactly two implementations, [*Raw] and
    [*Stmt]. *)
#[warnings="-register-all"]
Inductive Node : Type :=
| RawNode (r : Raw)
| StmtNode (s : StmtOf Node).

Definition Stmt : Type := StmtOf Node.

(** The zero value [&Stmt{}]. *)
Definition emptyStmt : Stmt :=
  mkStmt [] 0 0 [] [] false [] [] [] [] false.

Record File : Type := mkFile {
  Nodes : list Node;
  f_src : bytes
}.

(** ** Character classes *)

(** [isSpace] of parser.go. *)
Definition isSpace (b : byte) : bool :=
  (b == sp) || (b == tab) || (b == nl) || (b == cr) || (b == ff).

(** [trimRightSpace] of parser.go: [i] runs down from [len(s)] while
    [s[i-1]] is a space; the reversed list is consumed in that order. *)
Fixpoint dropSpaces (r : bytes) : bytes :=
  match r with
  | c :: r' => if isSpace c then dropSpaces r' else r
  | [] => []
  end.

Definition trimRightSpace (s : bytes) : bytes := rev (dropSpaces (rev s)).

(** ** The writer *)

(** [bytes.Split(s, []byte("\n"))]: the pieces between the newlines; one
    more piece than there are newlines (so the result is never empty and
    the last branch below is not taken). *)
Fixpoint Split (s : bytes) : list bytes :=
  match s with
  | [] => [[]]
  | c :: s' =>
      if c == nl then [] :: Split s'
      else match Split s' with
           | ln :: lns => (c :: ln) :: lns
           | [] => [[c]]
           end
  end.

(** The loop [for i, ln := range lines] of [Stmt.writeTo]; [lines] is what
    remains of the range, so [i < len(lines)-1] reads "more lines follow". *)
Fixpoint writeLines (buf : bytes) (lines : list bytes) : bytes :=
  match lines with
  | [] => buf
  | [ln] =>
      if 0 <? len ln then (buf ++ B "  ") ++ ln else buf
  | ln :: rest =>
      writeLines (((buf ++ B "  ") ++ ln) ++ [nl]) rest
  end.

(** The last byte of a non-empty buffer, [last[len(last)-1]]. *)
Definition lastByte (buf : bytes) : byte := List.last buf x00.

(** [writeTo] of [*Raw] and [*Stmt]: the buffer is passed in and the
    buffer after the writes is returned. *)
Fixpoint writeTo (n : Node) (buf : bytes) : bytes :=
  match n with
  | RawNode r => buf ++ Text r
  | StmtNode s =>
      if negb (Modified s) && negb (len (RawText s) =? 0) then
        buf ++ RawText s
      else if negb (HasBlock s) then
        if len (HeadRaw s) =? 0 then buf ++ RawText s
        else (buf ++ trimRightSpace (HeadRaw s)) ++ B ";"
      else
        let head := trimRightSpace (HeadRaw s) in
        let head := if len head =? 0 then Keyword s else head in
        let buf := buf ++ head in
        let buf := buf ++ B " {" in
        let buf :=
          if 0 <? len (Body s) then
            let buf := buf ++ [nl] in
            let buf :=
              fold_left
                (fun buf n =>
                   let inner := writeTo n [] in
                   writeLines buf (Split inner))
                (Body s) buf in
            if (len buf =? 0) || negb (lastByte buf == nl)
            then buf ++ [nl] else buf
          else buf in
        let buf := buf ++ B "}" in
        buf ++ B ";"
  end.

(** [File.Bytes] (and [File.WriteTo] of writer.go, the same loop). *)
Definition writeNodes (nodes : list Node) (buf : bytes) : bytes :=
  fold_left (fun buf n => writeTo n buf) nodes buf.

Definition Bytes (f : File) : bytes := writeNodes (Nodes f) [].

(** ** Go's standard library

    [bytes.LastIndexByte], [strings.Trim] with a one-byte ASCII cutset,
    [strings.TrimRight] with an ASCII cutset, the Latin-1 case of
    [unicode.IsSpace] and the ASCII fast paths of [strings.TrimSpace] and
    [strings.ToLower] are modelled in full.  The slow paths that the last
    two take on a string with a byte [>= 0x80] decode UTF-8 and consult
    the Unicode tables; they are the fields of the class [Unicode]. *)

Class Unicode : Type := {
  (* strings.TrimFunc(s, unicode.IsSpace) *)
  TrimFunc_IsSpace : bytes -> bytes;
  (* strings.TrimRightFunc(s, unicode.IsSpace) *)
  TrimRightFunc_IsSpace : bytes -> bytes;
  (* strings.Map(unicode.ToLower, s) *)
  Map_ToLower : bytes -> bytes
}.

(** [c >= utf8.RuneSelf] *)
Definition nonASCII (c : byte) : bool := (128 <=? Byte.to_N c)%N.

(** [unicode.IsSpace(rune(c))] for a byte: the Latin-1 space characters. *)
Definition unicode_IsSpace (c : byte) : bool :=
  (c == tab) || (c == nl) || (c == vt) || (c == ff) || (c == cr) ||
  (c == sp) || (c == x85) || (c == xa0).

(** The table [asciiSpace] of package strings. *)
Definition asciiSpace (c : byte) : bool :=
  (c == tab) || (c == nl) || (c == vt) || (c == ff) || (c == cr) || (c == sp).

(** [bytes.LastIndexByte(s, c)]: the greatest index of [c] in [s], [-1]
    when [c] does not occur; [found] is the greatest index seen so far. *)
Fixpoint lastIndexFrom (c : byte) (s : bytes) (i : Z) (found : Z) : Z :=
  match s with
  | [] => found
  | x :: s' => lastIndexFrom c s' (i + 1) (if x == c then i else found)
  end.

Definition LastIndexByte (s : bytes) (c : byte) : Z := lastIndexFrom c s 0 (-1).

(** [strings.Trim(s, cutset)] for a cutset of one ASCII byte [c]. *)
Fixpoint trimLeftByte (s : bytes) (c : byte) : bytes :=
  match s with
  | x :: s' => if x == c then trimLeftByte s' c else s
  | [] => []
  end.

Definition trimRightByte (s : bytes) (c : byte) : bytes :=
  rev (trimLeftByte (rev s) c).

Definition Trim1 (s : bytes) (c : byte) : bytes :=
  trimLeftByte (trimRightByte s c) c.

(** [strings.TrimRight(s, cutset)] for an ASCII cutset. *)
Fixpoint trimLeftSet (s : bytes) (cutset : bytes) : bytes :=
  match s with
  | x :: s' => if existsb (beq x) cutset then trimLeftSet s' cutset else s
  | [] => []
  end.

Definition TrimRight (s cutset : bytes) : bytes :=
  rev (trimLeftSet (rev s) cutset).

Section GoStrings.
Context {U : Unicode}.

(** [strings.TrimSpace]: the second loop, from the end of [s]; [r] is
    what remains of [s], reversed. *)
Fixpoint trimSpaceStop (r : bytes) : bytes :=
  match r with
  | [] => []
  | c :: r' =>
      if nonASCII c then TrimRightFunc_IsSpace (rev r)
      else if asciiSpace c then trimSpaceStop r'
      else rev r
  end.

(** [strings.TrimSpace]: the first loop, from the start of [s]. *)
Fixpoint TrimSpace (s : bytes) : bytes :=
  match s with
  | [] => []
  | c :: s' =>
      if nonASCII c then TrimFunc_IsSpace s
      else if asciiSpace c then TrimSpace s'
      else trimSpaceStop (rev s)
  end.

Definition lowerASCII (c : byte) : byte :=
  if (65 <=? Byte.to_N c)%N && (Byte.to_N c <=? 90)%N then
    match Byte.of_N (Byte.to_N c + 32)%N with
    | Some c' => c'
    | None => c
    end
  else c.

(** [strings.ToLower] *)
Definition ToLower (s : bytes) : bytes :=
  if forallb (fun c => negb (nonASCII c)) s then map lowerASCII s
  else Map_ToLower s.

End GoStrings.

(** ** parser.go *)

(** A counting loop [for cond(j) { j++ }].  Every use gives it the fuel
    [fuelFrom s j] and a condition that implies [j < len(s)], so that the
    loop ends on its condition ([countWhile_spec]). *)
Fixpoint countWhile (cond : Z -> bool) (fuel : nat) (j : Z) : Z :=
  match fuel with
  | O => j
  | S fuel' => if cond j then countWhile cond fuel' (j + 1) else j
  end.

(** The fuel of a loop over [s] whose index starts at [j] and only grows. *)
Definition fuelFrom {A : Type} (s : list A) (j : Z) : nat := Z.to_nat (len s - j).

(** [findStmtStart]; [src[i]] is read with its bounds check. *)
Fixpoint findStmtStartLoop (src : bytes) (pos : Z) (fuel : nat) (i : Z)
  : outcome Z :=
  if i <? pos then
    match fuel with
    | O => OutOfFuel
    | S fuel' =>
        c <- rd src i ;;
        if isSpace c then findStmtStartLoop src pos fuel' (i + 1) else Ok i
    end
  else Ok i.

Definition findStmtStart (src : bytes) (last pos : Z) : outcome Z :=
  findStmtStartLoop src pos (Z.to_nat (pos - last)) last.

Section FirstIdent.
Context {U : Unicode}.

(** One iteration of the first loop of [firstIdent]: [Some i'] when the
    iteration ends in [continue] with the index at [i'], [None] when it
    ends in [break]. *)
Definition leadStep (s : bytes) (i : Z) : option Z :=
  if unicode_IsSpace (at_ s i) then Some (i + 1)
  else if at_ s i == "#"%byte then
    let j := countWhile (fun j => (j <? len s) && negb (at_ s j == nl))
               (fuelFrom s (i + 1)) (i + 1) in
    Some (j + 1)
  else if (at_ s i == "/"%byte) && (i + 1 <? len s) &&
          ((at_ s (i + 1) == "/"%byte) || (at_ s (i + 1) == "*"%byte)) then
    if at_ s (i + 1) == "/"%byte then
      let j := countWhile (fun j => (j <? len s) && negb (at_ s j == nl))
                 (fuelFrom s (i + 2)) (i + 2) in
      Some (j + 1)
    else
      let j := countWhile
                 (fun j => (j + 1 <? len s) &&
                           negb ((at_ s j == "*"%byte) && (at_ s (j + 1) == "/"%byte)))
                 (fuelFrom s (i + 2)) (i + 2) in
      let j := if j + 1 <? len s then j + 2 else j in
      Some j
  else None.

Fixpoint leadLoop (s : bytes) (fuel : nat) (i : Z) : outcome Z :=
  if i <? len s then
    match fuel with
    | O => OutOfFuel
    | S fuel' =>
        match leadStep s i with
        | Some i' => leadLoop s fuel' i'
        | None => Ok i
        end
    end
  else Ok i.

(** [firstIdent]; the slice [s[start:i]] is taken with its bounds check. *)
Definition firstIdent (s : bytes) : outcome bytes :=
  start <- leadLoop s (fuelFrom s 0) 0 ;;
  let i := countWhile
             (fun i => (i <? len s) &&
                       negb (isSpace (at_ s i) || (at_ s i == "{"%byte) ||
                             (at_ s i == ";"%byte)))
             (fuelFrom s start) start in
  tok <- sl s start i ;;
  let tok := TrimSpace tok in
  let tok := Trim1 tok dq in
  Ok tok.

End FirstIdent.

(** The local variables of [parseRange]. *)
Record pstate : Type := mkP {
  p_nodes : list Node;
  p_i : Z;
  p_last : Z;
  p_depth : Z;
  p_inSlashStar : bool;
  p_inLine : bool;
  p_inString : bool
}.

(** The local variables of the scanning loop of [buildStmt]. *)
Record bstate : Type := mkS {
  b_i : Z;
  b_depth : Z;
  b_inSlashStar : bool;
  b_inLine : bool;
  b_inString : bool;
  b_braceOpen : Z;
  b_braceClose : Z
}.

Section Parser.
Context {U : Unicode}.

(** One iteration of the loop [for i < end] of [parseRange], entered with
    [i < end].  [build] is [p.buildStmt]; the bytes of [p.src] are read
    with their bounds checks. *)
Definition parseStep (build : bytes -> Z -> outcome Stmt)
    (src : bytes) (end_ : Z) (st : pstate) : outcome pstate :=
  let '(mkP nodes i last depth inSlashStar inLine inString) := st in
  c <- rd src i ;;
  if inLine then
    (* End-of-line resets line comments *)
    let inLine := if c == nl then false else inLine in
    Ok (mkP nodes (i + 1) last depth inSlashStar inLine inString)
  else if inSlashStar then
    (* Inside block comment *)
    if (c == "*"%byte) && (i + 1 <? end_) then
      c1 <- rd src (i + 1) ;;
      if c1 == "/"%byte then
        Ok (mkP nodes (i + 2) last depth false inLine inString)
      else Ok (mkP nodes (i + 1) last depth inSlashStar inLine inString)
    else Ok (mkP nodes (i + 1) last depth inSlashStar inLine inString)
  else if inString then
    (* Inside string *)
    if c == bsl then
      if i + 1 <? end_ then
        Ok (mkP nodes (i + 2) last depth inSlashStar inLine inString)
      else Ok (mkP nodes (i + 1) last depth inSlashStar inLine inString)
    else
      let inString := if c == dq then false else inString in
      Ok (mkP nodes (i + 1) last depth inSlashStar inLine inString)
  else
    (* Enter comments/strings *)
    opener <-
      (if (c == "/"%byte) && (i + 1 <? end_) then
         c1 <- rd src (i + 1) ;;
         if c1 == "*"%byte then
           Ok (Some (mkP nodes (i + 2) last depth true inLine inString))
         else if c1 == "/"%byte then
           Ok (Some (mkP nodes (i + 2) last depth inSlashStar true inString))
         else Ok None
       else Ok None) ;;
    match opener with
    | Some st' => Ok st'
    | None =>
        if c == "#"%byte then
          Ok (mkP nodes (i + 1) last depth inSlashStar true inString)
        else if c == dq then
          Ok (mkP nodes (i + 1) last depth inSlashStar inLine true)
        (* Track braces only outside strings/comments *)
        else if c == "{"%byte then
          Ok (mkP nodes (i + 1) last (depth + 1) inSlashStar inLine inString)
        else if c == "}"%byte then
          let depth := if depth >? 0 then depth - 1 else depth in
          Ok (mkP nodes (i + 1) last depth inSlashStar inLine inString)
        (* Statement boundary: semicolon at top level *)
        else if (c == ";"%byte) && (depth =? 0) then
          stmtStart <- findStmtStart src last i ;;
          nodes <-
            (if stmtStart >? last then
               text <- sl src last stmtStart ;;
               Ok (nodes ++ [RawNode (mkRaw text last stmtStart)])
             else Ok nodes) ;;
          seg <- sl src stmtStart (i + 1) ;;
          nodes <-
            match build seg stmtStart with
            | Ok st => Ok (nodes ++ [StmtNode st])
            | Err _ =>
                (* Be tolerant: fall back to a Raw segment *)
                Ok (nodes ++ [RawNode (mkRaw seg stmtStart (i + 1))])
            | Panic => Panic
            | OutOfFuel => OutOfFuel
            end ;;
          Ok (mkP nodes (i + 1) (i + 1) depth inSlashStar inLine inString)
        else Ok (mkP nodes (i + 1) last depth inSlashStar inLine inString)
    end.

Fixpoint parseLoop (build : bytes -> Z -> outcome Stmt)
    (src : bytes) (end_ : Z) (fuel : nat) (st : pstate) : outcome pstate :=
  if p_i st <? end_ then
    match fuel with
    | O => OutOfFuel
    | S fuel' =>
        st' <- parseStep build src end_ st ;;
        parseLoop build src end_ fuel' st'
    end
  else Ok st.

(** One iteration of the loop [for i < len(seg)] of [buildStmt], entered
    with [i < len(seg)]. *)
Definition scanStep (seg : bytes) (st : bstate) : bstate :=
  let '(mkS i depth inSlashStar inLine inString braceOpen braceClose) := st in
  let c := at_ seg i in
  if inLine then
    let inLine := if c == nl then false else inLine in
    mkS (i + 1) depth inSlashStar inLine inString braceOpen braceClose
  else if inSlashStar then
    if (c == "*"%byte) && (i + 1 <? len seg) && (at_ seg (i + 1) == "/"%byte)
    then mkS (i + 2) depth false inLine inString braceOpen braceClose
    else mkS (i + 1) depth inSlashStar inLine inString braceOpen braceClose
  else if inString then
    if (c == bsl) && (i + 1 <? len seg) then
      mkS (i + 2) depth inSlashStar inLine inString braceOpen braceClose
    else
      let inString := if c == dq then false else inString in
      mkS (i + 1) depth inSlashStar inLine inString braceOpen braceClose
  else if (c == "/"%byte) && (i + 1 <? len seg) &&
          (at_ seg (i + 1) == "*"%byte) then
    mkS (i + 2) depth true inLine inString braceOpen braceClose
  else if (c == "/"%byte) && (i + 1 <? len seg) &&
          (at_ seg (i + 1) == "/"%byte) then
    mkS (i + 2) depth inSlashStar true inString braceOpen braceClose
  else if c == "#"%byte then
    mkS (i + 1) depth inSlashStar true inString braceOpen braceClose
  else if c == dq then
    mkS (i + 1) depth inSlashStar inLine true braceOpen braceClose
  else if c == "{"%byte then
    let braceOpen :=
      if (depth =? 0) && (braceOpen <? 0) then i else braceOpen in
    mkS (i + 1) (depth + 1) inSlashStar inLine inString braceOpen braceClose
  else if c == "}"%byte then
    let depth := if depth >? 0 then depth - 1 else depth in
    let braceClose :=
      if (depth =? 0) && (braceOpen >=? 0) && (braceClose <? 0)
      then i else braceClose in
    mkS (i + 1) depth inSlashStar inLine inString braceOpen braceClose
  else mkS (i + 1) depth inSlashStar inLine inString braceOpen braceClose.

Fixpoint scanLoop (seg : bytes) (fuel : nat) (st : bstate) : outcome bstate :=
  if b_i st <? len seg then
    match fuel with
    | O => OutOfFuel
    | S fuel' => scanLoop seg fuel' (scanStep seg st)
    end
  else Ok st.

(** [buildStmt]; [parse] is the method [p.parseRange] that the body of a
    block is handed to.  Every slice of [seg] is taken with its bounds
    check. *)
Definition buildStmt (parse : Z -> Z -> outcome (list Node))
    (seg : bytes) (absStart : Z) : outcome Stmt :=
  (* Extract top-level head vs. body: find first brace at depth 0. *)
  st <- scanLoop seg (fuelFrom seg 0) (mkS 0 0 false false false (-1) (-1)) ;;
  let braceOpen := b_braceOpen st in
  let braceClose := b_braceClose st in
  (* Head is before braceOpen (if any) else before final semicolon *)
  let semi := LastIndexByte seg ";"%byte in
  if semi <? 0 then Err MissingSemicolon
  else
    fields <-
      (if (braceOpen >=? 0) && (braceClose >=? 0) && (braceClose >? braceOpen)
       then
         head <- sl seg 0 braceOpen ;;
         let lbEnd :=
           countWhile
             (fun lbEnd => (lbEnd <? len seg) && isSpace (at_ seg lbEnd) &&
                           (lbEnd <? braceClose))
             (fuelFrom seg (braceOpen + 1)) (braceOpen + 1) in
         lbrace <- sl seg braceOpen lbEnd ;;
         let bodyStart := lbEnd in
         let bodyEnd := braceClose in
         bodySrc <- sl seg bodyStart bodyEnd ;;
         body <-
           (if len bodySrc >? 0 then
              match parse (absStart + bodyStart) (absStart + bodyEnd) with
              | Ok bodyNodes => Ok bodyNodes
              | Err _ =>
                  (* Tolerant: keep as raw body *)
                  Ok [RawNode (mkRaw bodySrc (absStart + bodyStart)
                                 (absStart + bodyEnd))]
              | Panic => Panic
              | OutOfFuel => OutOfFuel
              end
            else Ok []) ;;
         let rbEnd :=
           countWhile
             (fun rbEnd => (rbEnd <? semi) && isSpace (at_ seg rbEnd))
             (fuelFrom seg (braceClose + 1)) (braceClose + 1) in
         rbrace <- sl seg braceClose rbEnd ;;
         trailing <- sl seg rbEnd semi ;;
         Ok (true, head, lbrace, body, rbrace, trailing)
       else
         head <- sl seg 0 semi ;;
         Ok (false, head, [], [], [], [])) ;;
    let '(hasBlock, head, lbrace, body, rbrace, trailing) := fields in
    ident <- firstIdent head ;;
    Ok (mkStmt seg absStart (absStart + len seg) (ToLower ident) head
          hasBlock lbrace body rbrace trailing false).

(** [parseRange]: the fuel bounds the nesting of blocks (each call on the
    body of a block consumes one unit); the loop itself runs at most
    [end - start] iterations. *)
Fixpoint parseRange (fuel : nat) (src : bytes) (start end_ : Z)
  : outcome (list Node) :=
  match fuel with
  | O => OutOfFuel
  | S fuel' =>
      st <- parseLoop (buildStmt (parseRange fuel' src)) src end_
              (Z.to_nat (end_ - start))
              (mkP [] start start 0 false false false) ;;
      (* Trailing Raw *)
      if p_last st <? end_ then
        text <- sl src (p_last st) end_ ;;
        Ok (p_nodes st ++ [RawNode (mkRaw text (p_last st) end_)])
      else Ok (p_nodes st)
  end.

(** [Parse]: a block nested [k] deep spans at least [2k] bytes, so
    [len(src) + 1] units of fuel never run out. *)
Definition Parse (src : bytes) : outcome File :=
  nodes <- parseRange (S (List.length src)) src 0 (len src) ;;
  Ok (mkFile nodes src).

End Parser.

(** ** editing.go *)

Definition MarkModified (s : Stmt) : Stmt :=
  mkStmt (RawText s) (s_start s) (s_end s) (Keyword s) (HeadRaw s)
    (HasBlock s) (LBraceRaw s) (Body s) (RBraceRaw s) (TrailingAfterR s) true.

Definition ReplaceHead (s : Stmt) (newHead : bytes) : Stmt :=
  mkStmt (RawText s) (s_start s) (s_end s) (Keyword s) newHead
    (HasBlock s) (LBraceRaw s) (Body s) (RBraceRaw s) (TrailingAfterR s) true.

(** [AppendToBody]: the statement is updated in place; the updated
    statement is returned. *)
Definition AppendToBody (s : Stmt) (n : Node) : Stmt :=
  let s :=
    if negb (HasBlock s) then
      (* upgrade to block if previously simple *)
      mkStmt (RawText s) (s_start s) (s_end s) (Keyword s) (HeadRaw s)
        true (B " {") [] (B "}") [] (Modified s)
    else s in
  mkStmt (RawText s) (s_start s) (s_end s) (Keyword s) (HeadRaw s)
    (HasBlock s) (LBraceRaw s) (Body s ++ [n]) (RBraceRaw s)
    (TrailingAfterR s) true.

Section Constructors.
Context {U : Unicode}.

Definition NewSimpleStmt (head : bytes) : outcome Stmt :=
  let head := TrimRight head (B "; " ++ [tab; cr; nl]) in
  ident <- firstIdent head ;;
  Ok (mkStmt [] 0 0 (ToLower ident) head false [] [] [] [] true).

Definition NewBlockStmt (head : bytes) (body : list Node) : outcome Stmt :=
  let head := TrimSpace head in
  ident <- firstIdent head ;;
  Ok (mkStmt [] 0 0 (ToLower ident) head true (B " {") body (B "}") [] true).

End Constructors.

(** The slow paths of package strings are not taken on a string of ASCII
    bytes; this instance serves to run the code on ASCII inputs. *)
Definition asciiOnly : Unicode :=
  {| TrimFunc_IsSpace := fun s => s;
     TrimRightFunc_IsSpace := fun s => s;
     Map_ToLower := fun s => s |}.



(** ** The accessors, the traversal and the queries *)

(** [Start] and [End] of [*Raw] and [*Stmt]. *)
Definition Start (n : Node) : Z :=
  match n with
  | RawNode r => r_start r
  | StmtNode s => s_start s
  end.

Definition End_ (n : Node) : Z :=
  match n with
  | RawNode r => r_end r
  | StmtNode s => s_end s
  end.

(** [walkNode]: the callback [fn] may keep a state of its own (the
    variables it closes over), which is passed in and returned; the
    boolean tells whether the walk goes on. *)
Fixpoint walkNode {S : Type} (fn : Node -> S -> S * bool) (n : Node)
    (st : S) : S * bool :=
  let '(st, go) := fn n st in
  if negb go then (st, false)
  else
    match n with
    | StmtNode s =>
        (fix range (l : list Node) (st : S) : S * bool :=
           match l with
           | [] => (st, true)
           | cn :: l' =>
               let '(st, go) := walkNode fn cn st in
               if negb go then (st, false) else range l' st
           end) (Body s) st
    | RawNode _ => (st, true)
    end.

(** The loop [for _, n := range f.Nodes] of [File.Walk]. *)
Fixpoint walkNodes {S : Type} (fn : Node -> S -> S * bool)
    (nodes : list Node) (st : S) : S :=
  match nodes with
  | [] => st
  | n :: nodes' =>
      let '(st, go) := walkNode fn n st in
      if negb go then st else walkNodes fn nodes' st
  end.

Definition Walk {S : Type} (f : File) (fn : Node -> S -> S * bool) (st : S) : S :=
  walkNodes fn (Nodes f) st.

(** [File.Find]: the callback appends to the slice [out] and always
    returns [true]. *)
Definition Find (f : File) (pred : Stmt -> bool) : list Stmt :=
  Walk f
    (fun n out =>
       match n with
       | StmtNode s => (if pred s then out ++ [s] else out, true)
       | RawNode _ => (out, true)
       end)
    [].

(** The comparison [==] of two Go strings. *)
Fixpoint eqBytes (a b : bytes) : bool :=
  match a, b with
  | [], [] => true
  | x :: a', y :: b' => (x == y) && eqBytes a' b'
  | _, _ => false
  end.

(** [normalize] of the query helpers: [c += 'a' - 'A'] on the bytes from
    [A] to [Z]. *)
Definition normalize (s : bytes) : bytes :=
  map (fun c =>
         if (65 <=? Byte.to_N c)%N && (Byte.to_N c <=? 90)%N then
           match Byte.of_N (Byte.to_N c + 32)%N with
           | Some c' => c'
           | None => c
           end
         else c) s.

(** [File.TopLevel] *)
Definition TopLevel (f : File) (keyword : bytes) : list Stmt :=
  let keyword := normalize keyword in
  fold_left
    (fun out n =>
       match n with
       | StmtNode s => if eqBytes (Keyword s) keyword then out ++ [s] else out
       | RawNode _ => out
       end)
    (Nodes f) [].
(** * Definitions of the verification *)

(** ** The scanner shared by [parseRange] and [buildStmt]

    The two loops track the comment and string context by the same code;
    [lexStep] is that code alone, on the index and the three flags. *)

Record lex : Type := mkL {
  l_i : Z;
  l_inSlashStar : bool;
  l_inLine : bool;
  l_inString : bool
}.

Definition lexStep (s : bytes) (e : Z) (x : lex) : lex :=
  let '(mkL i inSlashStar inLine inString) := x in
  let c := at_ s i in
  if inLine then
    mkL (i + 1) inSlashStar (if c == nl then false else inLine) inString
  else if inSlashStar then
    if (c == "*"%byte) && (i + 1 <? e) && (at_ s (i + 1) == "/"%byte)
    then mkL (i + 2) false inLine inString
    else mkL (i + 1) inSlashStar inLine inString
  else if inString then
    if (c == bsl) && (i + 1 <? e) then mkL (i + 2) inSlashStar inLine inString
    else mkL (i + 1) inSlashStar inLine (if c == dq then false else inString)
  else if (c == "/"%byte) && (i + 1 <? e) && (at_ s (i + 1) == "*"%byte) then
    mkL (i + 2) true inLine inString
  else if (c == "/"%byte) && (i + 1 <? e) && (at_ s (i + 1) == "/"%byte) then
    mkL (i + 2) inSlashStar true inString
  else if c == "#"%byte then mkL (i + 1) inSlashStar true inString
  else if c == dq then mkL (i + 1) inSlashStar inLine true
  else mkL (i + 1) inSlashStar inLine inString.

Definition lexP (st : pstate) : lex :=
  mkL (p_i st) (p_inSlashStar st) (p_inLine st) (p_inString st).

Definition lexB (st : bstate) : lex :=
  mkL (b_i st) (b_inSlashStar st) (b_inLine st) (b_inString st).

(** The scanner at index [i] outside comments and strings. *)
Definition Normal (i : Z) : lex := mkL i false false false.

(** [Run s e x z]: the scanner over [s] with bound [e], started in [x],
    passes through [z]. *)
Inductive Run (s : bytes) (e : Z) : lex -> lex -> Prop :=
| Run_refl x : Run s e x x
| Run_step x z : l_i x < e -> Run s e (lexStep s e x) z -> Run s e x z.

Definition shift (a : Z) (x : lex) : lex :=
  mkL (l_i x - a) (l_inSlashStar x) (l_inLine x) (l_inString x).

Definition InLine (i : Z) : lex := mkL i false true false.
Definition InBlock (i : Z) : lex := mkL i true false false.


(** ** The keyword of a head, byte by byte

    The bytes of the head after the leading white space and the leading
    comments of the three styles, up to the next space byte, opening
    brace or semicolon, trimmed of white space, with every double quote
    at either end removed, in lower case.  The functions below consume
    the head byte by byte and owe nothing to the indices of
    [firstIdent]. *)

Inductive trivia : Type :=
| Lead   (* between comments *)
| LineC  (* in a comment that runs to the end of the line *)
| BlockC (* in a comment that runs to the closing star and slash *).

Fixpoint skipTrivia (m : trivia) (s : bytes) {struct s} : bytes :=
  match s with
  | [] => []
  | c :: s' =>
      match m with
      | Lead =>
          if unicode_IsSpace c then skipTrivia Lead s'
          else if c == "#"%byte then skipTrivia LineC s'
          else if c == "/"%byte then
            match s' with
            | c' :: s'' =>
                if c' == "/"%byte then skipTrivia LineC s''
                else if c' == "*"%byte then skipTrivia BlockC s''
                else s
            | [] => s
            end
          else s
      | LineC => if c == nl then skipTrivia Lead s' else skipTrivia LineC s'
      | BlockC =>
          match s' with
          | c' :: s'' =>
              if (c == "*"%byte) && (c' == "/"%byte) then skipTrivia Lead s''
              else skipTrivia BlockC s'
          | [] => []
          end
      end
  end.

(** A token ends at a space, an opening brace or a semicolon. *)
Definition isDelim (c : byte) : bool :=
  isSpace c || (c == "{"%byte) || (c == ";"%byte).

Fixpoint takeToken (s : bytes) : bytes :=
  match s with
  | c :: s' => if isDelim c then [] else c :: takeToken s'
  | [] => []
  end.

Section KeywordSpec.
Context {U : Unicode}.

Definition identSpec (head : bytes) : bytes :=
  Trim1 (TrimSpace (takeToken (skipTrivia Lead head))) dq.

Definition keywordSpec (head : bytes) : bytes := ToLower (identSpec head).

End KeywordSpec.

(** [s[i:]] *)
Definition from (s : bytes) (i : Z) : bytes := skipn (Z.to_nat i) s.

(** ** Invariants *)

(** What holds of the variables of the scanning loop of [buildStmt]
    before every iteration: the scanner came from the start of [seg];
    [braceOpen] is [-1] or the index of an opening brace that the scanner
    met outside comments and strings; [braceClose] is [-1] or the index of
    a closing brace after [braceOpen]. *)
Definition ScanInv (seg : bytes) (st : bstate) : Prop :=
  0 <= b_i st /\ b_i st <= len seg /\
  Run seg (len seg) (Normal 0) (lexB st) /\
  0 <= b_depth st /\
  (b_braceOpen st = -1 \/
   (0 <= b_braceOpen st /\ b_braceOpen st < b_i st /\
    Run seg (len seg) (Normal 0) (Normal (b_braceOpen st)) /\
    at_ seg (b_braceOpen st) = "{"%byte)) /\
  (b_braceClose st = -1 \/
   (0 <= b_braceOpen st /\ b_braceOpen st < b_braceClose st /\
    b_braceClose st < b_i st /\ at_ seg (b_braceClose st) = "}"%byte)).

(** A property of every statement of a tree. *)
Fixpoint everyStmt (P : Stmt -> Prop) (n : Node) : Prop :=
  match n with
  | RawNode _ => True
  | StmtNode s =>
      P s /\
      (fix every (l : list Node) : Prop :=
         match l with
         | [] => True
         | x :: l' => everyStmt P x /\ every l'
         end) (Body s)
  end.

(** What holds of the variables of [parseRange] before every iteration:
    the nodes emitted so far serialize to [src[start:last]], and the
    scanner came from [last] outside comments and strings. *)
Definition PInv (P : Stmt -> Prop) (src : bytes) (start end_ : Z)
    (st : pstate) : Prop :=
  0 <= start /\ start <= p_last st /\ p_last st <= p_i st /\
  p_i st <= end_ /\ end_ <= len src /\
  Run src end_ (Normal (p_last st)) (lexP st) /\
  0 <= p_depth st /\
  writeNodes (p_nodes st) [] = slice src start (p_last st) /\
  Forall (everyStmt P) (p_nodes st).

(** What the loop of [parseRange] needs of [build] on the segments that it
    cuts, [src[a:b]] with a semicolon at [b-1] that the scanner, started at
    [a], meets outside comments and strings: a statement that keeps the
    segment as its original text, or an error. *)
Definition BuildOk (P : Stmt -> Prop) (build : bytes -> Z -> outcome Stmt)
    (src : bytes) (start end_ : Z) : Prop :=
  forall a b,
    start <= a -> a < b -> b <= end_ -> at_ src (b - 1) = ";"%byte ->
    Run src end_ (Normal a) (Normal (b - 1)) ->
    (exists s, build (slice src a b) a = Ok s /\
               RawText s = slice src a b /\ Modified s = false /\
               everyStmt P (StmtNode s)) \/
    (exists e, build (slice src a b) a = Err e).

Section ParsedStmt.
Context {U : Unicode}.

(** A statement as [Parse] leaves it. *)
Definition Parsed (s : Stmt) : Prop :=
  Modified s = false /\ RawText s <> [] /\
  s_end s = s_start s + len (RawText s) /\
  Keyword s = keywordSpec (HeadRaw s).

End ParsedStmt.

(** ** Regeneration in the words of the specification *)

(** Every line of [s] prefixed by two spaces; [bol] tells whether the next
    byte begins a line. *)
Fixpoint indentFrom (bol : bool) (s : bytes) : bytes :=
  match s with
  | [] => []
  | c :: s' => (if bol then B "  " else []) ++ c :: indentFrom (c == nl) s'
  end.

Definition indent (s : bytes) : bytes := indentFrom true s.

(** [s] with a newline at its end: [s] itself when it ends with one. *)
Definition closeLine (s : bytes) : bytes :=
  if lastByte s == nl then s else s ++ [nl].

(** The head of a regenerated block statement: the right-trimmed
    [HeadRaw], or [Keyword] when nothing is left of it. *)
Definition blockHead (s : Stmt) : bytes :=
  if len (trimRightSpace (HeadRaw s)) =? 0 then Keyword s
  else trimRightSpace (HeadRaw s).

(** The serialized output of every body node, indented. *)
Definition bodyText (body : list Node) : bytes :=
  List.concat (map (fun n => indent (writeTo n [])) body).

Definition regenBlock (s : Stmt) : bytes :=
  blockHead s ++ B " {" ++
  (match Body s with
   | [] => []
   | _ :: _ => closeLine ([nl] ++ bodyText (Body s))
   end) ++
  B "}" ++ B ";".

(** The states that the loop of [parseRange] over [src[start:end]] goes
    through. *)
Inductive PReach (build : bytes -> Z -> outcome Stmt) (src : bytes)
    (start end_ : Z) : pstate -> Prop :=
| PReach_init :
    PReach build src start end_ (mkP [] start start 0 false false false)
| PReach_step st st' :
    PReach build src start end_ st -> p_i st < end_ ->
    parseStep build src end_ st = Ok st' ->
    PReach build src start end_ st'.

(** The states that the scanning loop of [buildStmt] over [seg] goes
    through. *)
Inductive BReach (seg : bytes) : bstate -> Prop :=
| BReach_init : BReach seg (mkS 0 0 false false false (-1) (-1))
| BReach_step st :
    BReach seg st -> b_i st < len seg -> BReach seg (scanStep seg st).

(** ** Concrete statements *)

(** The Go literal [&Stmt{HeadRaw: "x"}]: never parsed, not marked
    modified. *)
Definition headOnlyStmt : Stmt :=
  mkStmt [] 0 0 [] (B "x") false [] [] [] [] false.

(** A block statement [k { };] after [ReplaceHead(" ")]. *)
Definition blankHeadStmt : Stmt :=
  mkStmt (B "k { };") 0 6 (B "k") (B " ") true (B "{ ") [] (B "}") [] true.

(** The statement that [Parse] makes of [recursion no;]. *)
Definition recursionNo : Stmt :=
  mkStmt (B "recursion no;") 0 13 (B "recursion") (B "recursion no")
    false [] [] [] [] false.

(** A comment line as a [Raw] node. *)
Definition noteLine : Node := RawNode (mkRaw (B "# note" ++ [nl]) 0 0).

(** The input [zone "a{b" { };] *)
Definition zoneSrc : bytes := B "zone " ++ [dq] ++ B "a{b" ++ [dq] ++ B " { };".


(** The input of a comment line followed by the statement [foo;] *)
Definition commentSrc : bytes := B "# c" ++ [nl] ++ B "foo;".

(** The input [a; # c], a newline, [b;]. *)
Definition twoStmtSrc : bytes := B "a; # c" ++ [nl] ++ B "b;".

(** The statement that [NewSimpleStmt("foo bar")] builds. *)
Definition fooBar : Stmt :=
  mkStmt [] 0 0 (B "foo") (B "foo bar") false [] [] [] [] true.

(** [p2] returns what [p1] returns whenever [p1] does not run out of
    fuel. *)
Definition Refines {A B C : Type} (p1 p2 : A -> B -> outcome C) : Prop :=
  forall a b, p1 a b <> OutOfFuel -> p2 a b = p1 a b.

(** ** The tree in document order *)

(** A node followed by the nodes of its body, depth first. *)
Fixpoint preorder (n : Node) : list Node :=
  n :: match n with
       | RawNode _ => []
       | StmtNode s => flat_map preorder (Body s)
       end.

(** The statements among a list of nodes, in order. *)
Definition stmtsOf (nodes : list Node) : list Stmt :=
  flat_map (fun n => match n with StmtNode s => [s] | RawNode _ => [] end) nodes.

(** A fold of a callback with a state over a list that stops after the
    first element on which the callback returns [false]. *)
Fixpoint foldStop {S : Type} (fn : Node -> S -> S * bool) (l : list Node)
    (st : S) : S * bool :=
  match l with
  | [] => (st, true)
  | n :: l' =>
      let '(st, go) := fn n st in
      if go then foldStop fn l' st else (st, false)
  end.

(** The bytes of an ASCII string. *)
Definition isASCII (s : bytes) : bool := forallb (fun c => negb (nonASCII c)) s.

(** [s] with one field replaced. *)
Definition withBody (s : Stmt) (body : list Node) : Stmt :=
  mkStmt (RawText s) (s_start s) (s_end s) (Keyword s) (HeadRaw s)
    (HasBlock s) (LBraceRaw s) body (RBraceRaw s) (TrailingAfterR s)
    (Modified s).

(** ** How the leading trivia of a head ends

    [triviaEnd] consumes the head as [skipTrivia] does and tells where
    the consumption stops: at a token or at the end of the head between
    comments ([Closed]), at the end of the head inside a comment that
    runs to the end of the line ([OpenLine]), or at the end of the head
    inside a comment that the star and the slash never close
    ([OpenBlock], with the last byte of the comment if it has one). *)

Inductive leadEnd : Type :=
| Closed
| OpenLine
| OpenBlock (last : option byte).

Fixpoint triviaEnd (m : trivia) (s : bytes) {struct s} : leadEnd :=
  match s with
  | [] =>
      match m with
      | Lead => Closed
      | LineC => OpenLine
      | BlockC => OpenBlock None
      end
  | c :: s' =>
      match m with
      | Lead =>
          if unicode_IsSpace c then triviaEnd Lead s'
          else if c == "#"%byte then triviaEnd LineC s'
          else if c == "/"%byte then
            match s' with
            | c' :: s'' =>
                if c' == "/"%byte then triviaEnd LineC s''
                else if c' == "*"%byte then triviaEnd BlockC s''
                else Closed
            | [] => Closed
            end
          else Closed
      | LineC => if c == nl then triviaEnd Lead s' else triviaEnd LineC s'
      | BlockC =>
          match s' with
          | c' :: s'' =>
              if (c == "*"%byte) && (c' == "/"%byte) then triviaEnd Lead s''
              else triviaEnd BlockC s'
          | [] => OpenBlock (Some c)
          end
      end
  end.

(** The cutset of [NewSimpleStmt]. *)
Definition simpleCutset : bytes := B "; " ++ [tab; cr; nl].

(** ** The spans and the shape of a parsed tree *)

Definition nodeText (n : Node) : bytes :=
  match n with
  | RawNode r => Text r
  | StmtNode s => RawText s
  end.

(** A property of every node of a tree. *)
Fixpoint everyNode (P : Node -> Prop) (n : Node) : Prop :=
  P n /\
  match n with
  | RawNode _ => True
  | StmtNode s =>
      (fix every (l : list Node) : Prop :=
         match l with
         | [] => True
         | x :: l' => everyNode P x /\ every l'
         end) (Body s)
  end.

(** The node spans [start, end) of the source, is not empty and holds
    the bytes of its span. *)
Definition SpanOk (src : bytes) (n : Node) : Prop :=
  0 <= Start n /\ Start n < End_ n /\ End_ n <= len src /\
  nodeText n = slice src (Start n) (End_ n).

(** The spans of the nodes follow one another from [a] to [b] without
    gap or overlap. *)
Fixpoint Tiles (nodes : list Node) (a b : Z) : Prop :=
  match nodes with
  | [] => a = b
  | n :: rest => Start n = a /\ a < End_ n /\ Tiles rest (End_ n) b
  end.

(** A [Raw] node that is not the last of its list holds spaces only and
    is followed by a statement. *)
Fixpoint RawsApart (nodes : list Node) : Prop :=
  match nodes with
  | [] => True
  | RawNode r :: ((n :: _) as rest) =>
      Forall (fun c => isSpace c = true) (Text r) /\
      (exists s, n = StmtNode s) /\ RawsApart rest
  | _ :: rest => RawsApart rest
  end.

(** The nodes that the loop of [parseRange] has emitted: statements, each
    after at most one [Raw] node of spaces. *)
Inductive Groups : list Node -> Prop :=
| Groups_nil : Groups []
| Groups_stmt nodes s : Groups nodes -> Groups (nodes ++ [StmtNode s])
| Groups_raw nodes r s :
    Forall (fun c => isSpace c = true) (Text r) -> Groups nodes ->
    Groups (nodes ++ [RawNode r; StmtNode s]).

(** The offsets in the source of the body of a block statement. *)
Definition bodyStart (s : Stmt) : Z :=
  s_start s + len (HeadRaw s) + len (LBraceRaw s).

Definition bodyEnd (s : Stmt) : Z :=
  s_end s - 1 - len (TrailingAfterR s) - len (RBraceRaw s).

(** A brace followed by spaces. *)
Definition braceRun (brace : byte) (t : bytes) : Prop :=
  exists spaces, t = brace :: spaces /\ Forall (fun c => isSpace c = true) spaces.

(** The fields of a statement hold its original text in pieces. *)
Definition Decomposed (s : Stmt) : Prop :=
  RawText s =
    HeadRaw s ++ LBraceRaw s ++ writeNodes (Body s) [] ++ RBraceRaw s ++
    TrailingAfterR s ++ B ";" /\
  (if HasBlock s
   then braceRun "{"%byte (LBraceRaw s) /\ braceRun "}"%byte (RBraceRaw s)
   else LBraceRaw s = [] /\ Body s = [] /\ RBraceRaw s = [] /\
        TrailingAfterR s = []).

(** What holds of every node that [Parse] returns. *)
Definition Good (src : bytes) (n : Node) : Prop :=
  SpanOk src n /\
  match n with
  | RawNode _ => True
  | StmtNode s =>
      Modified s = false /\ Decomposed s /\
      Tiles (Body s) (bodyStart s) (bodyEnd s) /\ RawsApart (Body s) /\
      isSpace (at_ (RawText s) 0) = false
  end.

(** What holds of the variables of [parseRange] before every iteration,
    of the nodes emitted so far. *)
Definition LInv (src : bytes) (start end_ : Z) (st : pstate) : Prop :=
  start <= p_last st /\ p_last st <= p_i st /\ p_i st <= end_ /\
  Tiles (p_nodes st) start (p_last st) /\
  Forall (everyNode (Good src)) (p_nodes st) /\
  Groups (p_nodes st).

(** ** More concrete inputs *)

(** Three statements, two of them with the keyword [zone]. *)
Definition twoZonesSrc : bytes := B "Zone a { }; options { x; }; zone b;".

(** The statement that [NewBlockStmt("options", nil)] builds. *)
Definition optionsStmt : Stmt :=
  mkStmt [] 0 0 (B "options") (B "options") true (B " {") [] (B "}") [] true.

(** The statement that [Parse] makes of [a ;]. *)
Definition spacedStmt : Stmt :=
  mkStmt (B "a ;") 0 3 (B "a") (B "a ") false [] [] [] [] false.

(** The input [a;b;] and its two statements. *)
Definition abSrc : bytes := B "a;b;".

Definition aStmt : Stmt :=
  mkStmt (B "a;") 0 2 (B "a") (B "a") false [] [] [] [] false.

Definition bStmt : Stmt :=
  mkStmt (B "b;") 2 4 (B "b") (B "b") false [] [] [] [] false.

(** A byte that neither ends a statement nor opens or closes a block, a
    string or a comment. *)
Definition plainByte (c : byte) : bool :=
  negb ((c == ";"%byte) || (c == "{"%byte) || (c == "}"%byte) || (c == dq) ||
        (c == "#"%byte) || (c == "/"%byte)).

(** The first byte of [h], a semicolon when [h] is empty. *)
Definition firstByte (h : bytes) : byte := hd ";"%byte h.

(** ** The contexts of the bytes of a text, in the words of the specification

    Every byte of a scanned text is in exactly one of four contexts:
    Normal; LineComment, entered by two slashes or a hash and exited at
    the newline; BlockComment, entered by a slash and a star and exited
    at a star and a slash; QuotedString, entered and exited by a double
    quote that no backslash escapes, a backslash in a string consuming
    the byte that follows it (a backslash that ends the text consumes
    nothing).  The bytes that enter or exit a comment or a string are in
    that comment or string.  [classify m s] gives the context of every
    byte of [s], scanned from the context [m]; it consumes the text
    byte by byte and owes nothing to the indices and flags of the
    scanning loops. *)

Inductive context : Type :=
| InNormal
| InLineComment
| InBlockComment
| InQuotedString.

Fixpoint classify (m : context) (s : bytes) {struct s} : list context :=
  match s with
  | [] => []
  | c :: s' =>
      match m with
      | InNormal =>
          if c == "#"%byte then InLineComment :: classify InLineComment s'
          else if c == dq then InQuotedString :: classify InQuotedString s'
          else if c == "/"%byte then
            match s' with
            | c' :: s'' =>
                if c' == "*"%byte then
                  InBlockComment :: InBlockComment :: classify InBlockComment s''
                else if c' == "/"%byte then
                  InLineComment :: InLineComment :: classify InLineComment s''
                else InNormal :: classify InNormal s'
            | [] => [InNormal]
            end
          else InNormal :: classify InNormal s'
      | InLineComment =>
          InLineComment ::
          classify (if c == nl then InNormal else InLineComment) s'
      | InBlockComment =>
          match s' with
          | c' :: s'' =>
              if (c == "*"%byte) && (c' == "/"%byte) then
                InBlockComment :: InBlockComment :: classify InNormal s''
              else InBlockComment :: classify InBlockComment s'
          | [] => [InBlockComment]
          end
      | InQuotedString =>
          if c == bsl then
            match s' with
            | _ :: s'' =>
                InQuotedString :: InQuotedString :: classify InQuotedString s''
            | [] => [InQuotedString]
            end
          else
            InQuotedString ::
            classify (if c == dq then InNormal else InQuotedString) s'
      end
  end.

(** The contexts of the bytes of a text scanned from its start. *)
Definition contexts (text : bytes) : list context := classify InNormal text.

(** The brace depth is incremented and decremented on the braces in the
    Normal context only; a closing brace at depth 0 leaves it at 0. *)
Definition braceStep (d : Z) (c : byte) (x : context) : Z :=
  match x with
  | InNormal =>
      if c == "{"%byte then d + 1
      else if c == "}"%byte then (if d >? 0 then d - 1 else d)
      else d
  | _ => d
  end.

(** The depth after the bytes of [s], whose contexts are the first of
    [cs], from the depth [d]. *)
Fixpoint depthAfter (d : Z) (s : bytes) (cs : list context) : Z :=
  match s, cs with
  | c :: s', x :: cs' => depthAfter (braceStep d c x) s' cs'
  | _, _ => d
  end.

(** The depth after the first [k] bytes of [text]. *)
Definition depthAt (text : bytes) (k : Z) : Z :=
  depthAfter 0 (slice text 0 k) (contexts text).

(** The statement boundaries: the semicolons in the Normal context at
    depth 0; [i] is the index of the first byte of [s] and [d] the depth
    before it. *)
Fixpoint boundariesFrom (i d : Z) (s : bytes) (cs : list context) : list Z :=
  match s, cs with
  | c :: s', x :: cs' =>
      (match x with
       | InNormal => if (c == ";"%byte) && (d =? 0) then [i] else []
       | _ => []
       end) ++ boundariesFrom (i + 1) (braceStep d c x) s' cs'
  | _, _ => []
  end.

Definition boundaries (text : bytes) : list Z :=
  boundariesFrom 0 0 text (contexts text).

(** The first opening brace in the Normal context. *)
Fixpoint firstOpenFrom (i : Z) (s : bytes) (cs : list context) : option Z :=
  match s, cs with
  | c :: s', x :: cs' =>
      match x with
      | InNormal =>
          if c == "{"%byte then Some i else firstOpenFrom (i + 1) s' cs'
      | _ => firstOpenFrom (i + 1) s' cs'
      end
  | _, _ => None
  end.

(** The first point where the depth returns to 0 after having gone
    positive. *)
Fixpoint firstCloseFrom (i d : Z) (s : bytes) (cs : list context) : option Z :=
  match s, cs with
  | c :: s', x :: cs' =>
      if (0 <? d) && (braceStep d c x =? 0) then Some i
      else firstCloseFrom (i + 1) (braceStep d c x) s' cs'
  | _, _ => None
  end.

Definition firstOpen (seg : bytes) : option Z :=
  firstOpenFrom 0 seg (contexts seg).

Definition firstClose (seg : bytes) : option Z :=
  firstCloseFrom 0 0 seg (contexts seg).

(** An index of the program for a position that may be absent. *)
Definition orMinus1 (o : option Z) : Z :=
  match o with
  | Some z => z
  | None => -1
  end.

(** ** The scanner of the code and the contexts *)

(** The scanner at index [i] in the context [m]. *)
Definition lexOf (m : context) (i : Z) : lex :=
  match m with
  | InNormal => mkL i false false false
  | InLineComment => mkL i false true false
  | InBlockComment => mkL i true false false
  | InQuotedString => mkL i false false true
  end.

(** The scanner over [s[a:e]] is at an index [i] that begins a unit of
    the text, in the context that the specification gives for the rest
    of the text. *)
Definition Synced (s : bytes) (a e : Z) (x : lex) : Prop :=
  a <= l_i x /\ l_i x <= e /\
  exists m,
    x = lexOf m (l_i x) /\
    skipn (Z.to_nat (l_i x - a)) (contexts (slice s a e)) =
    classify m (slice s (l_i x) e).

(** What an iteration of either loop does to the depth. *)
Definition depthStep (s : bytes) (x : lex) (d : Z) : Z :=
  if l_inLine x || l_inSlashStar x || l_inString x then d
  else if at_ s (l_i x) == "{"%byte then d + 1
  else if at_ s (l_i x) == "}"%byte then (if d >? 0 then d - 1 else d)
  else d.

(** What holds of the variables of [parseRange] before every iteration,
    in terms of the text of the range. *)
Definition PSpec (src : bytes) (start end_ : Z) (st : pstate) : Prop :=
  Synced src start end_ (lexP st) /\
  p_depth st =
    depthAfter 0 (slice src start (p_i st)) (contexts (slice src start end_)) /\
  start <= p_last st /\ p_last st <= p_i st.

(** What holds of the variables of the scanning loop of [buildStmt]
    before every iteration, in terms of the text of the segment. *)
Definition BSpec (seg : bytes) (st : bstate) : Prop :=
  Synced seg 0 (len seg) (lexB st) /\
  b_depth st = depthAfter 0 (slice seg 0 (b_i st)) (contexts seg) /\
  b_braceOpen st = orMinus1 (firstOpenFrom 0 (slice seg 0 (b_i st)) (contexts seg)) /\
  b_braceClose st =
    orMinus1 (firstCloseFrom 0 0 (slice seg 0 (b_i st)) (contexts seg)) /\
  (b_braceOpen st < 0 -> b_depth st = 0) /\
  (0 <= b_braceOpen st -> b_braceClose st < 0 -> 1 <= b_depth st).

(** A segment that ends with a semicolon in the Normal context, as the
    Splitter cuts them. *)
Definition EndsInNormalSemicolon (seg : bytes) : Prop :=
  1 <= len seg /\ at_ seg (len seg - 1) = ";"%byte /\
  nth_error (contexts seg) (Z.to_nat (len seg - 1)) = Some InNormal.

(** ** The keyword as the specification words it

    The first identifier-like token of the head after the leading white
    space and the leading comments, in lower case, with the surrounding
    double quotes stripped if the token is a quoted literal.  A quoted
    literal runs from its opening double quote to the closing one (a
    backslash keeps the byte that follows it); any other token is the
    longest run of identifier bytes: letters, digits, underscore, hyphen
    and dot. *)





Section ClaimedKeyword.
Context {U : Unicode}.


End ClaimedKeyword.

(** ** Inputs of the examples *)




(** An opening brace in a comment of each style and after an escaped
    double quote in a string. *)
Definition hashBraceSrc : bytes := B "a # {" ++ [nl] ++ B "b;".
Definition slashBraceSrc : bytes := B "a // {" ++ [nl] ++ B "b;".
Definition starBraceSrc : bytes := B "a /* { */ b;".
Definition escapedQuoteSrc : bytes :=
  B "a " ++ [dq; bsl; dq] ++ B "{" ++ [dq] ++ B " b;".

(** An opening brace in a string, then a semicolon. *)
Definition quotedBraceSrc : bytes := [dq] ++ B "{" ++ [dq] ++ B ";".
(** * Verification *)

(** ** Bytes and slices *)

Lemma beq_eq (a b : byte) : a == b = true -> a = b.
Proof. apply Byte.byte_dec_bl. Qed.

Lemma beq_refl (a : byte) : a == a = true.
Proof. apply Byte.byte_dec_lb; reflexivity. Qed.

Lemma beq_neq (a b : byte) : a == b = false -> a <> b.
Proof. intros H E; subst; rewrite beq_refl in H; discriminate. Qed.

Lemma neq_beq (a b : byte) : a <> b -> a == b = false.
Proof.
  intros H; destruct (a == b) eqn:E; [apply beq_eq in E; contradiction | reflexivity].
Qed.

Lemma len_nil {A : Type} : len (@nil A) = 0.
Proof. reflexivity. Qed.

Lemma len_cons {A : Type} (x : A) (l : list A) : len (x :: l) = len l + 1.
Proof. unfold len; simpl List.length; lia. Qed.

Lemma len_app {A : Type} (l1 l2 : list A) : len (l1 ++ l2) = len l1 + len l2.
Proof. unfold len; rewrite length_app; lia. Qed.

Lemma len_nonneg {A : Type} (l : list A) : 0 <= len l.
Proof. unfold len; lia. Qed.

Lemma len_zero {A : Type} (l : list A) : len l = 0 -> l = [].
Proof. destruct l; [reflexivity | rewrite len_cons; pose proof (len_nonneg l); lia]. Qed.

Lemma len_slice (s : bytes) (a b : Z) :
  0 <= a -> a <= b -> b <= len s -> len (slice s a b) = b - a.
Proof.
  unfold slice, len; intros Ha Hab Hb.
  rewrite length_firstn, length_skipn; lia.
Qed.

Lemma slice_empty (s : bytes) (a b : Z) : b <= a -> slice s a b = [].
Proof.
  unfold slice; intros H.
  replace (Z.to_nat (b - a)) with 0%nat by lia; reflexivity.
Qed.

Lemma slice_full (s : bytes) : slice s 0 (len s) = s.
Proof.
  unfold slice, len; simpl.
  rewrite Z.sub_0_r, Nat2Z.id; apply firstn_all.
Qed.

Lemma firstn_plus {A : Type} (m n : nat) (l : list A) :
  firstn (m + n) l = firstn m l ++ firstn n (skipn m l).
Proof.
  revert l; induction m as [|m IH]; intros [|x l]; simpl;
    try reflexivity.
  - rewrite firstn_nil; reflexivity.
  - rewrite IH; reflexivity.
Qed.

Lemma slice_app (s : bytes) (a b c : Z) :
  0 <= a -> a <= b -> b <= c ->
  slice s a b ++ slice s b c = slice s a c.
Proof.
  unfold slice; intros Ha Hab Hbc.
  replace (Z.to_nat (c - a)) with (Z.to_nat (b - a) + Z.to_nat (c - b))%nat by lia.
  rewrite firstn_plus, skipn_skipn.
  replace (Z.to_nat (b - a) + Z.to_nat a)%nat with (Z.to_nat b) by lia.
  reflexivity.
Qed.

Lemma at_slice (s : bytes) (a b i : Z) :
  0 <= a -> 0 <= i -> i < b - a ->
  at_ (slice s a b) i = at_ s (a + i).
Proof.
  unfold at_, slice; intros Ha Hi Hib.
  rewrite nth_firstn.
  replace (Z.to_nat i <? Z.to_nat (b - a))%nat with true
    by (symmetry; apply Nat.ltb_lt; lia).
  rewrite nth_skipn. f_equal; lia.
Qed.

Lemma slice_prefix_app (s t : bytes) (b : Z) :
  0 <= b -> b <= len s -> slice (s ++ t) 0 b = slice s 0 b.
Proof.
  unfold slice, len; intros H0 Hb; simpl.
  rewrite firstn_app.
  replace (Z.to_nat (b - 0) - List.length s)%nat with 0%nat by lia.
  simpl; apply app_nil_r.
Qed.

Lemma slice_succ (s : bytes) (a : Z) :
  0 <= a -> a < len s -> slice s a (a + 1) = [at_ s a].
Proof.
  unfold slice, at_, len; intros H0 Ha.
  replace (Z.to_nat (a + 1 - a)) with 1%nat by lia.
  remember (Z.to_nat a) as n eqn:En.
  assert (Hn : (n < List.length s)%nat) by lia.
  clear En H0 Ha. revert s Hn.
  induction n as [|n IH]; intros [|x s] Hn; simpl in *; try lia.
  - reflexivity.
  - apply IH; lia.
Qed.

Lemma rd_in (s : bytes) (i : Z) :
  0 <= i -> i < len s -> rd s i = Ok (at_ s i).
Proof.
  unfold rd; intros H0 Hi.
  replace (0 <=? i) with true by (symmetry; apply Z.leb_le; lia).
  replace (i <? len s) with true by (symmetry; apply Z.ltb_lt; lia).
  reflexivity.
Qed.

Lemma sl_in (s : bytes) (a b : Z) :
  0 <= a -> a <= b -> b <= len s -> sl s a b = Ok (slice s a b).
Proof.
  unfold sl; intros Ha Hab Hb.
  replace (0 <=? a) with true by (symmetry; apply Z.leb_le; lia).
  replace (a <=? b) with true by (symmetry; apply Z.leb_le; lia).
  replace (b <=? len s) with true by (symmetry; apply Z.leb_le; lia).
  reflexivity.
Qed.

Lemma sl_out (s : bytes) (a b : Z) : b < a -> sl s a b = Panic.
Proof.
  unfold sl; intros H.
  replace (a <=? b) with false by (symmetry; apply Z.leb_gt; lia).
  rewrite andb_false_r; reflexivity.
Qed.

(** ** Counting loops *)

Lemma countWhile_stop (cond : Z -> bool) (fuel : nat) (j : Z) :
  cond j = false -> countWhile cond fuel j = j.
Proof. intros H; destruct fuel; simpl; [reflexivity | rewrite H; reflexivity]. Qed.

Lemma countWhile_spec (cond : Z -> bool) (bound : Z) :
  (forall x, cond x = true -> x < bound) ->
  forall (fuel : nat) (j : Z),
    j <= bound -> (Z.to_nat (bound - j) <= fuel)%nat ->
    let r := countWhile cond fuel j in
    j <= r /\ r <= bound /\ cond r = false /\
    (forall x, j <= x -> x < r -> cond x = true).
Proof.
  intros Hb fuel; induction fuel as [|fuel IH]; intros j Hj Hf; simpl.
  - assert (j = bound) by lia; subst j.
    repeat split; try lia.
    destruct (cond bound) eqn:E; [apply Hb in E; lia | reflexivity].
  - destruct (cond j) eqn:E.
    + pose proof (Hb _ E) as Hlt.
      destruct (IH (j + 1)) as (H1 & H2 & H3 & H4); try lia.
      repeat split; try lia; try assumption.
      intros x Hx1 Hx2. destruct (Z.eq_dec x j) as [->|Hne]; [assumption|].
      apply H4; lia.
    + repeat split; try lia; assumption.
Qed.

Ltac break_if :=
  match goal with
  | |- context [if ?c then _ else _] => destruct c eqn:?
  end.

Lemma scanStep_lex (seg : bytes) (st : bstate) :
  lexB (scanStep seg st) = lexStep seg (len seg) (lexB st).
Proof.
  destruct st as [i depth ss ln str bo bc]; unfold scanStep, lexStep, lexB.
  cbn [b_i b_inSlashStar b_inLine b_inString].
  repeat break_if; cbn [b_i b_inSlashStar b_inLine b_inString]; reflexivity.
Qed.

Lemma lexStep_incr (s : bytes) (e : Z) (x : lex) :
  l_i x < e ->
  l_i x < l_i (lexStep s e x) /\ l_i (lexStep s e x) <= e.
Proof.
  destruct x as [i ss ln str]; unfold lexStep; cbn [l_i]; intros Hi.
  repeat break_if; cbn [l_i];
    repeat match goal with
           | H : _ && _ = true |- _ => apply andb_prop in H; destruct H
           | H : (_ <? _) = true |- _ => apply Z.ltb_lt in H
           end; lia.
Qed.

Lemma Run_mono (s : bytes) (e : Z) (x z : lex) :
  Run s e x z -> l_i x <= l_i z.
Proof.
  induction 1 as [x | x z Hi _ IH]; [lia|].
  pose proof (lexStep_incr s e x Hi); lia.
Qed.

Lemma Run_bound (s : bytes) (e : Z) (x z : lex) :
  Run s e x z -> l_i x <= e -> l_i z <= e.
Proof.
  induction 1 as [x | x z Hi _ IH]; [lia|].
  intros _; apply IH. pose proof (lexStep_incr s e x Hi); lia.
Qed.

Lemma Run_same (s : bytes) (e : Z) (x z : lex) :
  Run s e x z -> l_i z <= l_i x -> z = x.
Proof.
  intros H; destruct H as [x | x z Hi H]; [reflexivity|].
  intros Hle. apply Run_mono in H.
  pose proof (lexStep_incr s e x Hi); lia.
Qed.

Lemma Run_snoc (s : bytes) (e : Z) (x z : lex) :
  Run s e x z -> l_i z < e -> Run s e x (lexStep s e z).
Proof.
  induction 1 as [x | x z Hi _ IH]; intros Hz.
  - apply Run_step; [assumption | apply Run_refl].
  - apply Run_step; [assumption | apply IH; assumption].
Qed.

Lemma Run_trans (s : bytes) (e : Z) (x y z : lex) :
  Run s e x y -> Run s e y z -> Run s e x z.
Proof.
  induction 1 as [x | x y Hi _ IH]; intros Hz; [assumption|].
  apply Run_step; [assumption | apply IH; assumption].
Qed.

(** The scanner passes through the indices of a run in order. *)
Lemma Run_linear (s : bytes) (e : Z) (x y z : lex) :
  Run s e x y -> Run s e x z -> l_i y <= l_i z -> Run s e y z.
Proof.
  induction 1 as [x | x y Hi Hy IH]; intros Hz Hle; [assumption|].
  apply IH; [|assumption].
  inversion Hz as [x' | x' z' Hi' Hz']; subst; [|assumption].
  apply Run_mono in Hy. pose proof (lexStep_incr s e z Hi); lia.
Qed.

(** The first step of a run that goes further. *)
Lemma Run_next (s : bytes) (e : Z) (x z : lex) :
  Run s e x z -> l_i x < l_i z ->
  l_i x < e /\ Run s e (lexStep s e x) z.
Proof.
  intros H Hlt; inversion H as [x' | x' z' Hi Hz]; subst; [lia|].
  split; assumption.
Qed.

Lemma lexStep_shift (s : bytes) (e a b : Z) (x : lex) :
  0 <= a -> a <= l_i x -> l_i x + 1 < b -> b <= e ->
  lexStep (slice s a b) (b - a) (shift a x) = shift a (lexStep s e x).
Proof.
  destruct x as [i ss ln str]; unfold shift, lexStep; cbn [l_i l_inSlashStar l_inLine l_inString].
  intros Ha Hai Hib Hbe.
  rewrite (at_slice s a b (i - a)) by lia.
  replace (i - a + 1) with ((i + 1) - a) by lia.
  rewrite (at_slice s a b (i + 1 - a)) by lia.
  replace (a + (i - a)) with i by lia.
  replace (a + (i + 1 - a)) with (i + 1) by lia.
  replace (i + 1 - a <? b - a) with true by (symmetry; apply Z.ltb_lt; lia).
  replace (i + 1 <? e) with true by (symmetry; apply Z.ltb_lt; lia).
  repeat break_if; cbn [l_i l_inSlashStar l_inLine l_inString];
    f_equal; lia.
Qed.

(** A run that ends before [b] is a run of the scanner over the slice
    [s[a:b]]. *)
Lemma Run_shift (s : bytes) (e a b : Z) (x z : lex) :
  Run s e x z -> 0 <= a -> a <= l_i x -> l_i z < b -> b <= e ->
  Run (slice s a b) (b - a) (shift a x) (shift a z).
Proof.
  induction 1 as [x | x z Hi Hz IH]; intros Ha Hax Hzb Hbe.
  - apply Run_refl.
  - pose proof (Run_mono _ _ _ _ Hz) as Hm.
    pose proof (lexStep_incr s e x Hi) as [Hlt _].
    apply Run_step; [unfold shift; cbn [l_i]; lia|].
    rewrite (lexStep_shift s e a b x) by lia.
    apply IH; lia.
Qed.

Lemma lexStep_line (s : bytes) (e i : Z) :
  lexStep s e (InLine i) =
  if at_ s i == nl then Normal (i + 1) else InLine (i + 1).
Proof. unfold lexStep, InLine, Normal; destruct (at_ s i == nl); reflexivity. Qed.

Lemma lexStep_block (s : bytes) (e i : Z) :
  lexStep s e (InBlock i) =
  if (at_ s i == "*"%byte) && (i + 1 <? e) && (at_ s (i + 1) == "/"%byte)
  then Normal (i + 2) else InBlock (i + 1).
Proof. reflexivity. Qed.

Lemma lexStep_hash (s : bytes) (e i : Z) :
  at_ s i = "#"%byte -> lexStep s e (Normal i) = InLine (i + 1).
Proof. intros H; unfold lexStep, Normal, InLine; rewrite H; reflexivity. Qed.

Lemma lexStep_slashes (s : bytes) (e i : Z) :
  at_ s i = "/"%byte -> i + 1 < e -> at_ s (i + 1) = "/"%byte ->
  lexStep s e (Normal i) = InLine (i + 2).
Proof.
  intros H He H1; unfold lexStep, Normal, InLine; rewrite H, H1.
  replace (i + 1 <? e) with true by (symmetry; apply Z.ltb_lt; lia).
  reflexivity.
Qed.

Lemma lexStep_slashstar (s : bytes) (e i : Z) :
  at_ s i = "/"%byte -> i + 1 < e -> at_ s (i + 1) = "*"%byte ->
  lexStep s e (Normal i) = InBlock (i + 2).
Proof.
  intros H He H1; unfold lexStep, Normal, InBlock; rewrite H, H1.
  replace (i + 1 <? e) with true by (symmetry; apply Z.ltb_lt; lia).
  reflexivity.
Qed.

(** A byte that opens neither a comment nor a string leaves the scanner
    outside comments and strings. *)
Lemma lexStep_plain (s : bytes) (e i : Z) :
  at_ s i <> "/"%byte -> at_ s i <> "#"%byte -> at_ s i <> dq ->
  lexStep s e (Normal i) = Normal (i + 1).
Proof.
  intros H1 H2 H3; unfold lexStep, Normal.
  rewrite (neq_beq _ _ H1), (neq_beq _ _ H2), (neq_beq _ _ H3); reflexivity.
Qed.

Lemma isSpace_plain (c : byte) :
  isSpace c = true -> c <> "/"%byte /\ c <> "#"%byte /\ c <> dq.
Proof.
  unfold isSpace; intros H.
  repeat split; intros ->; vm_compute in H; discriminate.
Qed.

Lemma unicode_IsSpace_plain (c : byte) :
  unicode_IsSpace c = true -> c <> "/"%byte /\ c <> "#"%byte /\ c <> dq.
Proof.
  unfold unicode_IsSpace; intros H.
  repeat split; intros ->; vm_compute in H; discriminate.
Qed.

(** A line comment that the scanner leaves before [k] ends at a newline
    before [k]. *)
Lemma line_sync (s : bytes) (e k : Z) :
  forall (m : nat) (a : Z),
    (Z.to_nat (k - a) <= m)%nat ->
    Run s e (InLine a) (Normal k) ->
    exists j, a <= j /\ j < k /\ at_ s j = nl /\
              (forall x, a <= x -> x < j -> at_ s x <> nl) /\
              Run s e (Normal (j + 1)) (Normal k).
Proof.
  induction m as [|m IH]; intros a Hm HR.
  - pose proof (Run_mono _ _ _ _ HR) as Hle; cbn [l_i InLine Normal] in Hle.
    assert (Heq : Normal k = InLine a) by (apply (Run_same _ _ _ _ HR); cbn [l_i InLine Normal]; lia).
    discriminate.
  - assert (Hlt : a < k).
    { pose proof (Run_mono _ _ _ _ HR) as Hle; cbn [l_i InLine Normal] in Hle.
      destruct (Z.eq_dec a k) as [->|]; [|lia].
      assert (Heq : Normal k = InLine k) by (apply (Run_same _ _ _ _ HR); cbn [l_i InLine Normal]; lia).
      discriminate. }
    destruct (Run_next _ _ _ _ HR) as [Hae HR']; [cbn [l_i InLine Normal]; lia|].
    rewrite lexStep_line in HR'.
    destruct (at_ s a == nl) eqn:E.
    + exists a; repeat split; try lia; [apply beq_eq; assumption | assumption].
    + destruct (IH (a + 1)) as (j & H1 & H2 & H3 & H4 & H5); [lia | assumption |].
      exists j; repeat split; try lia; try assumption.
      intros x Hx1 Hx2. destruct (Z.eq_dec x a) as [->|]; [apply beq_neq; assumption|].
      apply H4; lia.
Qed.

(** A block comment that the scanner leaves before [k] is closed before
    [k]. *)
Lemma block_sync (s : bytes) (e k : Z) :
  forall (m : nat) (a : Z),
    (Z.to_nat (k - a) <= m)%nat ->
    Run s e (InBlock a) (Normal k) ->
    exists j, a <= j /\ j + 1 < k /\ j + 1 < e /\
              at_ s j = "*"%byte /\ at_ s (j + 1) = "/"%byte /\
              (forall x, a <= x -> x < j ->
                         (at_ s x == "*"%byte) && (at_ s (x + 1) == "/"%byte) = false) /\
              Run s e (Normal (j + 2)) (Normal k).
Proof.
  induction m as [|m IH]; intros a Hm HR.
  - pose proof (Run_mono _ _ _ _ HR) as Hle; cbn [l_i InBlock Normal] in Hle.
    assert (Heq : Normal k = InBlock a) by (apply (Run_same _ _ _ _ HR); cbn [l_i InBlock Normal]; lia).
    discriminate.
  - assert (Hlt : a < k).
    { pose proof (Run_mono _ _ _ _ HR) as Hle; cbn [l_i InBlock Normal] in Hle.
      destruct (Z.eq_dec a k) as [->|]; [|lia].
      assert (Heq : Normal k = InBlock k) by (apply (Run_same _ _ _ _ HR); cbn [l_i InBlock Normal]; lia).
      discriminate. }
    destruct (Run_next _ _ _ _ HR) as [Hae HR']; [cbn [l_i InBlock Normal]; lia|].
    rewrite lexStep_block in HR'.
    destruct ((at_ s a == "*"%byte) && (a + 1 <? e) && (at_ s (a + 1) == "/"%byte)) eqn:E.
    + apply andb_prop in E; destruct E as [E E3].
      apply andb_prop in E; destruct E as [E1 E2].
      apply Z.ltb_lt in E2.
      pose proof (Run_mono _ _ _ _ HR') as Hle; cbn [l_i Normal] in Hle.
      exists a; repeat split; try lia; try (apply beq_eq; assumption); assumption.
    + destruct (IH (a + 1)) as (j & H1 & H2 & H3 & H4 & H5 & H6 & H7); [lia | assumption |].
      exists j; repeat split; try lia; try assumption.
      intros x Hx1 Hx2. destruct (Z.eq_dec x a) as [->|]; [|apply H6; lia].
      replace (a + 1 <? e) with true in E by (symmetry; apply Z.ltb_lt; lia).
      rewrite andb_true_r in E; exact E.
Qed.

(** ** [firstIdent] on the head of a scanned statement *)

Arguments from : simpl never.
Arguments at_ : simpl never.
Arguments slice : simpl never.

Lemma from_at (s : bytes) (i : Z) :
  0 <= i -> i < len s -> from s i = at_ s i :: from s (i + 1).
Proof.
  unfold from, at_, len; intros H0 Hi.
  replace (Z.to_nat (i + 1)) with (S (Z.to_nat i)) by lia.
  remember (Z.to_nat i) as n eqn:En.
  assert (Hn : (n < List.length s)%nat) by lia.
  clear En H0 Hi. revert s Hn.
  induction n as [|n IH]; intros [|x s] Hn; simpl in *; try lia.
  - reflexivity.
  - apply IH; lia.
Qed.

Lemma from_end (s : bytes) (i : Z) : len s <= i -> from s i = [].
Proof. unfold from, len; intros H; apply skipn_all2; lia. Qed.

Lemma from_zero (s : bytes) : from s 0 = s.
Proof. reflexivity. Qed.

Lemma countWhile_first (cond : Z -> bool) :
  forall (fuel : nat) (a j : Z),
    a <= j -> (Z.to_nat (j - a) <= fuel)%nat ->
    (forall x, a <= x -> x < j -> cond x = true) ->
    cond j = false ->
    countWhile cond fuel a = j.
Proof.
  induction fuel as [|fuel IH]; intros a j Ha Hf Hall Hj.
  - simpl. lia.
  - simpl. destruct (Z.eq_dec a j) as [->|Hne].
    + rewrite Hj; reflexivity.
    + rewrite (Hall a) by lia. apply IH; try lia; try assumption.
      intros x Hx1 Hx2; apply Hall; lia.
Qed.

Lemma skip_line (s : bytes) :
  forall (m : nat) (a j : Z),
    (Z.to_nat (j - a) <= m)%nat -> 0 <= a -> a <= j -> j < len s ->
    (forall x, a <= x -> x < j -> at_ s x <> nl) -> at_ s j = nl ->
    skipTrivia LineC (from s a) = skipTrivia Lead (from s (j + 1)).
Proof.
  induction m as [|m IH]; intros a j Hm H0 Ha Hj Hall Hnl.
  - assert (a = j) by lia; subst a.
    rewrite (from_at s j) by lia. simpl. rewrite Hnl, beq_refl. reflexivity.
  - destruct (Z.eq_dec a j) as [->|Hne].
    + rewrite (from_at s j) by lia. simpl. rewrite Hnl, beq_refl. reflexivity.
    + rewrite (from_at s a) by lia. simpl.
      rewrite (neq_beq _ _ (Hall a ltac:(lia) ltac:(lia))).
      apply IH; try lia; try assumption.
      intros x Hx1 Hx2; apply Hall; lia.
Qed.

Lemma skipTrivia_block (c c' : byte) (s : bytes) :
  skipTrivia BlockC (c :: c' :: s) =
  if (c == "*"%byte) && (c' == "/"%byte) then skipTrivia Lead s
  else skipTrivia BlockC (c' :: s).
Proof. reflexivity. Qed.

Lemma skip_block (s : bytes) :
  forall (m : nat) (a j : Z),
    (Z.to_nat (j - a) <= m)%nat -> 0 <= a -> a <= j -> j + 1 < len s ->
    (forall x, a <= x -> x < j ->
               (at_ s x == "*"%byte) && (at_ s (x + 1) == "/"%byte) = false) ->
    at_ s j = "*"%byte -> at_ s (j + 1) = "/"%byte ->
    skipTrivia BlockC (from s a) = skipTrivia Lead (from s (j + 2)).
Proof.
  assert (Hend : forall j, 0 <= j -> j + 1 < len s ->
            at_ s j = "*"%byte -> at_ s (j + 1) = "/"%byte ->
            skipTrivia BlockC (from s j) = skipTrivia Lead (from s (j + 2))).
  { intros j H0 Hj H1 H2.
    rewrite (from_at s j), (from_at s (j + 1)) by lia.
    replace (j + 1 + 1) with (j + 2) by lia.
    rewrite skipTrivia_block, H1, H2. reflexivity. }
  induction m as [|m IH]; intros a j Hm H0 Ha Hj Hall H1 H2.
  - assert (a = j) by lia; subst a. apply Hend; assumption.
  - destruct (Z.eq_dec a j) as [->|Hne]; [apply Hend; assumption|].
    rewrite (from_at s a), (from_at s (a + 1)) by lia.
    rewrite skipTrivia_block, (Hall a) by lia.
    rewrite <- (from_at s (a + 1)) by lia.
    apply IH; try lia; try assumption.
    intros x Hx1 Hx2; apply Hall; lia.
Qed.

Lemma takeToken_count (s : bytes) :
  forall (fuel : nat) (a : Z),
    0 <= a -> a <= len s -> (Z.to_nat (len s - a) <= fuel)%nat ->
    let r := countWhile
               (fun i => (i <? len s) &&
                         negb (isSpace (at_ s i) || (at_ s i == "{"%byte) ||
                               (at_ s i == ";"%byte)))
               fuel a in
    a <= r /\ r <= len s /\ slice s a r = takeToken (from s a).
Proof.
  induction fuel as [|fuel IH]; intros a H0 Ha Hf; simpl.
  - assert (a = len s) by lia; subst a.
    rewrite from_end by lia. rewrite slice_empty by lia.
    repeat split; try lia.
  - destruct (a <? len s) eqn:E; simpl.
    + apply Z.ltb_lt in E.
      rewrite (from_at s a) by lia. simpl. unfold isDelim.
      destruct (isSpace (at_ s a) || (at_ s a == "{"%byte) || (at_ s a == ";"%byte)); simpl.
      * rewrite slice_empty by lia. repeat split; try lia.
      * destruct (IH (a + 1)) as (H1 & H2 & H3); try lia.
        repeat split; try lia.
        rewrite <- H3.
        rewrite <- (slice_app s a (a + 1)) by lia.
        rewrite slice_succ by lia. reflexivity.
    + apply Z.ltb_ge in E. assert (a = len s) by lia; subst a.
      rewrite from_end by lia. rewrite slice_empty by lia.
      repeat split; try lia.
Qed.

Lemma skipTrivia_lead (c : byte) (s : bytes) :
  skipTrivia Lead (c :: s) =
  if unicode_IsSpace c then skipTrivia Lead s
  else if c == "#"%byte then skipTrivia LineC s
  else if c == "/"%byte then
    match s with
    | c' :: s'' =>
        if c' == "/"%byte then skipTrivia LineC s''
        else if c' == "*"%byte then skipTrivia BlockC s''
        else c :: s
    | [] => c :: s
    end
  else c :: s.
Proof. reflexivity. Qed.

Lemma leadLoop_end (s : bytes) (fuel : nat) (i : Z) :
  len s <= i -> leadLoop s fuel i = Ok i.
Proof.
  intros H; destruct fuel; simpl;
    replace (i <? len s) with false by (symmetry; apply Z.ltb_ge; lia);
    reflexivity.
Qed.

(** On a head [seg[:k]] that the scanner leaves outside comments and
    strings, the first loop of [firstIdent] stays in step with the scanner:
    every comment it skips is closed inside the head, so its index never
    passes [k], and it stops where the leading trivia ends. *)
Lemma lead_sync (seg : bytes) (e k : Z) :
  0 <= k -> k <= len seg ->
  forall (fuel : nat) (i : Z),
    0 <= i -> Run seg e (Normal i) (Normal k) ->
    (Z.to_nat (k - i) <= fuel)%nat ->
    exists start,
      leadLoop (slice seg 0 k) fuel i = Ok start /\
      i <= start /\ start <= k /\
      skipTrivia Lead (from (slice seg 0 k) i) = from (slice seg 0 k) start.
Proof.
  intros Hk0 Hkl.
  set (head := slice seg 0 k).
  assert (Hlen : len head = k) by (unfold head; rewrite len_slice; lia).
  assert (Hat : forall j, 0 <= j -> j < k -> at_ head j = at_ seg j).
  { intros j H0 Hj; unfold head; rewrite at_slice by lia. f_equal. }
  assert (Hbase : forall fuel, exists start,
             leadLoop head fuel k = Ok start /\ k <= start /\ start <= k /\
             skipTrivia Lead (from head k) = from head start).
  { intros fuel; exists k. rewrite leadLoop_end by lia.
    rewrite from_end by lia. repeat split; try lia. }
  induction fuel as [|fuel IH]; intros i Hi0 HR Hf;
    pose proof (Run_mono _ _ _ _ HR) as Hik; cbn [l_i Normal] in Hik.
  - assert (i = k) by lia; subst i. apply Hbase.
  - destruct (Z.eq_dec i k) as [->|Hne]; [apply Hbase|].
    assert (Hlt : i < k) by lia.
    destruct (Run_next _ _ _ _ HR) as [Hie HR']; [cbn [l_i Normal]; lia|].
    cbn [l_i Normal] in Hie.
    assert (Hke : k <= e)
      by (apply (Run_bound _ _ _ _ HR); cbn [l_i Normal]; lia).
    cbn [leadLoop].
    replace (i <? len head) with true by (symmetry; apply Z.ltb_lt; lia).
    assert (Hfrom : from head i = at_ seg i :: from head (i + 1))
      by (rewrite from_at, Hat by lia; reflexivity).
    rewrite Hfrom.
    rewrite skipTrivia_lead.
    unfold leadStep. rewrite Hlen.
    rewrite (Hat i) by lia.
    destruct (unicode_IsSpace (at_ seg i)) eqn:Esp.
    { (* white space *)
      destruct (unicode_IsSpace_plain _ Esp) as (P1 & P2 & P3).
      rewrite lexStep_plain in HR' by assumption.
      destruct (IH (i + 1)) as (start & H1 & H2 & H3 & H4); try lia; try assumption.
      exists start; repeat split; try lia; assumption. }
    destruct (at_ seg i == "#"%byte) eqn:Ehash.
    { (* a comment from the hash to the end of the line *)
      apply beq_eq in Ehash.
      rewrite lexStep_hash in HR' by assumption.
      destruct (line_sync seg e k (Z.to_nat (k - (i + 1))) (i + 1)) as
        (j & J1 & J2 & J3 & J4 & J5); [lia | assumption |].
      rewrite (countWhile_first _ _ (i + 1) j); try lia.
      - destruct (IH (j + 1)) as (start & H1 & H2 & H3 & H4); try lia; try assumption.
        exists start; repeat split; try lia; try assumption.
        rewrite <- H4. apply (skip_line head (Z.to_nat (j - (i + 1)))); try lia.
        + intros x X1 X2; rewrite Hat by lia; apply J4; lia.
        + rewrite Hat by lia; assumption.
      - unfold fuelFrom; lia.
      - intros x X1 X2.
        replace (x <? k) with true by (symmetry; apply Z.ltb_lt; lia).
        rewrite Hat by lia. rewrite (neq_beq _ _ (J4 x X1 X2)). reflexivity.
      - rewrite Hat by lia. rewrite J3, beq_refl, andb_false_r. reflexivity. }
    destruct (at_ seg i == "/"%byte) eqn:Eslash; cbn [andb].
    2: { exists i. repeat split; try lia. symmetry; exact Hfrom. }
    apply beq_eq in Eslash.
    destruct (i + 1 <? k) eqn:Enext; cbn [andb].
    2: { (* the slash is the last byte of the head *)
      apply Z.ltb_ge in Enext.
      exists i. repeat split; try lia.
      rewrite Hfrom, (from_end head (i + 1)) by lia. reflexivity. }
    apply Z.ltb_lt in Enext.
    rewrite (from_at head (i + 1)) by lia.
    rewrite (Hat (i + 1)) by lia.
    destruct (at_ seg (i + 1) == "/"%byte) eqn:E2; cbn [orb].
    { (* a comment from two slashes to the end of the line *)
      apply beq_eq in E2.
      rewrite lexStep_slashes in HR' by (assumption || lia).
      destruct (line_sync seg e k (Z.to_nat (k - (i + 2))) (i + 2)) as
        (j & J1 & J2 & J3 & J4 & J5); [lia | assumption |].
      rewrite (countWhile_first _ _ (i + 2) j); try lia.
      - destruct (IH (j + 1)) as (start & H1 & H2 & H3 & H4); try lia; try assumption.
        exists start; repeat split; try lia; try assumption.
        rewrite <- H4. replace (i + 1 + 1) with (i + 2) by lia.
        apply (skip_line head (Z.to_nat (j - (i + 2)))); try lia.
        + intros x X1 X2; rewrite Hat by lia; apply J4; lia.
        + rewrite Hat by lia; assumption.
      - unfold fuelFrom; lia.
      - intros x X1 X2.
        replace (x <? k) with true by (symmetry; apply Z.ltb_lt; lia).
        rewrite Hat by lia. rewrite (neq_beq _ _ (J4 x X1 X2)). reflexivity.
      - rewrite Hat by lia. rewrite J3, beq_refl, andb_false_r. reflexivity. }
    destruct (at_ seg (i + 1) == "*"%byte) eqn:E3.
    2: { exists i. repeat split; try lia.
         rewrite Hfrom, (from_at head (i + 1)), (Hat (i + 1)) by lia.
         reflexivity. }
    (* a comment from slash-star to star-slash *)
    apply beq_eq in E3.
    rewrite lexStep_slashstar in HR' by (assumption || lia).
    destruct (block_sync seg e k (Z.to_nat (k - (i + 2))) (i + 2)) as
      (j & J1 & J2 & J2' & J3 & J4 & J5 & J6); [lia | assumption |].
    rewrite (countWhile_first _ _ (i + 2) j); try lia.
    + replace (j + 1 <? k) with true by (symmetry; apply Z.ltb_lt; lia).
      destruct (IH (j + 2)) as (start & H1 & H2 & H3 & H4); try lia; try assumption.
      exists start; repeat split; try lia; try assumption.
      rewrite <- H4. replace (i + 1 + 1) with (i + 2) by lia.
      apply (skip_block head (Z.to_nat (j - (i + 2)))); try lia.
      * intros x X1 X2; rewrite !Hat by lia; apply J5; lia.
      * rewrite Hat by lia; assumption.
      * rewrite Hat by lia; assumption.
    + unfold fuelFrom; lia.
    + intros x X1 X2.
      replace (x + 1 <? k) with true by (symmetry; apply Z.ltb_lt; lia).
      rewrite !Hat by lia. rewrite (J5 x X1 X2). reflexivity.
    + rewrite !Hat by lia. rewrite J3, J4, !beq_refl, andb_false_r. reflexivity.
Qed.

Section FirstIdentSync.
Context {U : Unicode}.

(** [firstIdent] does not panic on such a head and returns the token of
    the specification. *)
Lemma firstIdent_sync (seg : bytes) (e k : Z) :
  0 <= k -> k <= len seg ->
  Run seg e (Normal 0) (Normal k) ->
  firstIdent (slice seg 0 k) = Ok (identSpec (slice seg 0 k)).
Proof.
  intros Hk0 Hkl HR.
  assert (Hlen : len (slice seg 0 k) = k) by (rewrite len_slice; lia).
  destruct (lead_sync seg e k Hk0 Hkl (fuelFrom (slice seg 0 k) 0) 0)
    as (start & H1 & H2 & H3 & H4); try lia; try assumption.
  { unfold fuelFrom; rewrite Hlen; lia. }
  unfold firstIdent. rewrite H1. cbn [bind].
  destruct (takeToken_count (slice seg 0 k) (fuelFrom (slice seg 0 k) start) start)
    as (T1 & T2 & T3); try lia.
  { unfold fuelFrom; lia. }
  rewrite sl_in by lia. cbn [bind].
  unfold identSpec.
  change (skipTrivia Lead (slice seg 0 k))
    with (skipTrivia Lead (from (slice seg 0 k) 0)).
  rewrite H4, <- T3. reflexivity.
Qed.

End FirstIdentSync.

(** ** The scanning loop of [buildStmt] *)

Lemma at_cons_0 (x : byte) (s : bytes) : at_ (x :: s) 0 = x.
Proof. reflexivity. Qed.

Lemma at_cons_S (x : byte) (s : bytes) (j : Z) :
  0 <= j -> at_ (x :: s) (j + 1) = at_ s j.
Proof.
  intros H; unfold at_.
  replace (Z.to_nat (j + 1)) with (S (Z.to_nat j)) by lia. reflexivity.
Qed.

Lemma lastIndexFrom_spec (c : byte) (s : bytes) :
  forall (i found : Z),
    let r := lastIndexFrom c s i found in
    (r = found /\ forall j, 0 <= j -> j < len s -> at_ s j <> c) \/
    (i <= r /\ r < i + len s /\ at_ s (r - i) = c /\
     forall j, r - i < j -> j < len s -> at_ s j <> c).
Proof.
  induction s as [|x s IH]; intros i found; cbn [lastIndexFrom].
  - left; split; [reflexivity|]. intros j H0 Hj; rewrite len_nil in Hj; lia.
  - rewrite len_cons.
    destruct (IH (i + 1) (if x == c then i else found))
      as [[H1 H2] | (H1 & H2 & H3 & H4)].
    + destruct (x == c) eqn:E.
      * right. rewrite H1. apply beq_eq in E.
        replace (i - i) with 0 by lia. rewrite at_cons_0.
        repeat split; try lia; try assumption.
        { pose proof (len_nonneg s); lia. }
        intros j J1 J2. replace j with ((j - 1) + 1) by lia.
        rewrite at_cons_S by lia. apply H2; lia.
      * left. split; [assumption|].
        intros j J1 J2. destruct (Z.eq_dec j 0) as [->|].
        { rewrite at_cons_0; apply beq_neq; assumption. }
        replace j with ((j - 1) + 1) by lia.
        rewrite at_cons_S by lia. apply H2; lia.
    + right. repeat split; try lia.
      * replace (lastIndexFrom c s (i + 1) (if x == c then i else found) - i)
          with ((lastIndexFrom c s (i + 1) (if x == c then i else found) - (i + 1)) + 1) by lia.
        rewrite at_cons_S by lia. assumption.
      * intros j J1 J2. replace j with ((j - 1) + 1) by lia.
        rewrite at_cons_S by lia. apply H4; lia.
Qed.

(** [bytes.LastIndexByte] returns [-1] exactly when the byte does not
    occur, and the greatest index of the byte otherwise. *)
Lemma LastIndexByte_spec (s : bytes) (c : byte) :
  (LastIndexByte s c = -1 /\ forall j, 0 <= j -> j < len s -> at_ s j <> c) \/
  (0 <= LastIndexByte s c /\ LastIndexByte s c < len s /\
   at_ s (LastIndexByte s c) = c /\
   forall j, LastIndexByte s c < j -> j < len s -> at_ s j <> c).
Proof.
  unfold LastIndexByte.
  destruct (lastIndexFrom_spec c s 0 (-1)) as [[H1 H2] | (H1 & H2 & H3 & H4)].
  - left; split; assumption.
  - right. rewrite Z.sub_0_r in H3, H4. repeat split; try lia; assumption.
Qed.

Lemma LastIndexByte_last (s : bytes) (c : byte) :
  1 <= len s -> at_ s (len s - 1) = c -> LastIndexByte s c = len s - 1.
Proof.
  intros Hl Hc.
  destruct (LastIndexByte_spec s c) as [[H1 H2] | (H1 & H2 & H3 & H4)].
  - exfalso; apply (H2 (len s - 1)); try lia; assumption.
  - destruct (Z.eq_dec (LastIndexByte s c) (len s - 1)) as [|Hne]; [assumption|].
    exfalso; apply (H4 (len s - 1)); try lia; assumption.
Qed.

Lemma scanStep_depth (seg : bytes) (st : bstate) :
  0 <= b_depth st -> 0 <= b_depth (scanStep seg st).
Proof.
  destruct st as [i depth ss ln str bo bc]; unfold scanStep; cbn [b_depth].
  intros H. repeat break_if; cbn [b_depth];
    repeat match goal with
           | H : (_ >? _) = true |- _ => apply Z.gtb_lt in H
           end; lia.
Qed.

(** [braceOpen] is only ever set at an opening brace that the scanner
    meets outside comments and strings. *)
Lemma scanStep_braceOpen (seg : bytes) (st : bstate) :
  b_braceOpen (scanStep seg st) = b_braceOpen st \/
  (b_braceOpen st < 0 /\ b_braceOpen (scanStep seg st) = b_i st /\
   lexB st = Normal (b_i st) /\ at_ seg (b_i st) = "{"%byte).
Proof.
  destruct st as [i depth ss ln str bo bc]; unfold scanStep, lexB, Normal;
    cbn [b_i b_braceOpen b_inSlashStar b_inLine b_inString].
  repeat break_if; cbn [b_braceOpen]; try (left; reflexivity).
  right.
  repeat match goal with
         | H : _ && _ = true |- _ => apply andb_prop in H; destruct H
         | H : (_ <? _) = true |- _ => apply Z.ltb_lt in H
         | H : (_ == _) = true |- _ => apply beq_eq in H
         end.
  repeat split; try lia; assumption.
Qed.

Lemma scanStep_braceClose (seg : bytes) (st : bstate) :
  b_braceClose (scanStep seg st) = b_braceClose st \/
  (b_braceClose st < 0 /\ b_braceClose (scanStep seg st) = b_i st /\
   0 <= b_braceOpen st /\ at_ seg (b_i st) = "}"%byte).
Proof.
  destruct st as [i depth ss ln str bo bc]; unfold scanStep;
    cbn [b_i b_braceOpen b_braceClose].
  repeat break_if; cbn [b_braceClose]; try (left; reflexivity);
    right;
    repeat match goal with
           | H : _ && _ = true |- _ => apply andb_prop in H; destruct H
           | H : (_ <? _) = true |- _ => apply Z.ltb_lt in H
           | H : (_ >=? _) = true |- _ => apply Z.geb_le in H
           | H : (_ == _) = true |- _ => apply beq_eq in H
           end;
    repeat split; try lia; assumption.
Qed.

Lemma scanStep_inv (seg : bytes) (st : bstate) :
  ScanInv seg st -> b_i st < len seg -> ScanInv seg (scanStep seg st).
Proof.
  intros (I1 & I2 & I3 & I4 & I5 & I6) Hlt.
  assert (Hlex := scanStep_lex seg st).
  assert (Hi : b_i (scanStep seg st) = l_i (lexStep seg (len seg) (lexB st)))
    by (rewrite <- Hlex; reflexivity).
  destruct (lexStep_incr seg (len seg) (lexB st)) as [L1 L2]; [exact Hlt|].
  cbn [lexB l_i] in L1.
  assert (Hopen : b_braceOpen (scanStep seg st) = -1 \/
            (0 <= b_braceOpen (scanStep seg st) /\
             b_braceOpen (scanStep seg st) < b_i (scanStep seg st) /\
             Run seg (len seg) (Normal 0) (Normal (b_braceOpen (scanStep seg st))) /\
             at_ seg (b_braceOpen (scanStep seg st)) = "{"%byte)).
  { destruct (scanStep_braceOpen seg st) as [E | (E1 & E2 & E3 & E4)].
    - rewrite E. destruct I5 as [I5 | (A & B' & C & D)]; [left; assumption|].
      right; repeat split; try lia; assumption.
    - right. rewrite E2. repeat split; try lia; try assumption.
      rewrite <- E3; assumption. }
  repeat split; try lia.
  - rewrite Hlex. apply Run_snoc; assumption.
  - apply scanStep_depth; assumption.
  - exact Hopen.
  - destruct (scanStep_braceClose seg st) as [E | (E1 & E2 & E3 & E4)].
    + rewrite E. destruct I6 as [I6 | (A & B' & C & D)]; [left; assumption|].
      destruct (scanStep_braceOpen seg st) as [E' | (E1 & _)]; [|lia].
      right; rewrite E'. repeat split; try lia; assumption.
    + right. rewrite E2.
      destruct (scanStep_braceOpen seg st) as [E' | (E1' & _)]; [|lia].
      rewrite E'.
      destruct I5 as [I5 | (A & B' & C & D)]; [lia|].
      repeat split; try lia; assumption.
Qed.

Lemma scanLoop_inv (seg : bytes) :
  forall (fuel : nat) (st : bstate),
    ScanInv seg st -> (Z.to_nat (len seg - b_i st) <= fuel)%nat ->
    exists st', scanLoop seg fuel st = Ok st' /\ ScanInv seg st' /\
                b_i st' = len seg.
Proof.
  induction fuel as [|fuel IH]; intros st Hinv Hf; cbn [scanLoop].
  - destruct Hinv as (I1 & I2 & I').
    replace (b_i st <? len seg) with false by (symmetry; apply Z.ltb_ge; lia).
    exists st; repeat split; try lia; try assumption; apply I'.
  - destruct (b_i st <? len seg) eqn:E.
    + apply Z.ltb_lt in E.
      pose proof (scanStep_inv seg st Hinv E) as Hinv'.
      apply IH; [assumption|].
      assert (Hlex := scanStep_lex seg st).
      destruct (lexStep_incr seg (len seg) (lexB st)) as [L1 L2]; [exact E|].
      rewrite <- Hlex in L1. cbn [lexB l_i] in L1. lia.
    + apply Z.ltb_ge in E. destruct Hinv as (I1 & I2 & I').
      exists st; repeat split; try lia; try assumption; apply I'.
Qed.

Lemma ScanInv_init (seg : bytes) :
  ScanInv seg (mkS 0 0 false false false (-1) (-1)).
Proof.
  unfold ScanInv; cbn. pose proof (len_nonneg seg).
  repeat split; try lia; try (left; reflexivity).
Qed.

(** ** [buildStmt] on a segment of the splitter *)

Section BuildStmt.
Context {U : Unicode}.

(** On a segment that ends with a semicolon which the scanner meets
    outside comments and strings, [buildStmt] returns a statement: every
    slice is within bounds and [firstIdent] does not panic, provided the
    recursive call on the body returns. *)
Lemma buildStmt_ok (parse : Z -> Z -> outcome (list Node))
    (seg : bytes) (absStart : Z) (Q : list Node -> Prop) :
  Q [] ->
  1 <= len seg -> at_ seg (len seg - 1) = ";"%byte ->
  Run seg (len seg) (Normal 0) (Normal (len seg - 1)) ->
  (forall a b, 1 <= a -> a <= b -> b <= len seg - 2 ->
     exists nodes, parse (absStart + a) (absStart + b) = Ok nodes /\ Q nodes) ->
  exists s, buildStmt parse seg absStart = Ok s /\
            RawText s = seg /\ Modified s = false /\
            s_start s = absStart /\ s_end s = absStart + len seg /\
            Keyword s = keywordSpec (HeadRaw s) /\ Q (Body s).
Proof.
  intros HQ Hlen Hsemi HR Hparse.
  unfold buildStmt.
  destruct (scanLoop_inv seg (fuelFrom seg 0) (mkS 0 0 false false false (-1) (-1)))
    as (st & Hloop & Hinv & Hend).
  { apply ScanInv_init. }
  { unfold fuelFrom; cbn [b_i]; lia. }
  rewrite Hloop; cbn [bind].
  rewrite (LastIndexByte_last seg ";"%byte Hlen Hsemi).
  replace (len seg - 1 <? 0) with false by (symmetry; apply Z.ltb_ge; lia).
  destruct Hinv as (I1 & I2 & I3 & I4 & I5 & I6).
  destruct ((b_braceOpen st >=? 0) && (b_braceClose st >=? 0) &&
            (b_braceClose st >? b_braceOpen st)) eqn:Eblock.
  - (* a block statement *)
    apply andb_prop in Eblock; destruct Eblock as [Eb E3].
    apply andb_prop in Eb; destruct Eb as [E1 E2].
    apply Z.geb_le in E1, E2. apply Z.gtb_lt in E3.
    destruct I5 as [I5 | (O1 & O2 & O3 & O4)]; [lia|].
    destruct I6 as [I6 | (C1 & C2 & C3 & C4)]; [lia|].
    assert (Hclose : b_braceClose st <= len seg - 2).
    { destruct (Z.eq_dec (b_braceClose st) (len seg - 1)) as [Heq|]; [|lia].
      rewrite Heq, Hsemi in C4; discriminate. }
    rewrite sl_in by lia; cbn [bind].
    destruct (countWhile_spec
                (fun lbEnd => (lbEnd <? len seg) && isSpace (at_ seg lbEnd) &&
                              (lbEnd <? b_braceClose st))
                (b_braceClose st)) with
      (fuel := fuelFrom seg (b_braceOpen st + 1)) (j := b_braceOpen st + 1)
      as (L1 & L2 & _).
    { intros x Hx. apply andb_prop in Hx; destruct Hx as [_ Hx].
      apply Z.ltb_lt in Hx; exact Hx. }
    { lia. }
    { unfold fuelFrom; lia. }
    set (lbEnd := countWhile _ (fuelFrom seg (b_braceOpen st + 1)) (b_braceOpen st + 1)) in *.
    rewrite (sl_in seg (b_braceOpen st) lbEnd) by lia; cbn [bind].
    rewrite (sl_in seg lbEnd (b_braceClose st)) by lia; cbn [bind].
    destruct (countWhile_spec
                (fun rbEnd => (rbEnd <? len seg - 1) && isSpace (at_ seg rbEnd))
                (len seg - 1)) with
      (fuel := fuelFrom seg (b_braceClose st + 1)) (j := b_braceClose st + 1)
      as (R1 & R2 & _).
    { intros x Hx. apply andb_prop in Hx; destruct Hx as [Hx _].
      apply Z.ltb_lt in Hx; exact Hx. }
    { lia. }
    { unfold fuelFrom; lia. }
    set (rbEnd := countWhile _ (fuelFrom seg (b_braceClose st + 1)) (b_braceClose st + 1)) in *.
    assert (Hbody : exists body,
              (if len (slice seg lbEnd (b_braceClose st)) >? 0
               then match parse (absStart + lbEnd) (absStart + b_braceClose st) with
                    | Ok bodyNodes => Ok bodyNodes
                    | Err _ =>
                        Ok [RawNode (mkRaw (slice seg lbEnd (b_braceClose st))
                                       (absStart + lbEnd)
                                       (absStart + b_braceClose st))]
                    | Panic => Panic
                    | OutOfFuel => OutOfFuel
                    end
               else Ok []) = Ok body /\ Q body).
    { destruct (len (slice seg lbEnd (b_braceClose st)) >? 0).
      - destruct (Hparse lbEnd (b_braceClose st)) as (nodes & Hp & Hq); try lia.
        rewrite Hp. exists nodes; split; [reflexivity | assumption].
      - exists []; split; [reflexivity | assumption]. }
    destruct Hbody as (body & Hb & Hqb).
    rewrite Hb; cbn [bind].
    rewrite (sl_in seg (b_braceClose st) rbEnd) by lia; cbn [bind].
    rewrite (sl_in seg rbEnd (len seg - 1)) by lia; cbn [bind].
    rewrite (firstIdent_sync seg (len seg) (b_braceOpen st)) by (lia || assumption).
    cbn [bind].
    eexists; split; [reflexivity|].
    cbn [RawText Modified s_start s_end Keyword HeadRaw Body].
    repeat split; try reflexivity; assumption.
  - (* a simple statement *)
    rewrite sl_in by lia; cbn [bind].
    rewrite (firstIdent_sync seg (len seg) (len seg - 1)) by (lia || assumption).
    cbn [bind].
    eexists; split; [reflexivity|].
    cbn [RawText Modified s_start s_end Keyword HeadRaw Body].
    repeat split; try reflexivity; assumption.
Qed.

End BuildStmt.

(** ** The loop of [parseRange] *)

Ltac bool_hyps :=
  repeat match goal with
         | H : _ && _ = true |- _ => apply andb_prop in H; destruct H
         | H : (_ <? _) = true |- _ => apply Z.ltb_lt in H
         | H : (_ <? _) = false |- _ => apply Z.ltb_ge in H
         | H : (_ >? _) = true |- _ => apply Z.gtb_lt in H
         | H : (_ >? _) = false |- _ => rewrite Z.gtb_ltb in H
         | H : (_ =? _) = true |- _ => apply Z.eqb_eq in H
         | H : (_ =? _) = false |- _ => apply Z.eqb_neq in H
         | H : (_ == _) = true |- _ => apply beq_eq in H
         end.

Ltac byte_contra :=
  match goal with
  | H1 : ?x = ?a, H2 : ?x = ?b |- _ => rewrite H1 in H2; discriminate H2
  end.

Ltac step_cases :=
  repeat first
    [ progress cbn [bind]
    | match goal with
      | |- context [rd ?s ?j] => rewrite (rd_in s j) by lia
      end
    | break_if; bool_hyps ].

(** An iteration that is not at a statement boundary only moves the
    scanner: no node is emitted and [last] stays. *)
Lemma parseStep_plain (build : bytes -> Z -> outcome Stmt)
    (src : bytes) (end_ : Z) (st : pstate) :
  0 <= p_i st -> p_i st < end_ -> end_ <= len src ->
  ~ (lexP st = Normal (p_i st) /\ at_ src (p_i st) = ";"%byte /\ p_depth st = 0) ->
  exists st', parseStep build src end_ st = Ok st' /\
              lexP st' = lexStep src end_ (lexP st) /\
              p_nodes st' = p_nodes st /\ p_last st' = p_last st /\
              (0 <= p_depth st -> 0 <= p_depth st').
Proof.
  destruct st as [nodes i last depth ss ln str].
  unfold lexP, Normal; cbn [p_i p_depth p_nodes p_last p_inSlashStar p_inLine p_inString].
  intros H0 Hi He Hnb.
  unfold parseStep, lexStep; cbv beta zeta.
  rewrite (rd_in src i) by lia; cbn [bind].
  destruct ln.
  { step_cases; eexists; (split; [reflexivity|]); repeat split; cbn; lia. }
  destruct ss.
  { step_cases; eexists; (split; [reflexivity|]); repeat split; cbn; lia. }
  destruct str.
  { step_cases; eexists; (split; [reflexivity|]); repeat split; cbn;
      solve [lia | byte_contra]. }
  destruct ((at_ src i == ";"%byte) && (depth =? 0)) eqn:Esemi.
  { exfalso; apply Hnb. bool_hyps. repeat split; assumption. }
  destruct ((at_ src i == "/"%byte) && (i + 1 <? end_)) eqn:Eslash.
  - bool_hyps. rewrite (rd_in src (i + 1)) by lia; cbn [bind].
    destruct (at_ src (i + 1) == "*"%byte) eqn:E1; cbn [bind andb].
    { eexists; (split; [reflexivity|]); repeat split; cbn; lia. }
    destruct (at_ src (i + 1) == "/"%byte) eqn:E2; cbn [bind andb].
    { eexists; (split; [reflexivity|]); repeat split; cbn; lia. }
    repeat break_if; bool_hyps;
      eexists; (split; [reflexivity|]); repeat split; cbn; lia.
  - cbn [bind andb].
    repeat break_if; bool_hyps;
      eexists; (split; [reflexivity|]); repeat split; cbn; lia.
Qed.

(** [findStmtStart] skips the spaces that follow [last] and nothing else. *)
Lemma findStmtStartLoop_spec (src : bytes) (pos : Z) :
  forall (fuel : nat) (i : Z),
    0 <= i -> i <= pos -> pos <= len src ->
    (Z.to_nat (pos - i) <= fuel)%nat ->
    exists k, findStmtStartLoop src pos fuel i = Ok k /\
              i <= k /\ k <= pos /\
              (forall j, i <= j -> j < k -> isSpace (at_ src j) = true) /\
              (k < pos -> isSpace (at_ src k) = false).
Proof.
  induction fuel as [|fuel IH]; intros i H0 Hi Hp Hf; cbn [findStmtStartLoop].
  - replace (i <? pos) with false by (symmetry; apply Z.ltb_ge; lia).
    exists i; repeat split; try lia.
  - destruct (i <? pos) eqn:E.
    + apply Z.ltb_lt in E. rewrite rd_in by lia; cbn [bind].
      destruct (isSpace (at_ src i)) eqn:Esp.
      * destruct (IH (i + 1)) as (k & K1 & K2 & K3 & K4 & K5); try lia.
        exists k; repeat split; try lia; try assumption.
        intros j J1 J2. destruct (Z.eq_dec j i) as [->|]; [assumption|].
        apply K4; lia.
      * exists i; repeat split; try lia. intros _; assumption.
    + apply Z.ltb_ge in E. exists i; repeat split; try lia.
Qed.

Lemma findStmtStart_spec (src : bytes) (last pos : Z) :
  0 <= last -> last <= pos -> pos <= len src ->
  exists k, findStmtStart src last pos = Ok k /\
            last <= k /\ k <= pos /\
            (forall j, last <= j -> j < k -> isSpace (at_ src j) = true) /\
            (k < pos -> isSpace (at_ src k) = false).
Proof.
  intros H0 Hl Hp. unfold findStmtStart.
  apply findStmtStartLoop_spec; lia.
Qed.

(** The scanner steps over spaces without leaving the normal context. *)
Lemma Run_spaces (s : bytes) (e : Z) :
  forall (m : nat) (a k : Z),
    (Z.to_nat (k - a) <= m)%nat -> a <= k -> k <= e ->
    (forall j, a <= j -> j < k -> isSpace (at_ s j) = true) ->
    Run s e (Normal a) (Normal k).
Proof.
  induction m as [|m IH]; intros a k Hm Ha Hk Hsp.
  - assert (a = k) by lia; subst; apply Run_refl.
  - destruct (Z.eq_dec a k) as [->|Hne]; [apply Run_refl|].
    apply Run_step; [cbn [l_i Normal]; lia|].
    destruct (isSpace_plain _ (Hsp a ltac:(lia) ltac:(lia))) as (P1 & P2 & P3).
    rewrite lexStep_plain by assumption.
    apply IH; try lia. intros j J1 J2; apply Hsp; lia.
Qed.

(** The iteration at a statement boundary: a semicolon outside comments
    and strings at depth 0.  The statement starts at the first byte after
    [last] that is not a space; the spaces before it, if any, become a
    [Raw] node; the segment up to the semicolon is handed to [build], and
    an error of [build] is absorbed into a [Raw] node over the segment. *)
Lemma parseStep_boundary (build : bytes -> Z -> outcome Stmt)
    (src : bytes) (end_ : Z) (st : pstate) :
  0 <= p_last st -> p_last st <= p_i st -> p_i st < end_ -> end_ <= len src ->
  lexP st = Normal (p_i st) -> at_ src (p_i st) = ";"%byte -> p_depth st = 0 ->
  exists k,
    findStmtStart src (p_last st) (p_i st) = Ok k /\
    p_last st <= k /\ k <= p_i st /\
    (forall j, p_last st <= j -> j < k -> isSpace (at_ src j) = true) /\
    (k < p_i st -> isSpace (at_ src k) = false) /\
    parseStep build src end_ st =
    let nodes0 :=
      p_nodes st ++
      (if k >? p_last st
       then [RawNode (mkRaw (slice src (p_last st) k) (p_last st) k)]
       else []) in
    match build (slice src k (p_i st + 1)) k with
    | Ok s =>
        Ok (mkP (nodes0 ++ [StmtNode s]) (p_i st + 1) (p_i st + 1) 0
              false false false)
    | Err _ =>
        Ok (mkP (nodes0 ++ [RawNode (mkRaw (slice src k (p_i st + 1)) k (p_i st + 1))])
              (p_i st + 1) (p_i st + 1) 0 false false false)
    | Panic => Panic
    | OutOfFuel => OutOfFuel
    end.
Proof.
  destruct st as [nodes i last depth ss ln str].
  unfold lexP, Normal; cbn [p_i p_depth p_nodes p_last p_inSlashStar p_inLine p_inString].
  intros H0 Hl Hi He Hlex Hc Hd.
  injection Hlex as -> -> ->. subst depth.
  destruct (findStmtStart_spec src last i) as (k & K1 & K2 & K3 & K4 & K5); try lia.
  exists k; repeat split; try assumption.
  unfold parseStep.
  rewrite (rd_in src i) by lia; cbn [bind].
  rewrite Hc.
  replace (";"%byte == "/"%byte) with false by reflexivity.
  cbn [andb bind].
  replace (";"%byte == "#"%byte) with false by reflexivity.
  replace (";"%byte == dq) with false by reflexivity.
  replace (";"%byte == "{"%byte) with false by reflexivity.
  replace (";"%byte == "}"%byte) with false by reflexivity.
  replace (";"%byte == ";"%byte) with true by reflexivity.
  cbn [andb Z.eqb].
  rewrite K1; cbn [bind].
  destruct (k >? last) eqn:E.
  - rewrite sl_in by lia; cbn [bind].
    rewrite sl_in by lia; cbn [bind].
    destruct (build (slice src k (i + 1)) k); reflexivity.
  - cbn [bind]. rewrite sl_in by lia; cbn [bind].
    rewrite app_nil_r.
    destruct (build (slice src k (i + 1)) k); reflexivity.
Qed.

(** ** The writer on unmodified nodes *)

Lemma writeNodes_app (l1 l2 : list Node) (buf : bytes) :
  writeNodes (l1 ++ l2) buf = writeNodes l2 (writeNodes l1 buf).
Proof. unfold writeNodes; apply fold_left_app. Qed.

Lemma writeNodes_cons (n : Node) (l : list Node) (buf : bytes) :
  writeNodes (n :: l) buf = writeNodes l (writeTo n buf).
Proof. reflexivity. Qed.

Lemma writeTo_raw (r : Raw) (buf : bytes) :
  writeTo (RawNode r) buf = buf ++ Text r.
Proof. reflexivity. Qed.

Lemma writeTo_unmodified (s : Stmt) (buf : bytes) :
  Modified s = false -> RawText s <> [] ->
  writeTo (StmtNode s) buf = buf ++ RawText s.
Proof.
  intros Hm Hr. cbn [writeTo]. rewrite Hm.
  replace (len (RawText s) =? 0) with false; [reflexivity|].
  symmetry; apply Z.eqb_neq. intros H; apply Hr, len_zero, H.
Qed.

Lemma everyStmt_stmt (P : Stmt -> Prop) (s : Stmt) :
  everyStmt P (StmtNode s) <-> P s /\ Forall (everyStmt P) (Body s).
Proof.
  cbn [everyStmt].
  assert (H : forall l,
            (fix every (l : list Node) : Prop :=
               match l with
               | [] => True
               | x :: l' => everyStmt P x /\ every l'
               end) l <-> Forall (everyStmt P) l).
  { induction l as [|x l IH].
    - split; intros; [constructor | exact I].
    - split.
      + intros [H1 H2]; constructor; [assumption | apply IH; assumption].
      + intros H; inversion H; subst; split; [assumption | apply IH; assumption]. }
  rewrite H; reflexivity.
Qed.

Lemma boundary_dec (src : bytes) (st : pstate) :
  {lexP st = Normal (p_i st) /\ at_ src (p_i st) = ";"%byte /\ p_depth st = 0} +
  {~ (lexP st = Normal (p_i st) /\ at_ src (p_i st) = ";"%byte /\ p_depth st = 0)}.
Proof.
  destruct st as [nodes i last depth ss ln str]; unfold lexP, Normal;
    cbn [p_i p_depth p_inSlashStar p_inLine p_inString].
  destruct (Z.eq_dec depth 0); [|right; intros (_ & _ & H); contradiction].
  destruct (Byte.byte_eq_dec (at_ src i) ";"%byte);
    [|right; intros (_ & H & _); contradiction].
  destruct ss; [right; intros (H & _); discriminate|].
  destruct ln; [right; intros (H & _); discriminate|].
  destruct str; [right; intros (H & _); discriminate|].
  left; repeat split; assumption.
Qed.

(** One iteration of the loop of [parseRange] keeps the invariant and
    moves the index forward. *)
Lemma parseStep_inv (P : Stmt -> Prop) (build : bytes -> Z -> outcome Stmt)
    (src : bytes) (start end_ : Z) (st : pstate) :
  BuildOk P build src start end_ ->
  PInv P src start end_ st -> p_i st < end_ ->
  exists st', parseStep build src end_ st = Ok st' /\
              PInv P src start end_ st' /\ p_i st < p_i st'.
Proof.
  intros Hbuild (I1 & I2 & I3 & I4 & I5 & I6 & I7 & I8 & I9) Hlt.
  destruct (boundary_dec src st) as [(B1 & B2 & B3) | Hnb].
  - (* a statement boundary *)
    destruct (parseStep_boundary build src end_ st) as
      (k & K1 & K2 & K3 & K4 & K5 & K6); try lia; try assumption.
    rewrite K6; cbv zeta.
    assert (HRk : Run src end_ (Normal k) (Normal (p_i st))).
    { apply (Run_linear src end_ (Normal (p_last st))).
      - apply (Run_spaces src end_ (Z.to_nat (k - p_last st))); try lia; assumption.
      - rewrite <- B1; assumption.
      - cbn [l_i Normal]; lia. }
    assert (Hseg : slice src k (p_i st + 1) <> []).
    { intros Hnil.
      pose proof (len_slice src k (p_i st + 1) ltac:(lia) ltac:(lia) ltac:(lia)) as Hl.
      rewrite Hnil in Hl. change (len (@nil byte)) with 0 in Hl. lia. }
    assert (Hnode : exists n,
              match build (slice src k (p_i st + 1)) k with
              | Ok s => Ok [StmtNode s]
              | Err _ =>
                  Ok [RawNode (mkRaw (slice src k (p_i st + 1)) k (p_i st + 1))]
              | Panic => Panic
              | OutOfFuel => OutOfFuel
              end = Ok [n] /\
              everyStmt P n /\
              forall buf, writeTo n buf = buf ++ slice src k (p_i st + 1)).
    { destruct (Hbuild k (p_i st + 1)) as [(s & S1 & S2 & S3 & S4) | (e & S1)];
        try lia;
        try (replace (p_i st + 1 - 1) with (p_i st) by lia; assumption);
        rewrite S1; eexists; (split; [reflexivity|]).
      - split; [assumption|]. intros buf.
        rewrite writeTo_unmodified by (rewrite ?S2; assumption).
        rewrite S2; reflexivity.
      - split; [exact I|]. intros buf; reflexivity. }
    destruct Hnode as (n & N1 & N2 & N3).
    exists (mkP ((p_nodes st ++
                  (if k >? p_last st
                   then [RawNode (mkRaw (slice src (p_last st) k) (p_last st) k)]
                   else [])) ++ [n])
              (p_i st + 1) (p_i st + 1) 0 false false false).
    split.
    { destruct (build (slice src k (p_i st + 1)) k);
        try discriminate N1; injection N1 as <-; reflexivity. }
    split; [|cbn [p_i]; lia].
    unfold PInv; cbn [p_i p_last p_depth p_nodes lexP p_inSlashStar p_inLine p_inString].
    repeat split; try lia.
    + apply Run_refl.
    + rewrite !writeNodes_app, I8.
      destruct (k >? p_last st) eqn:E.
      * cbn [writeNodes fold_left]. rewrite writeTo_raw; cbn [Text].
        rewrite N3, !slice_app by lia. reflexivity.
      * assert (k = p_last st) by lia; subst k.
        cbn [writeNodes fold_left].
        rewrite N3, !slice_app by lia. reflexivity.
    + apply Forall_app; split; [|constructor; [assumption | constructor]].
      apply Forall_app; split; [assumption|].
      destruct (k >? p_last st); constructor; [exact I | constructor].
  - (* no boundary *)
    destruct (parseStep_plain build src end_ st) as
      (st' & T1 & T2 & T3 & T4 & T5); try lia; try assumption.
    destruct (lexStep_incr src end_ (lexP st)) as [L1 L2]; [exact Hlt|].
    rewrite <- T2 in L1, L2. cbn [lexP l_i] in L1, L2.
    exists st'; split; [assumption|]. split; [|lia].
    unfold PInv. rewrite T3, T4, T2.
    repeat split; try lia; try assumption.
    apply Run_snoc; assumption.
Qed.

Lemma parseLoop_inv (P : Stmt -> Prop) (build : bytes -> Z -> outcome Stmt)
    (src : bytes) (start end_ : Z) :
  BuildOk P build src start end_ ->
  forall (fuel : nat) (st : pstate),
    PInv P src start end_ st ->
    (Z.to_nat (end_ - p_i st) <= fuel)%nat ->
    exists st', parseLoop build src end_ fuel st = Ok st' /\
                PInv P src start end_ st' /\ p_i st' = end_.
Proof.
  intros Hbuild; induction fuel as [|fuel IH]; intros st Hinv Hf;
    cbn [parseLoop].
  - assert (Hle : p_i st <= end_) by apply Hinv.
    replace (p_i st <? end_) with false by (symmetry; apply Z.ltb_ge; lia).
    exists st; split; [reflexivity|]; split; [assumption | lia].
  - destruct (p_i st <? end_) eqn:E.
    + apply Z.ltb_lt in E.
      destruct (parseStep_inv P build src start end_ st Hbuild Hinv E)
        as (st1 & S1 & S2 & S3).
      rewrite S1; cbn [bind]. apply IH; [assumption | lia].
    + apply Z.ltb_ge in E. assert (Hle : p_i st <= end_) by apply Hinv.
      exists st; split; [reflexivity|]; split; [assumption | lia].
Qed.

(** ** [parseRange] and [Parse] *)

Section ParseRange.
Context {U : Unicode}.

Lemma buildStmt_BuildOk (parse : Z -> Z -> outcome (list Node))
    (src : bytes) (start end_ : Z) :
  0 <= start -> end_ <= len src ->
  (forall a b, start < a -> a <= b -> b < end_ ->
     exists nodes, parse a b = Ok nodes /\ Forall (everyStmt Parsed) nodes) ->
  BuildOk Parsed (buildStmt parse) src start end_.
Proof.
  intros H0 He Hparse a b Ha Hab Hb Hsemi HR.
  assert (Hlen : len (slice src a b) = b - a) by (apply len_slice; lia).
  destruct (buildStmt_ok parse (slice src a b) a (Forall (everyStmt Parsed)))
    as (s & S1 & S2 & S3 & S4 & S5 & S6 & S7).
  - constructor.
  - lia.
  - rewrite Hlen, at_slice by lia. rewrite <- Hsemi; f_equal; lia.
  - rewrite Hlen.
    pose proof (Run_shift src end_ a b _ _ HR) as Hs.
    unfold shift in Hs; cbn [l_i Normal l_inSlashStar l_inLine l_inString] in Hs.
    replace (a - a) with 0 in Hs by lia.
    replace (b - 1 - a) with (b - a - 1) in Hs by lia.
    apply Hs; lia.
  - intros a' b' A1 A2 A3. apply Hparse; lia.
  - left.
    exists s; split; [assumption|]; split; [assumption|]; split; [assumption|].
    apply everyStmt_stmt; split; [|assumption].
    unfold Parsed; rewrite S2, S4, S5.
    split; [assumption|]. split; [|split; [lia | assumption]].
    intros Hnil. rewrite Hnil in Hlen. change (len (@nil byte)) with 0 in Hlen. lia.
Qed.

(** With fuel beyond the length of the range, [parseRange] returns: no
    index or slice is out of range and [firstIdent] does not panic.  The
    nodes serialize to the range and every statement is as parsed. *)
Lemma parseRange_ok :
  forall (fuel : nat) (src : bytes) (start end_ : Z),
    0 <= start -> start <= end_ -> end_ <= len src ->
    end_ - start < Z.of_nat fuel ->
    exists nodes, parseRange fuel src start end_ = Ok nodes /\
                  writeNodes nodes [] = slice src start end_ /\
                  Forall (everyStmt Parsed) nodes.
Proof.
  induction fuel as [|fuel IH]; intros src start end_ H0 Hse He Hf; [lia|].
  cbn [parseRange].
  assert (Hbuild : BuildOk Parsed (buildStmt (parseRange fuel src)) src start end_).
  { apply buildStmt_BuildOk; try lia.
    intros a b A1 A2 A3. destruct (IH src a b) as (nodes & N1 & _ & N3); try lia.
    exists nodes; split; assumption. }
  destruct (parseLoop_inv Parsed _ src start end_ Hbuild
              (Z.to_nat (end_ - start)) (mkP [] start start 0 false false false))
    as (st & L1 & L2 & L3).
  { unfold PInv; cbn [p_i p_last p_depth p_nodes lexP p_inSlashStar p_inLine p_inString].
    repeat split; try lia.
    - apply Run_refl.
    - rewrite slice_empty by lia; reflexivity.
    - constructor. }
  { cbn [p_i]; lia. }
  rewrite L1; cbn [bind].
  destruct L2 as (I1 & I2 & I3 & I4 & I5 & I6 & I7 & I8 & I9).
  destruct (p_last st <? end_) eqn:E.
  - apply Z.ltb_lt in E. rewrite sl_in by lia; cbn [bind].
    eexists; split; [reflexivity|]. split.
    + rewrite writeNodes_app, I8. cbn [writeNodes fold_left].
      rewrite writeTo_raw; cbn [Text]. apply slice_app; lia.
    + apply Forall_app; split; [assumption|].
      constructor; [exact I | constructor].
  - apply Z.ltb_ge in E. assert (p_last st = end_) by lia.
    eexists; split; [reflexivity|]. split; [|assumption].
    rewrite I8; f_equal; assumption.
Qed.

(** [Parse] returns a file on every input, and the file serializes to the
    input. *)
Lemma Parse_ok (src : bytes) :
  exists nodes, Parse src = Ok (mkFile nodes src) /\
                writeNodes nodes [] = src /\
                Forall (everyStmt Parsed) nodes.
Proof.
  destruct (parseRange_ok (S (List.length src)) src 0 (len src))
    as (nodes & N1 & N2 & N3); try (unfold len; lia).
  exists nodes. unfold Parse. rewrite N1; cbn [bind].
  rewrite slice_full in N2. repeat split; assumption.
Qed.

End ParseRange.

(** ** The writer on regenerated statements *)

Lemma writeLines_app (lines : list bytes) :
  forall buf, writeLines buf lines = buf ++ writeLines [] lines.
Proof.
  induction lines as [|ln [|ln' rest] IH]; intros buf.
  - cbn; rewrite app_nil_r; reflexivity.
  - cbn [writeLines]. destruct (0 <? len ln); cbn [app].
    + rewrite <- app_assoc. reflexivity.
    + rewrite app_nil_r; reflexivity.
  - change (writeLines buf (ln :: ln' :: rest))
      with (writeLines (((buf ++ B "  ") ++ ln) ++ [nl]) (ln' :: rest)).
    change (writeLines [] (ln :: ln' :: rest))
      with (writeLines ((([] ++ B "  ") ++ ln) ++ [nl]) (ln' :: rest)).
    rewrite (IH (((buf ++ B "  ") ++ ln) ++ [nl])).
    rewrite (IH ((([] ++ B "  ") ++ ln) ++ [nl])).
    cbn [app]. rewrite <- !app_assoc. reflexivity.
Qed.

Lemma Split_cons (s : bytes) : exists ln lns, Split s = ln :: lns.
Proof.
  induction s as [|c s (ln & lns & IH)]; cbn [Split].
  - eexists; eexists; reflexivity.
  - destruct (c == nl); [eexists; eexists; reflexivity|].
    rewrite IH; eexists; eexists; reflexivity.
Qed.

(** The loop over the lines of a body node writes the node with every
    line indented. *)
Lemma writeLines_indent (s : bytes) :
  writeLines [] (Split s) = indentFrom true s /\
  (forall ln lns, Split s = ln :: lns ->
     match lns with
     | [] => ln
     | _ :: _ => ln ++ [nl] ++ writeLines [] lns
     end = indentFrom false s).
Proof.
  induction s as [|c s [IH1 IH2]].
  - split; [reflexivity|].
    intros ln lns H; cbn in H; injection H as <- <-; reflexivity.
  - destruct (Split_cons s) as (ln0 & lns0 & Hs).
    cbn [Split indentFrom]. rewrite Hs.
    destruct (c == nl) eqn:E.
    + apply beq_eq in E; subst c. split.
      * change (writeLines [] ([] :: ln0 :: lns0))
          with (writeLines ((([] ++ B "  ") ++ []) ++ [nl]) (ln0 :: lns0)).
        rewrite writeLines_app, <- Hs, IH1. reflexivity.
      * intros ln lns H; injection H as <- <-.
        rewrite <- Hs, IH1. reflexivity.
    + specialize (IH2 ln0 lns0 Hs). split.
      * destruct lns0 as [|ln1 lns1].
        -- cbn [writeLines]. rewrite len_cons.
           replace (0 <? len ln0 + 1) with true
             by (symmetry; apply Z.ltb_lt; pose proof (len_nonneg ln0); lia).
           rewrite <- IH2. reflexivity.
        -- change (writeLines [] ((c :: ln0) :: ln1 :: lns1))
             with (writeLines ((([] ++ B "  ") ++ c :: ln0) ++ [nl]) (ln1 :: lns1)).
           rewrite writeLines_app, <- IH2.
           cbn [app]. rewrite <- !app_assoc. reflexivity.
      * intros ln lns H; injection H as <- <-.
        rewrite <- IH2. destruct lns0; reflexivity.
Qed.

Lemma writeBody_text (body : list Node) :
  forall buf,
    fold_left (fun buf n => writeLines buf (Split (writeTo n []))) body buf =
    buf ++ bodyText body.
Proof.
  unfold bodyText.
  induction body as [|n body IH]; intros buf; cbn [fold_left map List.concat].
  - rewrite app_nil_r; reflexivity.
  - rewrite IH, writeLines_app.
    destruct (writeLines_indent (writeTo n [])) as [-> _].
    unfold indent. rewrite <- app_assoc. reflexivity.
Qed.

Lemma lastByte_app (buf t : bytes) :
  t <> [] -> lastByte (buf ++ t) = lastByte t.
Proof.
  unfold lastByte; intros Ht.
  induction buf as [|x buf IH]; [reflexivity|].
  cbn [app]. destruct (buf ++ t) eqn:E.
  - destruct buf; [cbn in E; contradiction | discriminate].
  - exact IH.
Qed.

Lemma len_app_cons (a : bytes) (c : byte) (t : bytes) :
  (len (a ++ c :: t) =? 0) = false.
Proof.
  apply Z.eqb_neq. rewrite len_app, len_cons.
  pose proof (len_nonneg a); pose proof (len_nonneg t); lia.
Qed.

(** A modified block statement is written as [regenBlock] describes,
    whatever the buffer holds. *)
Lemma writeTo_block (s : Stmt) (buf : bytes) :
  Modified s = true -> HasBlock s = true ->
  writeTo (StmtNode s) buf = buf ++ regenBlock s.
Proof.
  intros Hm Hb. cbn [writeTo]. rewrite Hm, Hb. cbn [negb andb].
  unfold regenBlock. fold (blockHead s).
  destruct (Body s) as [|n body] eqn:Ebody.
  - change (0 <? len (@nil Node)) with false. cbn [app].
    rewrite <- !app_assoc. reflexivity.
  - replace (0 <? len (n :: body)) with true
      by (symmetry; apply Z.ltb_lt; rewrite len_cons; pose proof (len_nonneg body); lia).
    rewrite writeBody_text.
    set (text := bodyText (n :: body)).
    replace ((((buf ++ blockHead s) ++ B " {") ++ [nl]) ++ text)
      with ((buf ++ blockHead s ++ B " {") ++ ([nl] ++ text))
      by (rewrite <- !app_assoc; reflexivity).
    change ([nl] ++ text) with (nl :: text).
    rewrite len_app_cons.
    cbn [orb]. rewrite lastByte_app by discriminate.
    unfold closeLine. change ([nl] ++ text) with (nl :: text).
    destruct (lastByte (nl :: text) == nl); cbn [negb];
      rewrite <- ?app_assoc; reflexivity.
Qed.

(** ** Further facts about the steps *)

Lemma everyStmt_impl (P Q : Stmt -> Prop) :
  (forall s, P s -> Q s) ->
  forall n, everyStmt P n -> everyStmt Q n.
Proof.
  intros HPQ. fix IH 1. intros [r | s]; [intros; exact I|].
  cbn [everyStmt]. intros [H1 H2]. split; [apply HPQ; exact H1|].
  revert H2. generalize (Body s) as l.
  fix IHl 1. intros [|x l]; [intros; exact I|].
  intros [Hx Hl]; split; [apply IH; exact Hx | apply IHl; exact Hl].
Qed.

Lemma everyStmt_trivial : forall n, everyStmt (fun _ => True) n.
Proof.
  fix IH 1. intros [r | s]; [exact I|].
  cbn [everyStmt]. split; [exact I|].
  generalize (Body s) as l.
  fix IHl 1. intros [|x l]; [exact I|].
  split; [apply IH | apply IHl].
Qed.

(** The loop of [parseRange] tolerates a decomposer that fails: if on
    every segment [build] returns a statement that keeps the segment as
    its original text, or an error, the loop returns, and its nodes
    followed by the trailing [Raw] node serialize to the range. *)
Lemma parseLoop_tolerant (build : bytes -> Z -> outcome Stmt)
    (src : bytes) (start end_ : Z) :
  0 <= start -> start <= end_ -> end_ <= len src ->
  (forall seg k,
     (exists s, build seg k = Ok s /\ RawText s = seg /\ Modified s = false) \/
     (exists e, build seg k = Err e)) ->
  exists st,
    parseLoop build src end_ (Z.to_nat (end_ - start))
      (mkP [] start start 0 false false false) = Ok st /\
    writeNodes
      (p_nodes st ++
       (if p_last st <? end_
        then [RawNode (mkRaw (slice src (p_last st) end_) (p_last st) end_)]
        else [])) [] = slice src start end_.
Proof.
  intros H0 Hse He Hbuild.
  assert (Hok : BuildOk (fun _ => True) build src start end_).
  { intros a b _ _ _ _ _.
    destruct (Hbuild (slice src a b) a) as [(s & S1 & S2 & S3) | (e & S1)].
    - left; exists s. do 3 (split; [assumption|]). apply everyStmt_trivial.
    - right; exists e; assumption. }
  destruct (parseLoop_inv (fun _ => True) build src start end_ Hok
              (Z.to_nat (end_ - start)) (mkP [] start start 0 false false false))
    as (st & L1 & L2 & L3).
  { unfold PInv; cbn [p_i p_last p_depth p_nodes lexP p_inSlashStar p_inLine p_inString].
    repeat split; try lia.
    - apply Run_refl.
    - rewrite slice_empty by lia; reflexivity.
    - constructor. }
  { cbn [p_i]; lia. }
  exists st; split; [assumption|].
  destruct L2 as (I1 & I2 & I3 & I4 & I5 & I6 & I7 & I8 & I9).
  rewrite writeNodes_app, I8.
  destruct (p_last st <? end_) eqn:E.
  - apply Z.ltb_lt in E. cbn [writeNodes fold_left].
    rewrite writeTo_raw; cbn [Text]. apply slice_app; lia.
  - apply Z.ltb_ge in E. assert (p_last st = end_) by lia.
    cbn [writeNodes fold_left]. f_equal; assumption.
Qed.

Lemma Forall_everyStmt_impl (P Q : Stmt -> Prop) (l : list Node) :
  (forall s, P s -> Q s) ->
  Forall (everyStmt P) l -> Forall (everyStmt Q) l.
Proof.
  intros HPQ H; induction H; constructor; [|assumption].
  apply (everyStmt_impl P Q HPQ); assumption.
Qed.

Ltac destruct_match_in H :=
  match type of H with
  | context [match ?x with _ => _ end] =>
      lazymatch x with
      | context [match _ with _ => _ end] => fail
      | _ => destruct x eqn:?
      end
  end.

Ltac invert_run H :=
  cbv [bind] in H;
  repeat first
    [ discriminate H
    | destruct_match_in H; bool_hyps ].

Section StepFacts.
Context {U : Unicode}.

(** Whatever [buildStmt] returns keeps the segment as its original text
    and its offsets as its span. *)
Lemma buildStmt_raw (parse : Z -> Z -> outcome (list Node))
    (seg : bytes) (absStart : Z) (s : Stmt) :
  buildStmt parse seg absStart = Ok s ->
  RawText s = seg /\ s_start s = absStart /\
  s_end s = absStart + len seg /\ Modified s = false.
Proof.
  unfold buildStmt. intros H.
  destruct (scanLoop seg (fuelFrom seg 0) (mkS 0 0 false false false (-1) (-1)));
    cbn [bind] in H; try discriminate H.
  destruct (LastIndexByte seg ";"%byte <? 0); [discriminate H|].
  match type of H with
  | bind ?m _ = _ => destruct m as [fields| | |]; cbn [bind] in H; try discriminate H
  end.
  destruct fields as [[[[[hb head] lb] body] rb] tr].
  destruct (firstIdent head); cbn [bind] in H; try discriminate H.
  injection H as <-. cbn. repeat split; reflexivity.
Qed.

End StepFacts.

(** Inside a comment or a string no iteration of the loop of [parseRange]
    changes the depth, emits a node or moves [last], whatever the bytes
    it reads. *)
Lemma parseStep_in_context (build : bytes -> Z -> outcome Stmt)
    (src : bytes) (end_ : Z) (st st' : pstate) :
  p_inLine st || p_inSlashStar st || p_inString st = true ->
  parseStep build src end_ st = Ok st' ->
  p_depth st' = p_depth st /\ p_nodes st' = p_nodes st /\
  p_last st' = p_last st.
Proof.
  destruct st as [nodes i last depth ss ln str];
    cbn [p_inLine p_inSlashStar p_inString p_depth p_nodes p_last].
  intros Hctx H. unfold parseStep in H.
  destruct ln; [|destruct ss; [|destruct str; [|discriminate Hctx]]];
    invert_run H; injection H as <-; repeat split; reflexivity.
Qed.

(** Inside a comment or a string no iteration of the scanning loop of
    [buildStmt] changes the depth or records a brace. *)
Lemma scanStep_in_context (seg : bytes) (st : bstate) :
  b_inLine st || b_inSlashStar st || b_inString st = true ->
  b_depth (scanStep seg st) = b_depth st /\
  b_braceOpen (scanStep seg st) = b_braceOpen st /\
  b_braceClose (scanStep seg st) = b_braceClose st.
Proof.
  destruct st as [i depth ss ln str bo bc];
    cbn [b_inLine b_inSlashStar b_inString b_depth b_braceOpen b_braceClose].
  intros Hctx. unfold scanStep.
  destruct ln; [|destruct ss; [|destruct str; [|discriminate Hctx]]];
    repeat break_if; repeat split; reflexivity.
Qed.

(** No iteration of the loop of [parseRange] makes the depth negative. *)
Lemma parseStep_depth (build : bytes -> Z -> outcome Stmt)
    (src : bytes) (end_ : Z) (st st' : pstate) :
  0 <= p_depth st -> parseStep build src end_ st = Ok st' ->
  0 <= p_depth st'.
Proof.
  destruct st as [nodes i last depth ss ln str]; cbn [p_depth].
  intros Hd H. unfold parseStep in H.
  invert_run H; injection H as <-; cbn [p_depth]; lia.
Qed.

(** A closing brace outside comments and strings: the depth goes down by
    one, but not below 0. *)
Lemma parseStep_close (build : bytes -> Z -> outcome Stmt)
    (src : bytes) (end_ : Z) (st : pstate) :
  0 <= p_i st -> p_i st < len src ->
  lexP st = Normal (p_i st) -> at_ src (p_i st) = "}"%byte ->
  parseStep build src end_ st =
  Ok (mkP (p_nodes st) (p_i st + 1) (p_last st)
        (if p_depth st >? 0 then p_depth st - 1 else p_depth st)
        false false false).
Proof.
  destruct st as [nodes i last depth ss ln str]; unfold lexP, Normal;
    cbn [p_i p_nodes p_last p_depth p_inSlashStar p_inLine p_inString].
  intros H0 Hi Hlex Hc. injection Hlex as -> -> ->.
  unfold parseStep. rewrite rd_in by lia; cbn [bind]. rewrite Hc.
  reflexivity.
Qed.

Lemma scanStep_close (seg : bytes) (st : bstate) :
  lexB st = Normal (b_i st) -> at_ seg (b_i st) = "}"%byte ->
  b_depth (scanStep seg st) =
  (if b_depth st >? 0 then b_depth st - 1 else b_depth st) /\
  lexB (scanStep seg st) = Normal (b_i st + 1).
Proof.
  destruct st as [i depth ss ln str bo bc]; unfold lexB, Normal;
    cbn [b_i b_depth b_inSlashStar b_inLine b_inString].
  intros Hlex Hc. injection Hlex as -> -> ->.
  unfold scanStep. rewrite Hc. cbn. split; reflexivity.
Qed.

Lemma PReach_depth (build : bytes -> Z -> outcome Stmt) (src : bytes)
    (start end_ : Z) (st : pstate) :
  PReach build src start end_ st -> 0 <= p_depth st.
Proof.
  induction 1 as [|st st' _ IH _ Hstep]; [cbn; lia|].
  apply (parseStep_depth build src end_ st st'); assumption.
Qed.

Lemma BReach_depth (seg : bytes) (st : bstate) :
  BReach seg st -> 0 <= b_depth st.
Proof.
  induction 1 as [|st _ IH _]; [cbn; lia|].
  apply scanStep_depth; assumption.
Qed.

(** ** The fuel of [parseRange] is immaterial

    More fuel never changes what [parseRange] returns, so that the fuel
    that [Parse] gives it stands for any larger one. *)

Ltac destruct_match_goal :=
  match goal with
  | |- context [match ?x with _ => _ end] =>
      lazymatch x with
      | context [match _ with _ => _ end] => fail
      | _ => destruct x eqn:?
      end
  end.

Section Fuel.
Context {U : Unicode}.

Lemma buildStmt_refines (p1 p2 : Z -> Z -> outcome (list Node)) :
  Refines p1 p2 -> Refines (buildStmt p1) (buildStmt p2).
Proof.
  intros Hp seg absStart. unfold buildStmt, bind.
  destruct (scanLoop seg (fuelFrom seg 0) (mkS 0 0 false false false (-1) (-1)));
    try reflexivity.
  destruct (LastIndexByte seg ";"%byte <? 0); [reflexivity|].
  destruct ((b_braceOpen a >=? 0) && (b_braceClose a >=? 0) &&
            (b_braceClose a >? b_braceOpen a)); [|reflexivity].
  destruct (sl seg 0 (b_braceOpen a)); try reflexivity.
  match goal with
  | |- context [sl seg (b_braceOpen a) ?e] => destruct (sl seg (b_braceOpen a) e); try reflexivity
  end.
  match goal with
  | |- context [sl seg ?e (b_braceClose a)] =>
      destruct (sl seg e (b_braceClose a)) as [bodySrc| | |]; try reflexivity
  end.
  destruct (len bodySrc >? 0); [|reflexivity].
  match goal with
  | |- context [p1 ?x ?y] =>
      destruct (p1 x y) eqn:E1;
        [ rewrite (Hp x y) by (rewrite E1; discriminate); rewrite E1; reflexivity
        | rewrite (Hp x y) by (rewrite E1; discriminate); rewrite E1; reflexivity
        | rewrite (Hp x y) by (rewrite E1; discriminate); rewrite E1; reflexivity
        | intros Hne; exfalso; apply Hne; reflexivity ]
  end.
Qed.

Lemma parseStep_refines (b1 b2 : bytes -> Z -> outcome Stmt)
    (src : bytes) (end_ : Z) (st : pstate) :
  Refines b1 b2 ->
  parseStep b1 src end_ st <> OutOfFuel ->
  parseStep b2 src end_ st = parseStep b1 src end_ st.
Proof.
  intros Hb. destruct st as [nodes i last depth ss ln str].
  unfold parseStep, bind.
  repeat first
    [ match goal with
      | H : b1 ?x ?y = _ |- context [b2 ?x ?y] =>
          first [ rewrite (Hb x y) by (rewrite H; discriminate); rewrite H
                | intros Hne; exfalso; apply Hne; reflexivity ]
      end
    | match goal with
      | |- context [b1 ?x ?y] => destruct (b1 x y) eqn:?
      end
    | reflexivity
    | destruct_match_goal ].
Qed.

Lemma parseLoop_refines (b1 b2 : bytes -> Z -> outcome Stmt)
    (src : bytes) (end_ : Z) :
  Refines b1 b2 ->
  forall (fuel : nat) (st : pstate),
    parseLoop b1 src end_ fuel st <> OutOfFuel ->
    parseLoop b2 src end_ fuel st = parseLoop b1 src end_ fuel st.
Proof.
  intros Hb; induction fuel as [|fuel IH]; intros st; cbn [parseLoop];
    destruct (p_i st <? end_); intros Hne; try reflexivity.
  assert (Hstep : parseStep b1 src end_ st <> OutOfFuel).
  { intros E; apply Hne; rewrite E; reflexivity. }
  rewrite (parseStep_refines b1 b2 src end_ st Hb Hstep).
  destruct (parseStep b1 src end_ st) as [st1| | |]; cbn [bind] in *;
    try reflexivity.
  apply IH; assumption.
Qed.

Lemma parseRange_fuel_S (src : bytes) :
  forall fuel, Refines (parseRange fuel src) (parseRange (S fuel) src).
Proof.
  induction fuel as [|fuel IH]; intros start end_ Hne.
  - exfalso; apply Hne; reflexivity.
  - change (parseRange (S (S fuel)) src start end_)
      with (st <- parseLoop (buildStmt (parseRange (S fuel) src)) src end_
                    (Z.to_nat (end_ - start))
                    (mkP [] start start 0 false false false) ;;
            if p_last st <? end_ then
              text <- sl src (p_last st) end_ ;;
              Ok (p_nodes st ++ [RawNode (mkRaw text (p_last st) end_)])
            else Ok (p_nodes st)).
    change (parseRange (S fuel) src start end_)
      with (st <- parseLoop (buildStmt (parseRange fuel src)) src end_
                    (Z.to_nat (end_ - start))
                    (mkP [] start start 0 false false false) ;;
            if p_last st <? end_ then
              text <- sl src (p_last st) end_ ;;
              Ok (p_nodes st ++ [RawNode (mkRaw text (p_last st) end_)])
            else Ok (p_nodes st)) in *.
    rewrite (parseLoop_refines (buildStmt (parseRange fuel src))
               (buildStmt (parseRange (S fuel) src)) src end_
               (buildStmt_refines _ _ IH)); [reflexivity|].
    intros E; apply Hne; rewrite E; reflexivity.
Qed.

(** What [parseRange] returns with some fuel it returns with any larger
    fuel. *)
Lemma parseRange_fuel (src : bytes) (start end_ : Z) :
  forall fuel fuel',
    (fuel <= fuel')%nat -> parseRange fuel src start end_ <> OutOfFuel ->
    parseRange fuel' src start end_ = parseRange fuel src start end_.
Proof.
  intros fuel fuel' Hle; induction Hle as [|fuel' _ IH]; intros Hne;
    [reflexivity|].
  rewrite <- (IH Hne). apply parseRange_fuel_S. rewrite (IH Hne); exact Hne.
Qed.

(** [Parse] does not depend on its choice of fuel. *)
Lemma Parse_fuel (src : bytes) (fuel : nat) :
  (S (List.length src) <= fuel)%nat ->
  (nodes <- parseRange fuel src 0 (len src) ;; Ok (mkFile nodes src)) =
  Parse src.
Proof.
  intros Hle. unfold Parse.
  rewrite (parseRange_fuel src 0 (len src) (S (List.length src)) fuel Hle);
    [reflexivity|].
  destruct (parseRange_ok (S (List.length src)) src 0 (len src))
    as (nodes & H & _); try (unfold len; lia).
  rewrite H; discriminate.
Qed.

End Fuel.

(** * The properties of the specification *)

Lemma parseLoop_reach (build : bytes -> Z -> outcome Stmt) (src : bytes)
    (start end_ : Z) :
  forall (fuel : nat) (st st' : pstate),
    PReach build src start end_ st ->
    parseLoop build src end_ fuel st = Ok st' ->
    PReach build src start end_ st'.
Proof.
  induction fuel as [|fuel IH]; intros st st' Hr H; cbn [parseLoop] in H.
  - destruct (p_i st <? end_); [discriminate H | injection H as <-; assumption].
  - destruct (p_i st <? end_) eqn:E; [|injection H as <-; assumption].
    apply Z.ltb_lt in E.
    destruct (parseStep build src end_ st) as [st1| | |] eqn:E1;
      cbn [bind] in H; try discriminate H.
    apply (IH st1 st'); [|assumption].
    apply (PReach_step build src start end_ st st1); assumption.
Qed.

Lemma scanLoop_reach (seg : bytes) :
  forall (fuel : nat) (st st' : bstate),
    BReach seg st -> scanLoop seg fuel st = Ok st' -> BReach seg st'.
Proof.
  induction fuel as [|fuel IH]; intros st st' Hr H; cbn [scanLoop] in H.
  - destruct (b_i st <? len seg); [discriminate H | injection H as <-; assumption].
  - destruct (b_i st <? len seg) eqn:E; [|injection H as <-; assumption].
    apply Z.ltb_lt in E. apply (IH (scanStep seg st) st'); [|assumption].
    apply BReach_step; assumption.
Qed.

Lemma lastByte_last (x : bytes) :
  lastByte x = nl -> exists t, x = t ++ [nl].
Proof.
  unfold lastByte; intros H. destruct x as [|c x].
  - cbn in H; discriminate H.
  - exists (removelast (c :: x)). rewrite <- H.
    apply app_removelast_last; discriminate.
Qed.

Lemma closeLine_ends (x : bytes) : exists t, closeLine x = t ++ [nl].
Proof.
  unfold closeLine. destruct (lastByte x == nl) eqn:E.
  - apply beq_eq in E. apply lastByte_last; assumption.
  - exists x; reflexivity.
Qed.

Lemma lastByte_cons (c : byte) (x : bytes) :
  x <> [] -> lastByte (c :: x) = lastByte x.
Proof. intros H; apply (lastByte_app [c] x H). Qed.

Lemma lastByte_indentFrom (s : bytes) :
  forall bol, s <> [] -> lastByte (indentFrom bol s) = lastByte s.
Proof.
  induction s as [|c s IH]; intros bol Hne; [contradiction|].
  cbn [indentFrom].
  rewrite lastByte_app by discriminate.
  destruct s as [|c' s]; [reflexivity|].
  rewrite (lastByte_cons c (c' :: s)) by discriminate.
  rewrite (lastByte_cons c (indentFrom (c == nl) (c' :: s))).
  - apply IH; discriminate.
  - cbn [indentFrom]. destruct (c == nl); cbn; discriminate.
Qed.

Lemma indentFrom_line (s : bytes) :
  Forall (fun c => c <> nl) s -> indentFrom false s = s.
Proof.
  induction 1 as [|c s Hc _ IH]; [reflexivity|].
  cbn [indentFrom app]. rewrite (neq_beq _ _ Hc), IH. reflexivity.
Qed.

(** A single line is indented by two spaces at its front. *)
Lemma indent_line (s : bytes) :
  s <> [] -> Forall (fun c => c <> nl) s -> indent s = B "  " ++ s.
Proof.
  intros Hne H; destruct H as [|c s Hc Hs]; [contradiction|].
  unfold indent; cbn [indentFrom].
  rewrite (neq_beq _ _ Hc), (indentFrom_line s Hs). reflexivity.
Qed.

Lemma Forall_lastByte (P : byte -> Prop) (s : bytes) :
  s <> [] -> Forall P s -> P (lastByte s).
Proof.
  intros Hne H. induction H as [|c s Hc Hs IH]; [contradiction|].
  destruct s as [|c' s]; [exact Hc|].
  rewrite lastByte_cons by discriminate. apply IH; discriminate.
Qed.

Lemma leadLoop_not_err (s : bytes) :
  forall (fuel : nat) (i : Z) (e : error), leadLoop s fuel i <> Err e.
Proof.
  induction fuel as [|fuel IH]; intros i e; cbn [leadLoop];
    destruct (i <? len s); try discriminate.
  destruct (leadStep s i); [apply IH | discriminate].
Qed.

Lemma sl_not_err (s : bytes) (a b : Z) (e : error) : sl s a b <> Err e.
Proof. unfold sl; destruct ((0 <=? a) && (a <=? b) && (b <=? len s)); discriminate. Qed.

Lemma firstIdent_not_err {U : Unicode} (s : bytes) (e : error) :
  firstIdent s <> Err e.
Proof.
  unfold firstIdent.
  destruct (leadLoop s (fuelFrom s 0) 0) as [start| e' | |] eqn:E;
    cbn [bind]; try discriminate.
  - match goal with
    | |- bind ?m _ <> _ => destruct m eqn:E'; cbn [bind]; try discriminate
    end.
    exfalso; exact (sl_not_err _ _ _ _ E').
  - exfalso; exact (leadLoop_not_err _ _ _ _ E).
Qed.

(** [buildStmt] returns the error on a segment without semicolon and on
    no other segment. *)
Lemma buildStmt_err_iff {U : Unicode}
    (parse : Z -> Z -> outcome (list Node)) (seg : bytes) (absStart : Z) :
  (exists e, buildStmt parse seg absStart = Err e) <->
  (forall j, 0 <= j -> j < len seg -> at_ seg j <> ";"%byte).
Proof.
  unfold buildStmt.
  destruct (scanLoop_inv seg (fuelFrom seg 0) (mkS 0 0 false false false (-1) (-1)))
    as (st & Hloop & _ & _).
  { apply ScanInv_init. }
  { unfold fuelFrom; cbn [b_i]; lia. }
  rewrite Hloop; cbn [bind].
  destruct (LastIndexByte_spec seg ";"%byte) as [[H1 H2] | (H1 & H2 & H3 & H4)].
  - rewrite H1. cbn. split; [intros _; exact H2 | intros _; eexists; reflexivity].
  - replace (LastIndexByte seg ";"%byte <? 0) with false
      by (symmetry; apply Z.ltb_ge; lia).
    split.
    + intros [e H]. exfalso.
      match type of H with
      | bind ?m _ = _ => destruct m as [fields| e' | |] eqn:Ef; cbn [bind] in H;
                         try discriminate H
      end.
      * destruct fields as [[[[[hb head] lb] body] rb] tr].
        destruct (firstIdent head) eqn:Ei; cbn [bind] in H; try discriminate H.
        exact (firstIdent_not_err _ _ Ei).
      * clear H. invert_run Ef;
          match goal with
          | H : sl _ _ _ = Err _ |- _ => exact (sl_not_err _ _ _ _ H)
          end.
    + intros H. exfalso. apply (H (LastIndexByte seg ";"%byte)); assumption.
Qed.

(** * The scanning loops and the contexts of the text *)

Lemma slice_slice (s : bytes) (k e a b : Z) :
  0 <= k -> 0 <= a -> a <= b -> k + b <= e ->
  slice (slice s k e) a b = slice s (k + a) (k + b).
Proof.
  intros Hk Ha Hab Hbe. unfold slice.
  rewrite skipn_firstn_comm, firstn_firstn, skipn_skipn.
  f_equal; [lia | f_equal; lia].
Qed.

Lemma parseLoop_exit (build : bytes -> Z -> outcome Stmt) (src : bytes)
    (end_ : Z) :
  forall (fuel : nat) (st st' : pstate),
    parseLoop build src end_ fuel st = Ok st' -> end_ <= p_i st'.
Proof.
  induction fuel as [|fuel IH]; intros st st' H; cbn [parseLoop] in H.
  - destruct (p_i st <? end_) eqn:E; [discriminate H |].
    injection H as <-. apply Z.ltb_ge in E. exact E.
  - destruct (p_i st <? end_) eqn:E.
    + destruct (parseStep build src end_ st) as [st1| | |];
        cbn [bind] in H; try discriminate H.
      apply (IH st1 st'). exact H.
    + injection H as <-. apply Z.ltb_ge in E. exact E.
Qed.

Lemma slice_cons (s : bytes) (i e : Z) :
  0 <= i -> i < e -> e <= len s ->
  slice s i e = at_ s i :: slice s (i + 1) e.
Proof.
  intros H0 Hi He. rewrite <- (slice_app s i (i + 1) e) by lia.
  rewrite slice_succ by lia. reflexivity.
Qed.

(** ** The specification over a text cut in two *)

Lemma depthAfter_nil (d : Z) (s : bytes) : depthAfter d s [] = d.
Proof. destruct s; reflexivity. Qed.

Lemma depthAfter_app (s1 s2 : bytes) :
  forall d cs,
    depthAfter d (s1 ++ s2) cs =
    depthAfter (depthAfter d s1 cs) s2 (skipn (List.length s1) cs).
Proof.
  induction s1 as [| c s1 IH]; intros d cs; [reflexivity |].
  destruct cs as [| x cs].
  - cbn [app depthAfter skipn List.length]. rewrite depthAfter_nil.
    reflexivity.
  - cbn [app depthAfter skipn List.length]. apply IH.
Qed.

Lemma boundariesFrom_nil (i d : Z) (s : bytes) : boundariesFrom i d s [] = [].
Proof. destruct s; reflexivity. Qed.

Lemma boundariesFrom_app (s1 s2 : bytes) :
  forall i d cs,
    boundariesFrom i d (s1 ++ s2) cs =
    boundariesFrom i d s1 cs ++
    boundariesFrom (i + len s1) (depthAfter d s1 cs) s2
      (skipn (List.length s1) cs).
Proof.
  induction s1 as [| c s1 IH]; intros i d cs.
  - cbn [app boundariesFrom depthAfter skipn List.length].
    change (len (@nil byte)) with 0. rewrite Z.add_0_r. reflexivity.
  - destruct cs as [| x cs].
    + cbn [app boundariesFrom depthAfter skipn List.length].
      rewrite boundariesFrom_nil. reflexivity.
    + cbn [app boundariesFrom depthAfter skipn List.length].
      rewrite IH, <- app_assoc, len_cons.
      replace (i + 1 + len s1) with (i + (len s1 + 1)) by lia. reflexivity.
Qed.

Lemma firstOpenFrom_nil (i : Z) (s : bytes) : firstOpenFrom i s [] = None.
Proof. destruct s; reflexivity. Qed.

Lemma firstOpenFrom_app (s1 s2 : bytes) :
  forall i cs,
    firstOpenFrom i (s1 ++ s2) cs =
    match firstOpenFrom i s1 cs with
    | Some o => Some o
    | None => firstOpenFrom (i + len s1) s2 (skipn (List.length s1) cs)
    end.
Proof.
  induction s1 as [| c s1 IH]; intros i cs.
  - cbn [app firstOpenFrom skipn List.length].
    change (len (@nil byte)) with 0. rewrite Z.add_0_r. reflexivity.
  - destruct cs as [| x cs].
    + cbn [app firstOpenFrom skipn List.length].
      rewrite firstOpenFrom_nil. reflexivity.
    + cbn [app firstOpenFrom skipn List.length]. rewrite len_cons.
      replace (i + (len s1 + 1)) with (i + 1 + len s1) by lia.
      destruct x; try apply IH.
      destruct (c == "{"%byte); [reflexivity | apply IH].
Qed.

Lemma firstCloseFrom_nil (i d : Z) (s : bytes) : firstCloseFrom i d s [] = None.
Proof. destruct s; reflexivity. Qed.

Lemma firstCloseFrom_app (s1 s2 : bytes) :
  forall i d cs,
    firstCloseFrom i d (s1 ++ s2) cs =
    match firstCloseFrom i d s1 cs with
    | Some o => Some o
    | None =>
        firstCloseFrom (i + len s1) (depthAfter d s1 cs) s2
          (skipn (List.length s1) cs)
    end.
Proof.
  induction s1 as [| c s1 IH]; intros i d cs.
  - cbn [app firstCloseFrom depthAfter skipn List.length].
    change (len (@nil byte)) with 0. rewrite Z.add_0_r. reflexivity.
  - destruct cs as [| x cs].
    + cbn [app firstCloseFrom depthAfter skipn List.length].
      rewrite firstCloseFrom_nil. reflexivity.
    + cbn [app firstCloseFrom depthAfter skipn List.length]. rewrite len_cons.
      replace (i + (len s1 + 1)) with (i + 1 + len s1) by lia.
      destruct ((0 <? d) && (braceStep d c x =? 0)); [reflexivity | apply IH].
Qed.

Lemma firstOpenFrom_ge (s : bytes) :
  forall i cs o, firstOpenFrom i s cs = Some o -> i <= o.
Proof.
  induction s as [| c s IH]; intros i cs o H; [discriminate H |].
  destruct cs as [| x cs]; [discriminate H |].
  cbn [firstOpenFrom] in H.
  assert (Hrec : firstOpenFrom (i + 1) s cs = Some o -> i <= o).
  { intros Hr. apply IH in Hr. lia. }
  destruct x; auto.
  destruct (c == "{"%byte); [injection H as <-; lia | auto].
Qed.

Lemma firstCloseFrom_ge (s : bytes) :
  forall i d cs o, firstCloseFrom i d s cs = Some o -> i <= o.
Proof.
  induction s as [| c s IH]; intros i d cs o H; [discriminate H |].
  destruct cs as [| x cs]; [discriminate H |].
  cbn [firstCloseFrom] in H.
  destruct ((0 <? d) && (braceStep d c x =? 0)).
  - injection H as <-. lia.
  - apply IH in H. lia.
Qed.

(** ** One unit of the scanner *)

Lemma slice_next (s : bytes) (i e : Z) :
  0 <= i -> e <= len s ->
  (i + 1 < e /\ slice s (i + 1) e = at_ s (i + 1) :: slice s (i + 2) e) \/
  (e <= i + 1 /\ slice s (i + 1) e = []).
Proof.
  intros H0 He. destruct (Z_lt_le_dec (i + 1) e) as [Hl | Hg].
  - left. split; [exact Hl |]. rewrite (slice_cons s (i + 1) e) by lia.
    replace (i + 1 + 1) with (i + 2) by lia. reflexivity.
  - right. split; [exact Hg |]. apply slice_empty. lia.
Qed.

Ltac unit_done m' j lab :=
  exists m', j, lab;
  cbn [lexOf repeat Z.to_nat Pos.to_nat Pos.iter_op Init.Nat.add app braceStep];
  repeat split;
  try solve [ reflexivity | lia | discriminate | congruence
            | left; reflexivity | right; split; [reflexivity | discriminate]
            | f_equal; lia
            | intros; congruence
            | intros; auto ].

(** An iteration of the scanner from the context [m] at the index [i]
    consumes one unit of the text: one byte, or the two bytes that enter
    or exit a comment or make an escape; the specification gives the
    bytes of the unit one context, [lab], and the rest of the text the
    context [m'] that the scanner is left in. *)
Lemma lexStep_unit (s : bytes) (e : Z) (m : context) (i : Z) :
  0 <= i -> i < e -> e <= len s ->
  exists m' j lab,
    lexStep s e (lexOf m i) = lexOf m' (i + j) /\
    (j = 1 \/ (j = 2 /\ lab <> InNormal)) /\ i + j <= e /\
    classify m (slice s i e) =
      repeat lab (Z.to_nat j) ++ classify m' (slice s (i + j) e) /\
    (forall d, depthStep s (lexOf m i) d = braceStep d (at_ s i) lab) /\
    (lab = InNormal -> m = InNormal) /\
    (m = InNormal -> lab <> InNormal ->
     at_ s i = "/"%byte \/ at_ s i = "#"%byte \/ at_ s i = dq).
Proof.
  intros H0 Hi He.
  rewrite (slice_cons s i e) by lia.
  destruct (slice_next s i e H0 He) as [[Hn Hs] | [Hn Hs]].
  - (* a byte follows *)
    replace (i + 1 <? e) with true by (symmetry; apply Z.ltb_lt; lia).
    destruct m; unfold lexStep, depthStep;
      cbn [lexOf l_i l_inLine l_inSlashStar l_inString orb andb classify].
    + (* Normal *)
      replace (i + 1 <? e) with true by (symmetry; apply Z.ltb_lt; lia).
      destruct (at_ s i == "/"%byte) eqn:E1.
      * apply beq_eq in E1. rewrite E1. cbn [andb]. rewrite Hs.
        destruct (at_ s (i + 1) == "*"%byte) eqn:E2.
        { unit_done InBlockComment 2 InBlockComment. }
        destruct (at_ s (i + 1) == "/"%byte) eqn:E3.
        { unit_done InLineComment 2 InLineComment. }
        rewrite <- Hs. unit_done InNormal 1 InNormal.
      * cbn [andb].
        destruct (at_ s i == "#"%byte) eqn:E2.
        { apply beq_eq in E2. rewrite E2.
          unit_done InLineComment 1 InLineComment. }
        destruct (at_ s i == dq) eqn:E3.
        { apply beq_eq in E3. rewrite E3.
          unit_done InQuotedString 1 InQuotedString. }
        unit_done InNormal 1 InNormal.
    + (* LineComment *)
      destruct (at_ s i == nl) eqn:E1.
      * unit_done InNormal 1 InLineComment.
      * unit_done InLineComment 1 InLineComment.
    + (* BlockComment *)
      rewrite Hs.
      replace (i + 1 <? e) with true by (symmetry; apply Z.ltb_lt; lia).
      rewrite andb_true_r.
      destruct ((at_ s i == "*"%byte) && (at_ s (i + 1) == "/"%byte)) eqn:E1.
      * unit_done InNormal 2 InBlockComment.
      * rewrite <- Hs. unit_done InBlockComment 1 InBlockComment.
    + (* QuotedString *)
      replace (i + 1 <? e) with true by (symmetry; apply Z.ltb_lt; lia).
      rewrite andb_true_r.
      destruct (at_ s i == bsl) eqn:E1.
      * rewrite Hs. unit_done InQuotedString 2 InQuotedString.
      * destruct (at_ s i == dq) eqn:E2.
        { unit_done InNormal 1 InQuotedString. }
        unit_done InQuotedString 1 InQuotedString.
  - (* the last byte of the text *)
    replace (i + 1 <? e) with false by (symmetry; apply Z.ltb_ge; lia).
    destruct m; unfold lexStep, depthStep;
      cbn [lexOf l_i l_inLine l_inSlashStar l_inString orb andb classify].
    + (* Normal *)
      replace (i + 1 <? e) with false by (symmetry; apply Z.ltb_ge; lia).
      rewrite !andb_false_r. cbn [andb]. rewrite Hs.
      destruct (at_ s i == "#"%byte) eqn:E2.
      { apply beq_eq in E2. rewrite E2.
        unit_done InLineComment 1 InLineComment; rewrite Hs; reflexivity. }
      destruct (at_ s i == dq) eqn:E3.
      { apply beq_eq in E3. rewrite E3.
        unit_done InQuotedString 1 InQuotedString; rewrite Hs; reflexivity. }
      destruct (at_ s i == "/"%byte) eqn:E1.
      { unit_done InNormal 1 InNormal; rewrite Hs; reflexivity. }
      unit_done InNormal 1 InNormal; rewrite Hs; reflexivity.
    + (* LineComment *)
      destruct (at_ s i == nl) eqn:E1.
      * unit_done InNormal 1 InLineComment; rewrite Hs; reflexivity.
      * unit_done InLineComment 1 InLineComment; rewrite Hs; reflexivity.
    + (* BlockComment *)
      replace (i + 1 <? e) with false by (symmetry; apply Z.ltb_ge; lia).
      rewrite !andb_false_r. cbn [andb]. rewrite Hs.
      unit_done InBlockComment 1 InBlockComment; rewrite Hs; reflexivity.
    + (* QuotedString *)
      replace (i + 1 <? e) with false by (symmetry; apply Z.ltb_ge; lia).
      rewrite !andb_false_r. rewrite Hs.
      destruct (at_ s i == bsl) eqn:E1.
      * apply beq_eq in E1. rewrite E1.
        unit_done InQuotedString 1 InQuotedString; rewrite Hs; reflexivity.
      * destruct (at_ s i == dq) eqn:E2.
        { unit_done InNormal 1 InQuotedString; rewrite Hs; reflexivity. }
        unit_done InQuotedString 1 InQuotedString; rewrite Hs; reflexivity.
Qed.

Lemma l_i_lexOf (m : context) (i : Z) : l_i (lexOf m i) = i.
Proof. destruct m; reflexivity. Qed.

Lemma Synced_init (s : bytes) (a e : Z) : a <= e -> Synced s a e (Normal a).
Proof.
  intros Hae. unfold Synced, Normal. cbn [l_i].
  split; [lia | split; [exact Hae |]]. exists InNormal.
  split; [reflexivity |]. replace (a - a) with 0 by lia. reflexivity.
Qed.

(** An iteration of the scanner keeps it in step with the
    specification. *)
Lemma Synced_step (s : bytes) (a e : Z) (x : lex) :
  0 <= a -> e <= len s -> Synced s a e x -> l_i x < e ->
  exists m m' j lab,
    x = lexOf m (l_i x) /\
    lexStep s e x = lexOf m' (l_i x + j) /\
    (j = 1 \/ (j = 2 /\ lab <> InNormal)) /\ l_i x + j <= e /\
    skipn (Z.to_nat (l_i x - a)) (contexts (slice s a e)) =
      repeat lab (Z.to_nat j) ++ classify m' (slice s (l_i x + j) e) /\
    (forall d, depthStep s x d = braceStep d (at_ s (l_i x)) lab) /\
    (lab = InNormal -> m = InNormal) /\
    (m = InNormal -> lab <> InNormal ->
     at_ s (l_i x) = "/"%byte \/ at_ s (l_i x) = "#"%byte \/
     at_ s (l_i x) = dq) /\
    Synced s a e (lexStep s e x).
Proof.
  intros Ha He (A1 & A2 & m & Hx & Hsk) Hlt.
  destruct (lexStep_unit s e m (l_i x)) as
    (m' & j & lab & U1 & U2 & U3 & U4 & U5 & U6 & U7); try lia.
  rewrite <- Hx in U1, U5.
  exists m, m', j, lab.
  split; [exact Hx |]. split; [exact U1 |]. split; [exact U2 |].
  split; [exact U3 |]. split; [rewrite Hsk; exact U4 |].
  split; [exact U5 |]. split; [exact U6 |]. split; [exact U7 |].
  rewrite U1. unfold Synced. rewrite l_i_lexOf.
  assert (Hj : 1 <= j <= 2) by (destruct U2 as [-> | [-> _]]; lia).
  split; [lia | split; [lia |]]. exists m'. split; [reflexivity |].
  replace (Z.to_nat (l_i x + j - a))
    with (Z.to_nat j + Z.to_nat (l_i x - a))%nat by lia.
  rewrite <- skipn_skipn, Hsk, U4.
  rewrite skipn_app, repeat_length, Nat.sub_diag, skipn_all2
    by (rewrite repeat_length; lia).
  reflexivity.
Qed.

Lemma pos_zero (d : Z) : (0 <? d) && (d =? 0) = false.
Proof.
  destruct (0 <? d) eqn:E1; [| reflexivity].
  apply Z.ltb_lt in E1. cbn [andb]. apply Z.eqb_neq. lia.
Qed.

(** The specification over the bytes of one unit. *)
Lemma unit_spec (s : bytes) (i j : Z) (lab : context) (rest : list context) :
  0 <= i -> i + j <= len s ->
  (j = 1 \/ (j = 2 /\ lab <> InNormal)) ->
  forall b d,
    depthAfter d (slice s i (i + j)) (repeat lab (Z.to_nat j) ++ rest) =
      braceStep d (at_ s i) lab /\
    boundariesFrom b d (slice s i (i + j)) (repeat lab (Z.to_nat j) ++ rest) =
      (match lab with
       | InNormal => if (at_ s i == ";"%byte) && (d =? 0) then [b] else []
       | _ => []
       end) /\
    firstOpenFrom b (slice s i (i + j)) (repeat lab (Z.to_nat j) ++ rest) =
      (match lab with
       | InNormal => if at_ s i == "{"%byte then Some b else None
       | _ => None
       end) /\
    firstCloseFrom b d (slice s i (i + j)) (repeat lab (Z.to_nat j) ++ rest) =
      (if (0 <? d) && (braceStep d (at_ s i) lab =? 0) then Some b else None).
Proof.
  intros H0 Hl Hj b d. destruct Hj as [-> | [-> Hlab]].
  - rewrite slice_succ by lia. change (Z.to_nat 1) with 1%nat.
    cbn [repeat app depthAfter boundariesFrom firstOpenFrom firstCloseFrom].
    repeat split. destruct lab; apply app_nil_r.
  - rewrite <- (slice_app s i (i + 1) (i + 2)) by lia.
    rewrite slice_succ by lia.
    replace (i + 2) with (i + 1 + 1) by lia. rewrite slice_succ by lia.
    assert (Hb : forall c, braceStep d c lab = d)
      by (intros c; destruct lab; [congruence | reflexivity ..]).
    change (Z.to_nat 2) with 2%nat.
    cbn [repeat app depthAfter boundariesFrom firstOpenFrom firstCloseFrom].
    rewrite !Hb, !pos_zero.
    destruct lab; [congruence | repeat split ..].
Qed.

(** The specification over a prefix of the text that one unit extends. *)
Lemma prefix_step (s : bytes) (a i j : Z) (lab : context)
    (rest cs : list context) :
  0 <= a -> a <= i -> i + j <= len s ->
  (j = 1 \/ (j = 2 /\ lab <> InNormal)) ->
  skipn (Z.to_nat (i - a)) cs = repeat lab (Z.to_nat j) ++ rest ->
  forall b0 d0,
    let d := depthAfter d0 (slice s a i) cs in
    depthAfter d0 (slice s a (i + j)) cs = braceStep d (at_ s i) lab /\
    boundariesFrom b0 d0 (slice s a (i + j)) cs =
      boundariesFrom b0 d0 (slice s a i) cs ++
      (match lab with
       | InNormal =>
           if (at_ s i == ";"%byte) && (d =? 0) then [b0 + (i - a)] else []
       | _ => []
       end) /\
    firstOpenFrom b0 (slice s a (i + j)) cs =
      (match firstOpenFrom b0 (slice s a i) cs with
       | Some o => Some o
       | None =>
           match lab with
           | InNormal =>
               if at_ s i == "{"%byte then Some (b0 + (i - a)) else None
           | _ => None
           end
       end) /\
    firstCloseFrom b0 d0 (slice s a (i + j)) cs =
      (match firstCloseFrom b0 d0 (slice s a i) cs with
       | Some o => Some o
       | None =>
           if (0 <? d) && (braceStep d (at_ s i) lab =? 0)
           then Some (b0 + (i - a)) else None
       end).
Proof.
  intros Ha Hai Hl Hj Hsk b0 d0 d.
  assert (Hj' : 1 <= j) by (destruct Hj as [-> | [-> _]]; lia).
  assert (Hlen : List.length (slice s a i) = Z.to_nat (i - a)).
  { pose proof (len_slice s a i Ha Hai ltac:(lia)) as H. unfold len in H. lia. }
  assert (Hlen' : len (slice s a i) = i - a) by (apply len_slice; lia).
  rewrite <- (slice_app s a i (i + j)) by lia.
  rewrite depthAfter_app, boundariesFrom_app, firstOpenFrom_app,
    firstCloseFrom_app.
  rewrite Hlen, Hlen', Hsk.
  fold d.
  destruct (unit_spec s i j lab rest ltac:(lia) Hl Hj (b0 + (i - a)) d)
    as (U1 & U2 & U3 & U4).
  rewrite U1, U2, U3, U4. repeat split.
Qed.

(** ** The loop of [parseRange] *)

(** What an iteration does to the depth: only a brace read outside
    comments and strings changes it. *)
Lemma parseStep_depthStep (build : bytes -> Z -> outcome Stmt)
    (src : bytes) (end_ : Z) (st st' : pstate) :
  0 <= p_i st -> p_i st < len src ->
  parseStep build src end_ st = Ok st' ->
  p_depth st' = depthStep src (lexP st) (p_depth st).
Proof.
  destruct st as [nodes i last depth ss ln str].
  unfold lexP, depthStep;
    cbn [p_i p_depth l_i l_inLine l_inSlashStar l_inString].
  intros H0 Hi H. unfold parseStep in H.
  rewrite (rd_in src i) in H by lia. cbn [bind] in H.
  destruct ln; [invert_run H; injection H as <-; reflexivity |].
  destruct ss; [invert_run H; injection H as <-; reflexivity |].
  destruct str; [invert_run H; injection H as <-; reflexivity |].
  cbn [orb].
  destruct (at_ src i == "{"%byte) eqn:Eo;
    destruct (at_ src i == "}"%byte) eqn:Ec;
    invert_run H; try (injection H as <-); try reflexivity;
    try byte_contra; try discriminate.
Qed.

(** Every iteration moves the scanner as [lexStep] does. *)
Lemma parseStep_lex (build : bytes -> Z -> outcome Stmt)
    (src : bytes) (end_ : Z) (st st' : pstate) :
  0 <= p_last st -> p_last st <= p_i st -> p_i st < end_ ->
  end_ <= len src ->
  parseStep build src end_ st = Ok st' ->
  lexP st' = lexStep src end_ (lexP st) /\
  ((lexP st = Normal (p_i st) /\ at_ src (p_i st) = ";"%byte /\
    p_depth st = 0 /\ p_last st' = p_i st + 1) \/
   (~ (lexP st = Normal (p_i st) /\ at_ src (p_i st) = ";"%byte /\
       p_depth st = 0) /\
    p_nodes st' = p_nodes st /\ p_last st' = p_last st)).
Proof.
  intros H0 Hl Hi He Hstep.
  destruct (boundary_dec src st) as [(B1 & B2 & B3) | Hnb].
  - destruct (parseStep_boundary build src end_ st)
      as (k & _ & _ & _ & _ & _ & K6); try assumption.
    rewrite K6 in Hstep. cbv zeta in Hstep.
    assert (Hlex : lexStep src end_ (lexP st) = Normal (p_i st + 1)).
    { rewrite B1. apply lexStep_plain; rewrite B2; discriminate. }
    destruct (build (slice src k (p_i st + 1)) k);
      try discriminate Hstep; injection Hstep as <-;
      (split; [rewrite Hlex; reflexivity |]); left; repeat split; assumption.
  - destruct (parseStep_plain build src end_ st ltac:(lia) Hi He Hnb)
      as (st'' & P1 & P2 & P3 & P4 & _).
    assert (st'' = st') by congruence. subst st''.
    split; [exact P2 |]. right. repeat split; assumption.
Qed.

Lemma PReach_PSpec (build : bytes -> Z -> outcome Stmt) (src : bytes)
    (start end_ : Z) :
  0 <= start -> start <= end_ -> end_ <= len src ->
  forall st, PReach build src start end_ st -> PSpec src start end_ st.
Proof.
  intros Hs Hse He st HR.
  induction HR as [| st st' HR IH Hlt Hstep].
  - unfold PSpec. cbn [lexP p_i p_depth p_last p_inSlashStar p_inLine p_inString].
    split; [apply Synced_init; exact Hse |].
    rewrite slice_empty by lia. repeat split; try lia.
  - destruct IH as (I1 & I2 & I3 & I4).
    destruct (parseStep_lex build src end_ st st') as [Hlex Hcase];
      try lia; try assumption.
    pose proof (parseStep_depthStep build src end_ st st' ltac:(lia)
                  ltac:(lia) Hstep) as Hd.
    destruct (Synced_step src start end_ (lexP st) Hs He I1 Hlt)
      as (m & m' & j & lab & S1 & S2 & S3 & S4 & S5 & S6 & S7 & S8 & S9).
    change (l_i (lexP st)) with (p_i st) in *.
    assert (Hi' : p_i st' = p_i st + j).
    { change (p_i st') with (l_i (lexP st')).
      rewrite Hlex, S2. apply l_i_lexOf. }
    assert (Hj : 1 <= j) by (destruct S3 as [-> | [-> _]]; lia).
    unfold PSpec. rewrite Hlex. split; [exact S9 |]. split.
    + rewrite Hd, S6, I2, Hi'.
      destruct (prefix_step src start (p_i st) j lab _ _ Hs ltac:(lia)
                  ltac:(lia) S3 S5 0 0) as (D1 & _).
      cbv zeta in D1. rewrite D1. reflexivity.
    + destruct Hcase as [(_ & _ & _ & L) | (_ & _ & L)]; rewrite L; lia.
Qed.

Lemma stmtsOf_app (l1 l2 : list Node) :
  stmtsOf (l1 ++ l2) = stmtsOf l1 ++ stmtsOf l2.
Proof. apply flat_map_app. Qed.

Lemma lexOf_Normal (m : context) (i : Z) : Normal i = lexOf m i -> m = InNormal.
Proof. destruct m; intros H; [reflexivity | discriminate H ..]. Qed.

Section Boundaries.
Context {U : Unicode}.

(** The statements that the loop has emitted end at the statement
    boundaries of the specification that lie before the index. *)
Lemma PReach_ends (parse : Z -> Z -> outcome (list Node)) (src : bytes)
    (start end_ : Z) :
  0 <= start -> start <= end_ -> end_ <= len src ->
  forall st,
    PReach (buildStmt parse) src start end_ st ->
    map s_end (stmtsOf (p_nodes st)) =
    map (fun b => start + b + 1)
      (boundariesFrom 0 0 (slice src start (p_i st))
         (contexts (slice src start end_))).
Proof.
  intros Hs Hse He st HR.
  induction HR as [| st st' HR IH Hlt Hstep].
  - cbn [p_nodes p_i]. rewrite slice_empty by lia. reflexivity.
  - destruct (PReach_PSpec _ src start end_ Hs Hse He st HR)
      as (I1 & I2 & I3 & I4).
    destruct (parseStep_lex (buildStmt parse) src end_ st st')
      as [Hlex Hcase]; try lia; try assumption.
    destruct (Synced_step src start end_ (lexP st) Hs He I1 Hlt)
      as (m & m' & j & lab & S1 & S2 & S3 & S4 & S5 & S6 & S7 & S8 & S9).
    change (l_i (lexP st)) with (p_i st) in *.
    assert (Hi' : p_i st' = p_i st + j).
    { change (p_i st') with (l_i (lexP st')).
      rewrite Hlex, S2. apply l_i_lexOf. }
    assert (Hj : 1 <= j) by (destruct S3 as [-> | [-> _]]; lia).
    destruct (prefix_step src start (p_i st) j lab _ _ Hs ltac:(lia)
                ltac:(lia) S3 S5 0 0) as (_ & D2 & _).
    cbv zeta in D2. rewrite <- I2 in D2.
    rewrite Hi', D2, map_app, <- IH.
    destruct Hcase as [(B1 & B2 & B3 & _) | (Hnb & N1 & _)].
    + (* a statement boundary *)
      assert (Hm : m = InNormal).
      { apply (lexOf_Normal m (p_i st)). rewrite <- B1. exact S1. }
      assert (Hlab : lab = InNormal).
      { destruct lab; try reflexivity;
          (destruct (S8 Hm ltac:(discriminate)) as [H | [H | H]];
           rewrite B2 in H; discriminate H). }
      rewrite Hlab, B2, B3, beq_refl. cbn [andb Z.eqb map].
      destruct (parseStep_boundary (buildStmt parse) src end_ st)
        as (k & K1 & K2 & K3 & K4 & K5 & K6); try lia; try assumption.
      rewrite K6 in Hstep. cbv zeta in Hstep.
      destruct (buildStmt parse (slice src k (p_i st + 1)) k)
        as [s | e | |] eqn:Eb; try discriminate Hstep.
      * injection Hstep as <-. cbn [p_nodes].
        rewrite !stmtsOf_app, !map_app.
        destruct (buildStmt_raw _ _ _ _ Eb) as (_ & _ & Hend & _).
        rewrite len_slice in Hend by lia.
        assert (Hraw : stmtsOf
                         (if k >? p_last st
                          then [RawNode (mkRaw (slice src (p_last st) k)
                                           (p_last st) k)]
                          else []) = []).
        { destruct (k >? p_last st); reflexivity. }
        rewrite Hraw. cbn [map app stmtsOf flat_map]. rewrite app_nil_r.
        f_equal. f_equal. lia.
      * exfalso.
        assert (Herr : exists e,
                  buildStmt parse (slice src k (p_i st + 1)) k = Err e)
          by (exists e; exact Eb).
        pose proof (proj1 (buildStmt_err_iff _ _ _) Herr) as Hno.
        apply (Hno (p_i st - k)); try lia.
        -- rewrite len_slice by lia. lia.
        -- rewrite at_slice by lia.
           replace (k + (p_i st - k)) with (p_i st) by lia. exact B2.
    + (* any other unit *)
      rewrite N1.
      assert (Hnone : match lab with
                      | InNormal =>
                          if (at_ src (p_i st) == ";"%byte) &&
                             (p_depth st =? 0)
                          then [0 + (p_i st - start)] else []
                      | _ => []
                      end = []).
      { destruct lab; try reflexivity.
        destruct ((at_ src (p_i st) == ";"%byte) && (p_depth st =? 0)) eqn:E;
          [| reflexivity].
        exfalso. apply Hnb. bool_hyps.
        rewrite S1, (S7 eq_refl). repeat split; assumption. }
      rewrite Hnone. cbn [map]. rewrite app_nil_r. reflexivity.
Qed.

(** What [parseRange] returns: its statements end at the statement
    boundaries of the text of the range. *)
Lemma parseRange_ends (src : bytes) (fuel : nat) (a b : Z)
    (nodes : list Node) :
  0 <= a -> a <= b -> b <= len src ->
  parseRange fuel src a b = Ok nodes ->
  map s_end (stmtsOf nodes) =
  map (fun i => a + i + 1) (boundaries (slice src a b)).
Proof.
  intros Ha Hab Hb H. destruct fuel as [| f]; [discriminate H |].
  cbn [parseRange] in H.
  destruct (parseLoop (buildStmt (parseRange f src)) src b (Z.to_nat (b - a))
              (mkP [] a a 0 false false false)) as [st | | |] eqn:Eloop;
    cbn [bind] in H; try discriminate H.
  assert (HR : PReach (buildStmt (parseRange f src)) src a b st).
  { apply (parseLoop_reach _ _ _ _ _ _ _ (PReach_init _ _ _ _) Eloop). }
  pose proof (parseLoop_exit _ _ _ _ _ _ Eloop) as Hexit.
  destruct (PReach_PSpec _ src a b Ha Hab Hb st HR) as ((_ & Hle & _) & _).
  change (l_i (lexP st)) with (p_i st) in Hle.
  assert (Hi : p_i st = b) by lia.
  pose proof (PReach_ends _ src a b Ha Hab Hb st HR) as Hends.
  rewrite Hi in Hends. unfold boundaries.
  assert (Hst : map s_end (stmtsOf nodes) = map s_end (stmtsOf (p_nodes st))).
  { destruct (p_last st <? b).
    - destruct (sl src (p_last st) b); cbn [bind] in H; try discriminate H.
      injection H as <-. rewrite stmtsOf_app. cbn [stmtsOf flat_map app].
      rewrite app_nil_r. reflexivity.
    - injection H as <-. reflexivity. }
  rewrite Hst, Hends. reflexivity.
Qed.

End Boundaries.

(** ** The scanning loop of [buildStmt] *)

(** What an iteration does to the depth and to the two recorded
    braces. *)
Lemma scanStep_exact (seg : bytes) (st : bstate) :
  b_depth (scanStep seg st) = depthStep seg (lexB st) (b_depth st) /\
  b_braceOpen (scanStep seg st) =
    (if negb (b_inLine st || b_inSlashStar st || b_inString st) &&
        (at_ seg (b_i st) == "{"%byte) && (b_depth st =? 0) &&
        (b_braceOpen st <? 0)
     then b_i st else b_braceOpen st) /\
  b_braceClose (scanStep seg st) =
    (if negb (b_inLine st || b_inSlashStar st || b_inString st) &&
        (at_ seg (b_i st) == "}"%byte) &&
        (depthStep seg (lexB st) (b_depth st) =? 0) &&
        (b_braceOpen st >=? 0) && (b_braceClose st <? 0)
     then b_i st else b_braceClose st).
Proof.
  destruct st as [i depth ss ln str bo bc].
  unfold scanStep, depthStep, lexB;
    cbn [b_i b_depth b_inSlashStar b_inLine b_inString b_braceOpen
         b_braceClose l_i l_inLine l_inSlashStar l_inString].
  destruct ln;
    [cbn [orb negb andb]; repeat break_if; repeat split; reflexivity |].
  destruct ss;
    [cbn [orb negb andb]; repeat break_if; repeat split; reflexivity |].
  destruct str;
    [cbn [orb negb andb]; repeat break_if; repeat split; reflexivity |].
  cbn [orb negb andb].
  destruct (at_ seg i == "{"%byte) eqn:Eo;
    destruct (at_ seg i == "}"%byte) eqn:Ec;
    repeat break_if; bool_hyps;
    cbn [b_depth b_braceOpen b_braceClose andb];
    repeat split; try reflexivity; try byte_contra; try discriminate;
    try lia.
Qed.

Lemma open_close_excl (c : byte) :
  (c == "{"%byte) = true -> (c == "}"%byte) = false.
Proof. intros H. apply beq_eq in H. subst c. reflexivity. Qed.

Lemma BSpec_step (seg : bytes) (st : bstate) :
  BSpec seg st -> b_i st < len seg -> BSpec seg (scanStep seg st).
Proof.
  intros (I1 & I2 & I3 & I4 & I5 & I6) Hlt.
  pose proof (scanStep_lex seg st) as Hlex.
  destruct (scanStep_exact seg st) as (E1 & E2 & E3).
  destruct (Synced_step seg 0 (len seg) (lexB st) (Z.le_refl 0)
              (Z.le_refl (len seg)) I1 Hlt)
    as (m & m' & j & lab & S1 & S2 & S3 & S4 & S5 & S6 & S7 & S8 & S9).
  change (l_i (lexB st)) with (b_i st) in *.
  rewrite slice_full in S5.
  assert (H0 : 0 <= b_i st) by (destruct I1 as (H & _); exact H).
  assert (Hi' : b_i (scanStep seg st) = b_i st + j).
  { change (b_i (scanStep seg st)) with (l_i (lexB (scanStep seg st))).
    rewrite Hlex, S2. apply l_i_lexOf. }
  assert (Hj : 1 <= j) by (destruct S3 as [-> | [-> _]]; lia).
  destruct (prefix_step seg 0 (b_i st) j lab _ _ (Z.le_refl 0) H0
              ltac:(lia) S3 S5 0 0) as (D1 & _ & D3 & D4).
  cbv zeta in D1, D4. rewrite <- I2 in D1, D4.
  replace (0 + (b_i st - 0)) with (b_i st) in D3, D4 by lia.
  (* the flags and the context of the unit *)
  assert (Hflags : negb (b_inLine st || b_inSlashStar st || b_inString st) =
                   match m with InNormal => true | _ => false end).
  { change (b_inLine st) with (l_inLine (lexB st)).
    change (b_inSlashStar st) with (l_inSlashStar (lexB st)).
    change (b_inString st) with (l_inString (lexB st)).
    rewrite S1. destruct m; reflexivity. }
  assert (Hopen : negb (b_inLine st || b_inSlashStar st || b_inString st) &&
                  (at_ seg (b_i st) == "{"%byte) =
                  match lab with
                  | InNormal => at_ seg (b_i st) == "{"%byte
                  | _ => false
                  end).
  { rewrite Hflags. destruct lab;
      try (rewrite (S7 eq_refl); reflexivity);
      (destruct m; try reflexivity;
       destruct (S8 eq_refl ltac:(discriminate)) as [H | [H | H]];
       rewrite H; reflexivity). }
  assert (Hclose : negb (b_inLine st || b_inSlashStar st || b_inString st) &&
                   (at_ seg (b_i st) == "}"%byte) =
                   match lab with
                   | InNormal => at_ seg (b_i st) == "}"%byte
                   | _ => false
                   end).
  { rewrite Hflags. destruct lab;
      try (rewrite (S7 eq_refl); reflexivity);
      (destruct m; try reflexivity;
       destruct (S8 eq_refl ltac:(discriminate)) as [H | [H | H]];
       rewrite H; reflexivity). }
  rewrite Hopen in E2. rewrite Hclose, S6 in E3. rewrite S6 in E1.
  unfold BSpec. rewrite Hlex, Hi', D1, D3, D4, E1, E2, E3.
  split; [exact S9 |]. split; [reflexivity |].
  clear Hlex E1 E2 E3 Hopen Hclose Hflags S1 S2 S5 S6 S7 S8 S9 D1 D3 D4 I1.
  pose proof (open_close_excl (at_ seg (b_i st))) as Hex.
  unfold braceStep in *.
  destruct (firstOpenFrom 0 (slice seg 0 (b_i st)) (contexts seg))
    as [o |] eqn:Eo;
    [pose proof (firstOpenFrom_ge _ _ _ _ Eo) |];
    (destruct (firstCloseFrom 0 0 (slice seg 0 (b_i st)) (contexts seg))
       as [cl |] eqn:Ecl;
     [pose proof (firstCloseFrom_ge _ _ _ _ _ Ecl) |]);
    cbn [orMinus1] in *;
    destruct lab;
    destruct (at_ seg (b_i st) == "{"%byte);
    destruct (at_ seg (b_i st) == "}"%byte);
    try (specialize (Hex eq_refl); discriminate Hex);
    cbn [andb];
    repeat match goal with
           | |- context [?a <? ?b] => destruct (Z.ltb_spec a b)
           | |- context [?a >? ?b] => rewrite (Z.gtb_ltb a b)
           | |- context [?a >=? ?b] => rewrite (Z.geb_leb a b)
           | |- context [?a <=? ?b] => destruct (Z.leb_spec a b)
           | |- context [?a =? ?b] => destruct (Z.eqb_spec a b)
           end;
    cbn [andb orMinus1]; repeat split; try lia.
Qed.

Lemma BReach_BSpec (seg : bytes) (st : bstate) :
  BReach seg st -> BSpec seg st.
Proof.
  induction 1 as [| st HR IH Hlt].
  - unfold BSpec.
    cbn [lexB b_i b_depth b_inSlashStar b_inLine b_inString b_braceOpen
         b_braceClose].
    rewrite slice_empty by lia.
    split; [apply (Synced_init seg 0 (len seg)); apply len_nonneg |].
    repeat split; try reflexivity; lia.
  - apply BSpec_step; assumption.
Qed.

Lemma sl_ok (s : bytes) (a b : Z) (x : bytes) :
  sl s a b = Ok x -> x = slice s a b.
Proof.
  unfold sl. destruct ((0 <=? a) && (a <=? b) && (b <=? len s));
    [intros H; injection H as <-; reflexivity | discriminate].
Qed.

Section Decomposer.
Context {U : Unicode}.

(** What [buildStmt] returns, by the text of the segment: a block
    statement exactly when the segment has an opening brace in Normal
    context and a byte that brings the depth back to 0, and then the head
    ends before that opening brace. *)
Lemma buildStmt_block (parse : Z -> Z -> outcome (list Node))
    (seg : bytes) (absStart : Z) (s : Stmt) :
  buildStmt parse seg absStart = Ok s ->
  match firstOpen seg, firstClose seg with
  | Some o, Some c =>
      o < c /\ HasBlock s = true /\ HeadRaw s = slice seg 0 o
  | _, _ =>
      HasBlock s = false /\ HeadRaw s = slice seg 0 (LastIndexByte seg ";"%byte)
  end.
Proof.
  intros H. unfold buildStmt in H.
  destruct (scanLoop_inv seg (fuelFrom seg 0) (mkS 0 0 false false false (-1) (-1)))
    as (st & Hloop & Hinv & Hend).
  { apply ScanInv_init. }
  { unfold fuelFrom; cbn [b_i]; lia. }
  pose proof (scanLoop_reach seg _ _ _ (BReach_init seg) Hloop) as HR.
  apply BReach_BSpec in HR.
  destruct HR as (_ & _ & B3 & B4 & _ & _).
  rewrite Hend, slice_full in B3, B4.
  fold (firstOpen seg) in B3. fold (firstClose seg) in B4.
  rewrite Hloop in H; cbn [bind] in H.
  destruct (LastIndexByte seg ";"%byte <? 0); [discriminate H |].
  destruct Hinv as (_ & _ & _ & _ & I5 & I6).
  match type of H with
  | bind ?m _ = _ =>
      destruct m as [[[[[[hb head] lb] body] rb] tr] | | |] eqn:Ef
  end; cbn [bind] in H; try discriminate H.
  destruct (firstIdent head); cbn [bind] in H; try discriminate H.
  injection H as <-. cbn [HasBlock HeadRaw].
  destruct ((b_braceOpen st >=? 0) && (b_braceClose st >=? 0) &&
            (b_braceClose st >? b_braceOpen st)) eqn:Eblock.
  - apply andb_prop in Eblock; destruct Eblock as [Eb E3].
    apply andb_prop in Eb; destruct Eb as [E1 E2].
    apply Z.geb_le in E1, E2. apply Z.gtb_lt in E3.
    destruct (firstOpen seg) as [o |]; cbn [orMinus1] in B3; [| lia].
    destruct (firstClose seg) as [c |]; cbn [orMinus1] in B4; [| lia].
    subst o c.
    destruct (sl seg 0 (b_braceOpen st)) as [h | | |] eqn:Eh;
      cbn [bind] in Ef; try discriminate Ef.
    apply sl_ok in Eh.
    repeat match type of Ef with
           | bind ?m _ = Ok _ =>
               destruct m eqn:?; cbn [bind] in Ef; try discriminate Ef
           end.
    injection Ef as <- <- _ _ _ _.
    repeat split; [lia | exact Eh].
  - destruct (sl seg 0 (LastIndexByte seg ";"%byte)) as [h | | |] eqn:Eh;
      cbn [bind] in Ef; try discriminate Ef.
    apply sl_ok in Eh. injection Ef as <- <- _ _ _ _.
    assert (Hno : b_braceOpen st < 0 \/ b_braceClose st < 0).
    { destruct I6 as [I6 | (C1 & C2 & _)]; [lia |].
      exfalso.
      assert (E1 : (b_braceOpen st >=? 0) = true) by (apply Z.geb_le; lia).
      assert (E2 : (b_braceClose st >=? 0) = true) by (apply Z.geb_le; lia).
      assert (E3 : (b_braceClose st >? b_braceOpen st) = true)
        by (apply Z.gtb_lt; lia).
      rewrite E1, E2, E3 in Eblock. discriminate Eblock. }
    destruct (firstOpen seg) as [o |] eqn:Eo; [| split; [reflexivity | exact Eh]].
    destruct (firstClose seg) as [c |] eqn:Ec; [| split; [reflexivity | exact Eh]].
    cbn [orMinus1] in B3, B4.
    pose proof (firstOpenFrom_ge _ _ _ _ Eo).
    pose proof (firstCloseFrom_ge _ _ _ _ _ Ec).
    lia.
Qed.

End Decomposer.

(** The scanner is outside comments and strings at every byte that the
    specification labels Normal. *)
Lemma Normal_Run_aux (seg : bytes) (k : Z) :
  k < len seg ->
  nth_error (contexts seg) (Z.to_nat k) = Some InNormal ->
  forall (n : nat) (x : lex),
    Run seg (len seg) (Normal 0) x -> Synced seg 0 (len seg) x ->
    l_i x <= k -> (Z.to_nat (k - l_i x) <= n)%nat ->
    Run seg (len seg) (Normal 0) (Normal k).
Proof.
  intros Hk Hnth.
  induction n as [| n IH]; intros x HR HS Hle Hn.
  all: assert (H0 : 0 <= l_i x) by (destruct HS as (H & _); exact H).
  all: destruct (Synced_step seg 0 (len seg) x (Z.le_refl 0)
                   (Z.le_refl (len seg)) HS ltac:(lia))
         as (m & m' & j & lab & S1 & S2 & S3 & S4 & S5 & S6 & S7 & S8 & S9).
  all: rewrite slice_full in S5.
  all: assert (Hsk : nth_error (skipn (Z.to_nat (l_i x - 0)) (contexts seg))
                       (Z.to_nat (k - l_i x)) = Some InNormal)
         by (rewrite nth_error_skipn; rewrite <- Hnth; f_equal; lia).
  all: rewrite S5 in Hsk.
  all: assert (Hhere : l_i x = k -> Run seg (len seg) (Normal 0) (Normal k)).
  all: try (intros Heq; rewrite Heq, Z.sub_diag in Hsk;
            assert (Hlab : lab = InNormal)
              by (destruct S3 as [-> | [-> _]];
                  cbn in Hsk; injection Hsk as ->; reflexivity);
            rewrite (S7 Hlab) in S1; rewrite Heq in S1;
            change (lexOf InNormal k) with (Normal k) in S1;
            rewrite <- S1; exact HR).
  - apply Hhere. lia.
  - destruct (Z.eq_dec (l_i x) k) as [Heq | Hne]; [apply Hhere; exact Heq |].
    assert (Hstep : l_i (lexStep seg (len seg) x) = l_i x + j)
      by (rewrite S2; apply l_i_lexOf).
    assert (Hj : l_i x + j <= k).
    { destruct S3 as [-> | [-> Hlab]]; [lia |].
      destruct (Z.eq_dec (l_i x + 1) k) as [Heq |]; [| lia].
      exfalso. apply Hlab.
      replace (k - l_i x) with 1 in Hsk by lia.
      cbn in Hsk. injection Hsk as ->. reflexivity. }
    apply (IH (lexStep seg (len seg) x)).
    + apply Run_snoc; [exact HR | lia].
    + exact S9.
    + lia.
    + destruct S3 as [-> | [-> _]]; lia.
Qed.

Lemma Normal_Run (seg : bytes) (k : Z) :
  0 <= k -> k < len seg ->
  nth_error (contexts seg) (Z.to_nat k) = Some InNormal ->
  Run seg (len seg) (Normal 0) (Normal k).
Proof.
  intros H0 Hk Hnth.
  apply (Normal_Run_aux seg k Hk Hnth (Z.to_nat k) (Normal 0)).
  - apply Run_refl.
  - apply Synced_init. lia.
  - cbn [Normal l_i]. exact H0.
  - cbn [Normal l_i]. lia.
Qed.

(** ** The segments of the splitter, by their text *)

Lemma Run_Synced (s : bytes) (a e : Z) (x z : lex) :
  0 <= a -> e <= len s -> Run s e x z -> Synced s a e x -> Synced s a e z.
Proof.
  intros Ha He HR. induction HR as [x | x z Hi _ IH]; intros HS; [exact HS |].
  apply IH.
  destruct (Synced_step s a e x Ha He HS Hi)
    as (m & m' & j & lab & _ & _ & _ & _ & _ & _ & _ & _ & S9).
  exact S9.
Qed.

(** The scanner came from [last] outside comments and strings. *)
Lemma PReach_Run (build : bytes -> Z -> outcome Stmt) (src : bytes)
    (start end_ : Z) :
  0 <= start -> start <= end_ -> end_ <= len src ->
  forall st, PReach build src start end_ st ->
             Run src end_ (Normal (p_last st)) (lexP st).
Proof.
  intros Hs Hse He st HR.
  induction HR as [| st st' HR IH Hlt Hstep].
  - apply Run_refl.
  - destruct (PReach_PSpec build src start end_ Hs Hse He st HR)
      as (_ & _ & I3 & I4).
    destruct (parseStep_lex build src end_ st st')
      as [Hlex Hcase]; try lia; try assumption.
    rewrite Hlex.
    destruct Hcase as [(B1 & B2 & _ & B4) | (_ & _ & N2)].
    + rewrite B4, B1.
      rewrite lexStep_plain by (rewrite B2; discriminate).
      apply Run_refl.
    + rewrite N2. apply Run_snoc; [exact IH | exact Hlt].
Qed.

Lemma Normal_label (seg : bytes) (k : Z) :
  0 <= k -> k < len seg -> at_ seg k = ";"%byte ->
  Run seg (len seg) (Normal 0) (Normal k) ->
  nth_error (contexts seg) (Z.to_nat k) = Some InNormal.
Proof.
  intros H0 Hk Hsemi HR.
  assert (HS : Synced seg 0 (len seg) (Normal k)).
  { apply (Run_Synced seg 0 (len seg) (Normal 0)); try lia; [exact HR |].
    apply Synced_init. lia. }
  destruct (Synced_step seg 0 (len seg) (Normal k) (Z.le_refl 0)
              (Z.le_refl (len seg)) HS Hk)
    as (m & m' & j & lab & S1 & _ & S3 & _ & S5 & _ & _ & S8 & _).
  cbn [Normal l_i] in S1, S5, S8. rewrite slice_full in S5.
  assert (Hm : m = InNormal) by (apply (lexOf_Normal m k); exact S1).
  assert (Hnth : nth_error (contexts seg) (Z.to_nat k) = Some lab).
  { replace (Z.to_nat k) with (Z.to_nat (k - 0) + 0)%nat by lia.
    rewrite <- nth_error_skipn, S5.
    destruct S3 as [-> | [-> _]]; reflexivity. }
  rewrite Hnth. f_equal.
  destruct lab; try reflexivity;
    (destruct (S8 Hm ltac:(discriminate)) as [H | [H | H]];
     rewrite Hsemi in H; discriminate H).
Qed.

(** The segment that the splitter passes to [buildStmt] at a statement
    boundary ends with a semicolon in the Normal context. *)
Lemma boundary_segment (build : bytes -> Z -> outcome Stmt) (src : bytes)
    (start end_ : Z) (st : pstate) (k : Z) :
  0 <= start -> start <= end_ -> end_ <= len src ->
  PReach build src start end_ st -> p_i st < end_ ->
  lexP st = Normal (p_i st) -> at_ src (p_i st) = ";"%byte ->
  findStmtStart src (p_last st) (p_i st) = Ok k ->
  EndsInNormalSemicolon (slice src k (p_i st + 1)).
Proof.
  intros Hs Hse He HR Hlt Hlex Hsemi Hk.
  destruct (PReach_PSpec build src start end_ Hs Hse He st HR)
    as (_ & _ & I3 & I4).
  pose proof (PReach_Run build src start end_ Hs Hse He st HR) as Hrun.
  destruct (findStmtStart_spec src (p_last st) (p_i st))
    as (k' & K1 & K2 & K3 & K4 & _); try lia.
  rewrite K1 in Hk. injection Hk as <-.
  assert (Hsp : Run src end_ (Normal (p_last st)) (Normal k')).
  { apply (Run_spaces src end_ (Z.to_nat (k' - p_last st))); try lia.
    exact K4. }
  rewrite Hlex in Hrun.
  assert (Hseg : Run src end_ (Normal k') (Normal (p_i st))).
  { apply (Run_linear src end_ (Normal (p_last st))); assumption. }
  assert (Hlen : len (slice src k' (p_i st + 1)) = p_i st + 1 - k')
    by (apply len_slice; lia).
  unfold EndsInNormalSemicolon. rewrite Hlen.
  assert (Hat : at_ (slice src k' (p_i st + 1)) (p_i st + 1 - k' - 1) = ";"%byte).
  { rewrite at_slice by lia. rewrite <- Hsemi. f_equal. lia. }
  split; [lia |]. split; [exact Hat |].
  apply Normal_label; try lia; [exact Hat |].
  rewrite Hlen.
  pose proof (Run_shift src end_ k' (p_i st + 1) _ _ Hseg) as Hsh.
  unfold shift in Hsh; cbn [l_i Normal l_inSlashStar l_inLine l_inString] in Hsh.
  replace (k' - k') with 0 in Hsh by lia.
  replace (p_i st - k') with (p_i st + 1 - k' - 1) in Hsh by lia.
  apply Hsh; lia.
Qed.

Section SegmentOk.
Context {U : Unicode}.

(** On a segment that ends with a semicolon in the Normal context
    [buildStmt] returns a statement, provided the recursive call on the
    body returns. *)
Lemma buildStmt_returns (parse : Z -> Z -> outcome (list Node))
    (seg : bytes) (absStart : Z) :
  EndsInNormalSemicolon seg ->
  (forall a b, 1 <= a -> a <= b -> b <= len seg - 2 ->
     exists nodes, parse (absStart + a) (absStart + b) = Ok nodes) ->
  exists s, buildStmt parse seg absStart = Ok s /\ RawText s = seg.
Proof.
  intros (Hlen & Hsemi & Hnth) Hparse.
  destruct (buildStmt_ok parse seg absStart (fun _ => True))
    as (s & S1 & S2 & _); try assumption.
  - exact I.
  - apply Normal_Run; try lia. exact Hnth.
  - intros a b A1 A2 A3. destruct (Hparse a b A1 A2 A3) as (nodes & Hn).
    exists nodes. split; [exact Hn | exact I].
  - exists s. split; assumption.
Qed.

End SegmentOk.

(** ** The depth and the boundaries, as the claims state them *)

Lemma depthAt_in_context (text : bytes) (k : Z) (lab : context) :
  0 <= k -> k < len text ->
  nth_error (contexts text) (Z.to_nat k) = Some lab ->
  lab <> InNormal ->
  depthAt text (k + 1) = depthAt text k.
Proof.
  intros H0 Hk Hnth Hlab.
  destruct (nth_error_split _ _ Hnth) as (l1 & l2 & Hcs & Hl1).
  assert (Hsk : skipn (Z.to_nat (k - 0)) (contexts text) =
                repeat lab (Z.to_nat 1) ++ l2).
  { rewrite Hcs. replace (Z.to_nat (k - 0)) with (List.length l1 + 0)%nat by lia.
    rewrite skipn_app, skipn_all2 by lia.
    replace (List.length l1 + 0 - List.length l1)%nat with 0%nat by lia.
    reflexivity. }
  destruct (prefix_step text 0 k 1 lab l2 (contexts text) (Z.le_refl 0) H0
              ltac:(lia) (or_introl eq_refl) Hsk 0 0) as (D1 & _).
  cbv zeta in D1. unfold depthAt. rewrite D1.
  destruct lab; [contradiction Hlab; reflexivity | reflexivity ..].
Qed.

Lemma PReach_depthAt (build : bytes -> Z -> outcome Stmt) (src : bytes)
    (start end_ : Z) (st : pstate) :
  0 <= start -> start <= end_ -> end_ <= len src ->
  PReach build src start end_ st ->
  p_depth st = depthAt (slice src start end_) (p_i st - start).
Proof.
  intros Hs Hse He HR.
  destruct (PReach_PSpec build src start end_ Hs Hse He st HR)
    as ((S1 & S2 & _) & I2 & I3 & I4).
  change (l_i (lexP st)) with (p_i st) in S1, S2.
  unfold depthAt. rewrite slice_slice by lia.
  replace (start + 0) with start by lia.
  replace (start + (p_i st - start)) with (p_i st) by lia.
  exact I2.
Qed.

Section ParseEnds.
Context {U : Unicode}.

Lemma Parse_ends (src : bytes) :
  exists f, Parse src = Ok f /\
            map s_end (stmtsOf (Nodes f)) =
            map (fun i => i + 1) (boundaries src).
Proof.
  destruct (Parse_ok src) as (nodes & H1 & _).
  exists (mkFile nodes src). split; [exact H1 |]. cbn [Nodes].
  unfold Parse in H1.
  destruct (parseRange (S (List.length src)) src 0 (len src))
    as [nodes' | | |] eqn:Er; cbn [bind] in H1; try discriminate H1.
  injection H1 as ->.
  pose proof (len_nonneg src) as Hl.
  rewrite (parseRange_ends src _ 0 (len src) nodes (Z.le_refl 0) Hl
             (Z.le_refl (len src)) Er).
  rewrite slice_full. apply map_ext. intros i. lia.
Qed.

End ParseEnds.
Section Claims.
Context {U : Unicode}.

(** C1. Round-trip identity: for every input byte sequence [b], [Parse]
    returns a file in which no statement is marked modified, and [Bytes]
    of that file is exactly [b], byte for byte. *)
Theorem roundtrip_identity (b : bytes) :
  exists f, Parse b = Ok f /\
            Forall (everyStmt (fun s => Modified s = false)) (Nodes f) /\
            Bytes f = b.
Proof.
  destruct (Parse_ok b) as (nodes & H1 & H2 & H3).
  exists (mkFile nodes b); split; [assumption|]. split.
  - cbn [Nodes]. apply (Forall_everyStmt_impl Parsed); [|assumption].
    intros s Hs; apply Hs.
  - exact H2.
Qed.

(** C2. Context-sensitive brace tracking.  Every byte of a text has one
    of the four contexts of the specification ([contexts]: a quoted
    string with its backslash escapes, a line comment entered by a hash
    or by two slashes, a block comment, or Normal), and [depthAt] is the
    depth that counts the braces in the Normal context only: a byte in
    another context leaves it as it is.  Top-level splitting: in every
    state that the loop of [parseRange] reaches on a range, the depth
    counter is [depthAt] of the range at the index of the loop; the
    statements that [parseRange] emits on a range, and [Parse] on an
    input, end exactly at the semicolons in the Normal context at depth
    0 as so counted ([boundaries]).  Statement decomposition: in every
    state that the scanning loop of [buildStmt] reaches, the depth
    counter is [depthAt] of the segment, [braceOpen] is the first
    opening brace in the Normal context before the index and
    [braceClose] the first byte before the index at which the depth so
    counted comes back to 0; the statement that [buildStmt] returns has
    a block exactly when the segment has both, and then its head is the
    segment before that opening brace.  The input [zone "a{b" { };]
    parses to a single block statement with head [zone "a{b" ], and an
    opening brace in a hash comment, in a comment of two slashes, in a
    block comment or after an escaped double quote in a string opens no
    block and hides no semicolon. *)
Theorem braces_in_context_ignored :
  (forall text k lab,
     0 <= k -> k < len text ->
     nth_error (contexts text) (Z.to_nat k) = Some lab ->
     lab <> InNormal ->
     depthAt text (k + 1) = depthAt text k) /\
  (forall build src start end_ st,
     0 <= start -> start <= end_ -> end_ <= len src ->
     PReach build src start end_ st ->
     p_depth st = depthAt (slice src start end_) (p_i st - start)) /\
  (forall src fuel a b nodes,
     0 <= a -> a <= b -> b <= len src ->
     parseRange fuel src a b = Ok nodes ->
     map s_end (stmtsOf nodes) =
     map (fun i => a + i + 1) (boundaries (slice src a b))) /\
  (forall src, exists f,
     Parse src = Ok f /\
     map s_end (stmtsOf (Nodes f)) = map (fun i => i + 1) (boundaries src)) /\
  (forall seg st,
     BReach seg st ->
     b_depth st = depthAt seg (b_i st) /\
     b_braceOpen st =
       orMinus1 (firstOpenFrom 0 (slice seg 0 (b_i st)) (contexts seg)) /\
     b_braceClose st =
       orMinus1 (firstCloseFrom 0 0 (slice seg 0 (b_i st)) (contexts seg))) /\
  (forall parse seg absStart s,
     buildStmt parse seg absStart = Ok s ->
     match firstOpen seg, firstClose seg with
     | Some o, Some c =>
         o < c /\ HasBlock s = true /\ HeadRaw s = slice seg 0 o
     | _, _ =>
         HasBlock s = false /\
         HeadRaw s = slice seg 0 (LastIndexByte seg ";"%byte)
     end) /\
  (exists s, Parse zoneSrc = Ok (mkFile [StmtNode s] zoneSrc) /\
             HasBlock s = true /\
             HeadRaw s = B "zone " ++ [dq] ++ B "a{b" ++ [dq] ++ B " " /\
             Body s = []) /\
  (exists s, Parse hashBraceSrc = Ok (mkFile [StmtNode s] hashBraceSrc) /\
             HasBlock s = false /\
             HeadRaw s = B "a # {" ++ [nl] ++ B "b") /\
  (exists s, Parse slashBraceSrc = Ok (mkFile [StmtNode s] slashBraceSrc) /\
             HasBlock s = false /\
             HeadRaw s = B "a // {" ++ [nl] ++ B "b") /\
  (exists s, Parse starBraceSrc = Ok (mkFile [StmtNode s] starBraceSrc) /\
             HasBlock s = false /\ HeadRaw s = B "a /* { */ b") /\
  (exists s, Parse escapedQuoteSrc = Ok (mkFile [StmtNode s] escapedQuoteSrc) /\
             HasBlock s = false /\
             HeadRaw s = B "a " ++ [dq; bsl; dq] ++ B "{" ++ [dq] ++ B " b").
Proof.
  split.
  { intros text k lab H0 Hk Hnth Hlab.
    exact (depthAt_in_context text k lab H0 Hk Hnth Hlab). }
  split.
  { intros build src start end_ st Hs Hse He HR.
    exact (PReach_depthAt build src start end_ st Hs Hse He HR). }
  split.
  { intros src fuel a b nodes Ha Hab Hb H.
    exact (parseRange_ends src fuel a b nodes Ha Hab Hb H). }
  split.
  { intros src. exact (Parse_ends src). }
  split.
  { intros seg st HR. destruct (BReach_BSpec seg st HR) as (_ & B2 & B3 & B4 & _).
    repeat split; assumption. }
  split.
  { intros parse seg absStart s H. exact (buildStmt_block parse seg absStart s H). }
  repeat split; eexists; (split; [vm_compute; reflexivity|]); repeat split; reflexivity.
Qed.

(** C3. Parse totality: on every input [Parse] returns a file and no
    error (it does not panic either).  At a statement boundary an error of
    the decomposer is absorbed: the iteration returns normally, having
    appended a [Raw] node over exactly the bytes of the segment; and with
    a decomposer that fails on any of its segments the loop still returns
    nodes that serialize to the range. *)
Theorem Parse_total :
  (forall src, exists nodes, Parse src = Ok (mkFile nodes src)) /\
  (forall build src start end_,
     0 <= start -> start <= end_ -> end_ <= len src ->
     (forall seg k,
        (exists s, build seg k = Ok s /\ RawText s = seg /\ Modified s = false) \/
        (exists e, build seg k = Err e)) ->
     exists st,
       parseLoop build src end_ (Z.to_nat (end_ - start))
         (mkP [] start start 0 false false false) = Ok st /\
       writeNodes
         (p_nodes st ++
          (if p_last st <? end_
           then [RawNode (mkRaw (slice src (p_last st) end_) (p_last st) end_)]
           else [])) [] = slice src start end_) /\
  (forall build src end_ st e,
     0 <= p_last st -> p_last st <= p_i st -> p_i st < end_ ->
     end_ <= len src ->
     lexP st = Normal (p_i st) -> at_ src (p_i st) = ";"%byte ->
     p_depth st = 0 ->
     exists k,
       findStmtStart src (p_last st) (p_i st) = Ok k /\
       (build (slice src k (p_i st + 1)) k = Err e ->
        parseStep build src end_ st =
        Ok (mkP
              ((p_nodes st ++
                (if k >? p_last st
                 then [RawNode (mkRaw (slice src (p_last st) k) (p_last st) k)]
                 else [])) ++
               [RawNode (mkRaw (slice src k (p_i st + 1)) k (p_i st + 1))])
              (p_i st + 1) (p_i st + 1) 0 false false false))).
Proof.
  split; [|split].
  - intros src. destruct (Parse_ok src) as (nodes & H & _).
    exists nodes; assumption.
  - exact parseLoop_tolerant.
  - intros build src end_ st e H1 H2 H3 H4 H5 H6 H7.
    destruct (parseStep_boundary build src end_ st H1 H2 H3 H4 H5 H6 H7)
      as (k & K1 & _ & _ & _ & _ & K6).
    exists k; split; [assumption|].
    intros He. rewrite K6; cbv zeta. rewrite He. reflexivity.
Qed.

(** C4.  The code against the claim, on a comment line followed by
    [foo;]: [findStmtStart] skips white space only and stops at the hash,
    so that [Parse] returns one statement that spans the whole input from
    offset 0, with the comment at the front of its [RawText] and of its
    [HeadRaw]; no [Raw] node holds the comment.  After [a;] in
    [twoStmtSrc] the [Raw] node is the space alone, and the second
    statement starts at the comment. *)
Theorem comment_absorbed_by_stmt :
  findStmtStart commentSrc 0 7 = Ok 0 /\
  Parse commentSrc =
    Ok (mkFile
          [StmtNode (mkStmt (B "# c" ++ [nl] ++ B "foo;") 0 8 (B "foo")
                       (B "# c" ++ [nl] ++ B "foo") false [] [] [] [] false)]
          commentSrc) /\
  findStmtStart twoStmtSrc 2 8 = Ok 3 /\
  Parse twoStmtSrc =
    Ok (mkFile
          [StmtNode (mkStmt (B "a;") 0 2 (B "a") (B "a") false [] [] [] []
                       false);
           RawNode (mkRaw (B " ") 2 3);
           StmtNode (mkStmt (B "# c" ++ [nl] ++ B "b;") 3 9 (B "b")
                       (B "# c" ++ [nl] ++ B "b") false [] [] [] [] false)]
          twoStmtSrc).
Proof. repeat split; vm_compute; reflexivity. Qed.

(** The start of the statement that the splitter emits at a semicolon:
    the index [k] that [findStmtStart] reaches from [last] over spaces
    only.  The spaces, if any, are the preceding [Raw] node, and the
    statement, if [buildStmt] returns one, spans [src[k:i+1]]. *)
Lemma stmt_start_after_spaces (parse : Z -> Z -> outcome (list Node))
    (src : bytes) (end_ : Z) (st st' : pstate) :
  0 <= p_last st -> p_last st <= p_i st -> p_i st < end_ ->
  end_ <= len src ->
  lexP st = Normal (p_i st) -> at_ src (p_i st) = ";"%byte ->
  p_depth st = 0 ->
  parseStep (buildStmt parse) src end_ st = Ok st' ->
  exists k n,
    findStmtStart src (p_last st) (p_i st) = Ok k /\
    p_last st <= k /\ k <= p_i st /\
    (forall j, p_last st <= j -> j < k -> isSpace (at_ src j) = true) /\
    (k < p_i st -> isSpace (at_ src k) = false) /\
    p_nodes st' =
      (p_nodes st ++
       (if k >? p_last st
        then [RawNode (mkRaw (slice src (p_last st) k) (p_last st) k)]
        else [])) ++ [n] /\
    (forall s, n = StmtNode s ->
       RawText s = slice src k (p_i st + 1) /\
       s_start s = k /\ s_end s = p_i st + 1).
Proof.
  intros H1 H2 H3 H4 H5 H6 H7 Hstep.
  destruct (parseStep_boundary (buildStmt parse) src end_ st H1 H2 H3 H4 H5 H6 H7)
    as (k & K1 & K2 & K3 & K4 & K5 & K6).
  rewrite K6 in Hstep; cbv zeta in Hstep.
  destruct (buildStmt parse (slice src k (p_i st + 1)) k) as [s| e | |] eqn:Eb;
    try discriminate Hstep; injection Hstep as <-; cbn [p_nodes].
  - exists k, (StmtNode s).
    do 5 (split; [assumption|]). split; [reflexivity|].
    intros s' Hs'; injection Hs' as <-.
    destruct (buildStmt_raw _ _ _ _ Eb) as (R1 & R2 & R3 & _).
    split; [assumption|]. split; [assumption|].
    rewrite R3, len_slice by lia. lia.
  - exists k, (RawNode (mkRaw (slice src k (p_i st + 1)) k (p_i st + 1))).
    do 5 (split; [assumption|]). split; [reflexivity|].
    intros s' Hs'; discriminate Hs'.
Qed.

(** C5, as amended.  A statement with [Modified] and [HasBlock] is
    written as the right-trimmed [HeadRaw] (or [Keyword] when the trimmed
    [HeadRaw] is empty), then [ {]; if [Body] is non-empty a newline, the
    serialized output of every body node with every line prefixed by two
    spaces, and a newline unless one is already there, so that a newline
    stands immediately before the closing brace; then [}] and [;].  With
    an empty [Body] the braces are written as [{};]. *)
Theorem regen_block_format (s : Stmt) (buf : bytes) :
  Modified s = true -> HasBlock s = true ->
  writeTo (StmtNode s) buf = buf ++ regenBlock s /\
  (Body s = [] ->
   writeTo (StmtNode s) buf = buf ++ blockHead s ++ B " {};") /\
  (Body s <> [] ->
   exists pad,
     (pad = [] \/ pad = [nl]) /\
     lastByte ([nl] ++ bodyText (Body s) ++ pad) = nl /\
     writeTo (StmtNode s) buf =
     buf ++ blockHead s ++ B " {" ++ [nl] ++ bodyText (Body s) ++ pad ++ B "};").
Proof.
  intros Hm Hb. rewrite (writeTo_block s buf Hm Hb).
  split; [reflexivity|]. unfold regenBlock. split.
  - intros ->. reflexivity.
  - intros Hne. destruct (Body s) as [|n body]; [contradiction|].
    set (text := bodyText (n :: body)). unfold closeLine.
    destruct (lastByte ([nl] ++ text) == nl) eqn:E.
    + exists []. rewrite app_nil_r. apply beq_eq in E.
      split; [left; reflexivity|]. split; [assumption|].
      cbn [app]. reflexivity.
    + exists [nl]. split; [right; reflexivity|]. split.
      * rewrite app_assoc. apply lastByte_app; discriminate.
      * rewrite <- !app_assoc. reflexivity.
Qed.

(** C6, as amended.  [buildStmt] returns an error exactly when its
    segment holds no semicolon.  On every segment that ends with a
    semicolon in the Normal context it returns a statement and no error,
    provided the recursive parse of the body of a block returns, as
    [parseRange] with fuel for the segment does; and the segments that
    the loop of [parseRange] passes to it at a statement boundary all
    end with a semicolon in the Normal context. *)
Theorem buildStmt_on_segments :
  (forall parse seg absStart,
     (exists e, buildStmt parse seg absStart = Err e) <->
     (forall j, 0 <= j -> j < len seg -> at_ seg j <> ";"%byte)) /\
  (forall parse seg absStart,
     EndsInNormalSemicolon seg ->
     (forall a b, 1 <= a -> a <= b -> b <= len seg - 2 ->
        exists nodes, parse (absStart + a) (absStart + b) = Ok nodes) ->
     exists s, buildStmt parse seg absStart = Ok s /\ RawText s = seg) /\
  (forall src fuel k e,
     0 <= k -> k <= e -> e <= len src -> e - k <= Z.of_nat fuel ->
     EndsInNormalSemicolon (slice src k e) ->
     exists s, buildStmt (parseRange fuel src) (slice src k e) k = Ok s /\
               RawText s = slice src k e) /\
  (forall build src start end_ st k,
     0 <= start -> start <= end_ -> end_ <= len src ->
     PReach build src start end_ st -> p_i st < end_ ->
     lexP st = Normal (p_i st) -> at_ src (p_i st) = ";"%byte ->
     p_depth st = 0 ->
     findStmtStart src (p_last st) (p_i st) = Ok k ->
     EndsInNormalSemicolon (slice src k (p_i st + 1))).
Proof.
  split.
  { intros parse seg absStart. exact (buildStmt_err_iff parse seg absStart). }
  split.
  { intros parse seg absStart Hseg Hparse.
    exact (buildStmt_returns parse seg absStart Hseg Hparse). }
  split.
  { intros src fuel k e Hk Hke He Hfuel Hseg.
    apply buildStmt_returns; [exact Hseg |].
    intros a b A1 A2 A3.
    assert (Hlen : len (slice src k e) = e - k) by (apply len_slice; lia).
    destruct (parseRange_ok fuel src (k + a) (k + b))
      as (nodes & Hn & _); try lia.
    exists nodes. exact Hn. }
  intros build src start end_ st k Hs Hse He HR Hlt Hlex Hsemi _ Hk.
  exact (boundary_segment build src start end_ st k Hs Hse He HR Hlt Hlex
           Hsemi Hk).
Qed.

(** C7, as amended.  A statement that is not marked modified and whose
    [RawText] is not empty is written as exactly its [RawText], whatever
    its structured fields hold. *)
Theorem unmodified_verbatim (s : Stmt) (buf : bytes) :
  Modified s = false -> RawText s <> [] ->
  writeTo (StmtNode s) buf = buf ++ RawText s.
Proof. apply writeTo_unmodified. Qed.

(** C8, as amended.  [AppendToBody] on a simple statement makes it a block
    statement: [HasBlock] is set, the body is the given node alone,
    [TrailingAfterR] is empty, the braces are [ {] and [}], [Modified] is
    set and the other fields stay.  The statement is then written as its
    head, [ {], a newline, the content of the node with every line
    indented by two spaces, a newline unless the indented content is empty
    or ends with one, and [};]: when the content is not empty and does not
    end with a newline, as head, [ {], newline, indented content, newline,
    [};]. *)
Theorem AppendToBody_upgrade (s : Stmt) (n : Node) (buf : bytes) :
  HasBlock s = false ->
  HasBlock (AppendToBody s n) = true /\
  Body (AppendToBody s n) = [n] /\
  TrailingAfterR (AppendToBody s n) = [] /\
  LBraceRaw (AppendToBody s n) = B " {" /\
  RBraceRaw (AppendToBody s n) = B "}" /\
  Modified (AppendToBody s n) = true /\
  HeadRaw (AppendToBody s n) = HeadRaw s /\
  Keyword (AppendToBody s n) = Keyword s /\
  RawText (AppendToBody s n) = RawText s /\
  writeTo (StmtNode (AppendToBody s n)) buf =
    buf ++ blockHead s ++ B " {" ++
    closeLine ([nl] ++ indent (writeTo n [])) ++ B "};" /\
  (writeTo n [] <> [] -> lastByte (writeTo n []) <> nl ->
   writeTo (StmtNode (AppendToBody s n)) buf =
     buf ++ blockHead s ++ B " {" ++ [nl] ++ indent (writeTo n []) ++
     [nl] ++ B "};") /\
  (writeTo n [] <> [] -> Forall (fun c => c <> nl) (writeTo n []) ->
   writeTo (StmtNode (AppendToBody s n)) buf =
     buf ++ blockHead s ++ B " {" ++ [nl] ++ B "  " ++ writeTo n [] ++
     [nl] ++ B "};").
Proof.
  intros Hb.
  assert (Hw : writeTo (StmtNode (AppendToBody s n)) buf =
               buf ++ blockHead s ++ B " {" ++
               closeLine ([nl] ++ indent (writeTo n [])) ++ B "};").
  { rewrite writeTo_block; unfold AppendToBody; rewrite Hb; try reflexivity.
    unfold regenBlock, blockHead, bodyText; cbn [negb HeadRaw Keyword Body app map List.concat].
    rewrite app_nil_r. reflexivity. }
  unfold AppendToBody at 1 2 3 4 5 6 7 8 9. rewrite Hb.
  cbn [negb HasBlock Body TrailingAfterR LBraceRaw RBraceRaw Modified HeadRaw Keyword RawText app].
  do 9 (split; [reflexivity|]). split; [exact Hw|].
  assert (Hgen : writeTo n [] <> [] -> lastByte (writeTo n []) <> nl ->
                 writeTo (StmtNode (AppendToBody s n)) buf =
                 buf ++ blockHead s ++ B " {" ++ [nl] ++ indent (writeTo n []) ++
                 [nl] ++ B "};").
  { intros Hne Hlast. rewrite Hw. unfold closeLine, indent.
    rewrite lastByte_app
      by (destruct (writeTo n []); [contradiction | cbn; discriminate]).
    rewrite lastByte_indentFrom by assumption.
    rewrite (neq_beq _ _ Hlast). rewrite <- !app_assoc. reflexivity. }
  split; [exact Hgen|].
  intros Hne Hline. rewrite Hgen; [|assumption|].
  - rewrite (indent_line _ Hne Hline). rewrite <- !app_assoc. reflexivity.
  - apply Forall_lastByte; assumption.
Qed.


(** C10. The brace depth never goes negative: it is at least 0 in every
    state that the loop of [parseRange] and the scanning loop of
    [buildStmt] go through.  A closing brace read outside comments and
    strings at depth 0 leaves the depth at 0 and the scanner in the normal
    context, so that the semicolons that follow unmatched closing braces
    still end statements. *)
Theorem depth_never_negative :
  (forall build src start end_ st,
     PReach build src start end_ st -> 0 <= p_depth st) /\
  (forall seg st, BReach seg st -> 0 <= b_depth st) /\
  (forall build src end_ st,
     0 <= p_i st -> p_i st < len src ->
     lexP st = Normal (p_i st) -> at_ src (p_i st) = "}"%byte ->
     p_depth st = 0 ->
     parseStep build src end_ st =
     Ok (mkP (p_nodes st) (p_i st + 1) (p_last st) 0 false false false)) /\
  (forall seg st,
     lexB st = Normal (b_i st) -> at_ seg (b_i st) = "}"%byte ->
     b_depth st = 0 ->
     b_depth (scanStep seg st) = 0 /\
     lexB (scanStep seg st) = Normal (b_i st + 1)) /\
  (exists s1 r s2,
     Parse (B "}} a; b;") =
       Ok (mkFile [StmtNode s1; RawNode r; StmtNode s2] (B "}} a; b;")) /\
     RawText s1 = B "}} a;" /\ Text r = B " " /\ RawText s2 = B "b;").
Proof.
  split; [exact PReach_depth|].
  split; [exact BReach_depth|].
  split.
  { intros build src end_ st H0 Hi Hlex Hc Hd.
    rewrite (parseStep_close build src end_ st H0 Hi Hlex Hc), Hd.
    reflexivity. }
  split.
  { intros seg st Hlex Hc Hd.
    destruct (scanStep_close seg st Hlex Hc) as [H1 H2].
    rewrite H1, Hd. split; [reflexivity | assumption]. }
  eexists; eexists; eexists.
  split; [vm_compute; reflexivity|]. repeat split; reflexivity.
Qed.

End Claims.

(** ** The properties on concrete inputs

    The inputs below are ASCII, so the slow paths of package strings are
    not taken and the instance of [Unicode] does not matter. *)

Lemma commentSrc_parse (U : Unicode) :
  Parse commentSrc =
  Ok (mkFile
        [StmtNode (mkStmt commentSrc 0 8 (B "foo") (B "# c" ++ [nl] ++ B "foo")
                     false [] [] [] [] false)]
        commentSrc).
Proof. reflexivity. Qed.

Lemma recursionNo_parse (U : Unicode) :
  Parse (B "recursion no;") =
  Ok (mkFile [StmtNode recursionNo] (B "recursion no;")).
Proof. reflexivity. Qed.

Lemma fooBar_new (U : Unicode) : NewSimpleStmt (B "foo bar") = Ok fooBar.
Proof. reflexivity. Qed.

Lemma blankHeadStmt_origin (U : Unicode) :
  exists s, Parse (B "k { };") = Ok (mkFile [StmtNode s] (B "k { };")) /\
            ReplaceHead s (B " ") = blankHeadStmt.
Proof. eexists; split; reflexivity. Qed.

Ltac evaluate := vm_compute; try reflexivity; try (intros X; discriminate X).

(** C2 on the input of a quoted brace and a semicolon: in the loop of
    [parseRange] after the brace, in the scanning loop of [buildStmt]
    after the brace, and on the statement that [buildStmt] returns on a
    brace in a hash comment. *)
Lemma braces_in_context_ignored_witness :
  depthAt quotedBraceSrc (1 + 1) = depthAt quotedBraceSrc 1 /\
  p_depth (mkP [] 2 0 0 false false true) =
    depthAt (slice quotedBraceSrc 0 4) (2 - 0) /\
  (b_depth (scanStep quotedBraceSrc (scanStep quotedBraceSrc
              (mkS 0 0 false false false (-1) (-1)))) =
     depthAt quotedBraceSrc 2 /\
   b_braceOpen (scanStep quotedBraceSrc (scanStep quotedBraceSrc
                  (mkS 0 0 false false false (-1) (-1)))) =
     orMinus1 (firstOpenFrom 0 (slice quotedBraceSrc 0 2)
                 (contexts quotedBraceSrc)) /\
   b_braceClose (scanStep quotedBraceSrc (scanStep quotedBraceSrc
                   (mkS 0 0 false false false (-1) (-1)))) =
     orMinus1 (firstCloseFrom 0 0 (slice quotedBraceSrc 0 2)
                 (contexts quotedBraceSrc))) /\
  (exists s,
     @buildStmt asciiOnly (fun _ _ => Ok []) hashBraceSrc 0 = Ok s /\
     match firstOpen hashBraceSrc, firstClose hashBraceSrc with
     | Some o, Some c =>
         o < c /\ HasBlock s = true /\ HeadRaw s = slice hashBraceSrc 0 o
     | _, _ =>
         HasBlock s = false /\
         HeadRaw s = slice hashBraceSrc 0 (LastIndexByte hashBraceSrc ";"%byte)
     end).
Proof.
  split; [| split; [| split]].
  - apply (proj1 (@braces_in_context_ignored asciiOnly) quotedBraceSrc 1
             InQuotedString); evaluate.
  - apply (proj1 (proj2 (@braces_in_context_ignored asciiOnly))
             (fun _ _ => Panic) quotedBraceSrc 0 4
             (mkP [] 2 0 0 false false true)); try evaluate.
    apply (PReach_step _ _ _ _ (mkP [] 1 0 0 false false true));
      [| evaluate | reflexivity].
    apply (PReach_step _ _ _ _ (mkP [] 0 0 0 false false false));
      [| evaluate | reflexivity].
    apply PReach_init.
  - apply (proj1 (proj2 (proj2 (proj2 (proj2
             (@braces_in_context_ignored asciiOnly)))))
             quotedBraceSrc).
    apply BReach_step; [| evaluate].
    apply BReach_step; [| evaluate].
    apply BReach_init.
  - eexists. split; [reflexivity |].
    apply (proj1 (proj2 (proj2 (proj2 (proj2 (proj2
             (@braces_in_context_ignored asciiOnly))))))
             (fun _ _ => Ok []) hashBraceSrc 0).
    reflexivity.
Defined.

(** C3 on the input [a;] with a decomposer that fails. *)
Lemma Parse_total_witness :
  (exists nodes, @Parse asciiOnly (B "a;") = Ok (mkFile nodes (B "a;"))) /\
  (exists st,
     parseLoop (fun _ _ => Err MissingSemicolon) (B "a;") 2 (Z.to_nat (2 - 0))
       (mkP [] 0 0 0 false false false) = Ok st /\
     writeNodes
       (p_nodes st ++
        (if p_last st <? 2
         then [RawNode (mkRaw (slice (B "a;") (p_last st) 2) (p_last st) 2)]
         else [])) [] = slice (B "a;") 0 2) /\
  (exists k,
     findStmtStart (B "a;") 0 1 = Ok k /\
     parseStep (fun _ _ => Err MissingSemicolon) (B "a;") 2
       (mkP [] 1 0 0 false false false) =
     Ok (mkP
           (([] ++
             (if k >? 0 then [RawNode (mkRaw (slice (B "a;") 0 k) 0 k)] else [])) ++
            [RawNode (mkRaw (slice (B "a;") k (1 + 1)) k (1 + 1))])
           (1 + 1) (1 + 1) 0 false false false)).
Proof.
  split; [|split].
  - apply (proj1 (@Parse_total asciiOnly)).
  - apply (proj1 (proj2 (@Parse_total asciiOnly))
             (fun _ _ => Err MissingSemicolon) (B "a;") 0 2); try evaluate.
    intros seg k; right; exists MissingSemicolon; reflexivity.
  - destruct (proj2 (proj2 (@Parse_total asciiOnly))
                (fun _ _ => Err MissingSemicolon) (B "a;") 2
                (mkP [] 1 0 0 false false false) MissingSemicolon)
      as (k & K1 & K2); try evaluate.
    exists k; split; [exact K1 | apply K2; reflexivity].
Defined.

(** C6 as stated fails on the segment [;{}]: it holds a semicolon, and
    [buildStmt] returns neither a statement nor an error (the slice
    [seg[rbEnd:semi]] has [rbEnd = 3 > semi = 0]). *)
Lemma semicolon_segment_counterexample :
  at_ (B ";{}") 0 = ";"%byte /\
  @buildStmt asciiOnly (fun _ _ => Ok []) (B ";{}") 0 = Panic /\
  ~ (exists s, @buildStmt asciiOnly (fun _ _ => Ok []) (B ";{}") 0 = Ok s).
Proof.
  split; [reflexivity |]. split; [reflexivity |].
  intros (s & Hs). discriminate Hs.
Defined.

(** C6 as amended, on the segment [a;]. *)
Lemma buildStmt_on_segments_witness :
  exists s, @buildStmt asciiOnly (fun _ _ => Ok []) (B "a;") 0 = Ok s /\
            RawText s = B "a;".
Proof.
  apply (proj1 (proj2 (@buildStmt_on_segments asciiOnly))
           (fun _ _ => Ok []) (B "a;") 0).
  - repeat split; evaluate.
  - intros a b _ _ _. exists []. reflexivity.
Defined.

(** C5 as stated fails on a block statement whose head was replaced by a
    space: [HeadRaw] is not empty, yet the keyword is written, not the
    (empty) right-trimmed [HeadRaw]. *)
Lemma blank_head_counterexample :
  Modified blankHeadStmt = true /\ HasBlock blankHeadStmt = true /\
  HeadRaw blankHeadStmt <> [] /\
  writeTo (StmtNode blankHeadStmt) [] = B "k {};" /\
  writeTo (StmtNode blankHeadStmt) [] <>
    trimRightSpace (HeadRaw blankHeadStmt) ++ B " {" ++ B "}" ++ B ";".
Proof. repeat split; evaluate. Defined.

(** C5 as amended, on [recursion no;] with a comment line appended. *)
Lemma regen_block_format_witness :
  writeTo (StmtNode (AppendToBody recursionNo noteLine)) [] =
    [] ++ regenBlock (AppendToBody recursionNo noteLine) /\
  (Body (AppendToBody recursionNo noteLine) = [] ->
   writeTo (StmtNode (AppendToBody recursionNo noteLine)) [] =
     [] ++ blockHead (AppendToBody recursionNo noteLine) ++ B " {};") /\
  (Body (AppendToBody recursionNo noteLine) <> [] ->
   exists pad,
     (pad = [] \/ pad = [nl]) /\
     lastByte ([nl] ++ bodyText (Body (AppendToBody recursionNo noteLine)) ++ pad) = nl /\
     writeTo (StmtNode (AppendToBody recursionNo noteLine)) [] =
     [] ++ blockHead (AppendToBody recursionNo noteLine) ++ B " {" ++ [nl] ++
     bodyText (Body (AppendToBody recursionNo noteLine)) ++ pad ++ B "};").
Proof.
  apply (regen_block_format (AppendToBody recursionNo noteLine) []); reflexivity.
Defined.

(** C7 as stated fails on [headOnlyStmt]: not marked modified, it is
    written as [x;], which is not its (empty) [RawText]. *)
Lemma empty_rawtext_counterexample :
  Modified headOnlyStmt = false /\
  writeTo (StmtNode headOnlyStmt) [] = B "x;" /\
  writeTo (StmtNode headOnlyStmt) [] <> RawText headOnlyStmt.
Proof. repeat split; evaluate. Defined.

(** C7 as amended, on the parsed statement [recursion no;]. *)
Lemma unmodified_verbatim_witness :
  writeTo (StmtNode recursionNo) [] = [] ++ RawText recursionNo.
Proof.
  apply (unmodified_verbatim recursionNo []); [reflexivity | discriminate].
Defined.

(** C8 as stated fails when the appended node is a comment line: the
    content ends with a newline and no second newline is written before
    the closing brace. *)
Lemma append_newline_counterexample :
  HasBlock recursionNo = false /\
  writeTo noteLine [] = B "# note" ++ [nl] /\
  writeTo (StmtNode (AppendToBody recursionNo noteLine)) [] =
    B "recursion no {" ++ [nl] ++ B "  # note" ++ [nl] ++ B "};" /\
  writeTo (StmtNode (AppendToBody recursionNo noteLine)) [] <>
    B "recursion no" ++ B " {" ++ [nl] ++ indent (writeTo noteLine []) ++
    [nl] ++ B "};".
Proof. repeat split; evaluate. Defined.

(** C8 as amended, on the parsed statement [recursion no;] and the
    statement of [NewSimpleStmt("foo bar")]. *)
Lemma AppendToBody_upgrade_witness :
  @Parse asciiOnly (B "recursion no;") =
    Ok (mkFile [StmtNode recursionNo] (B "recursion no;")) /\
  @NewSimpleStmt asciiOnly (B "foo bar") = Ok fooBar /\
  Body (AppendToBody recursionNo (StmtNode fooBar)) = [StmtNode fooBar] /\
  writeTo (StmtNode (AppendToBody recursionNo (StmtNode fooBar))) [] =
    B "recursion no {" ++ [nl] ++ B "  foo bar;" ++ [nl] ++ B "};".
Proof.
  split; [reflexivity|]. split; [reflexivity|].
  pose proof (AppendToBody_upgrade recursionNo (StmtNode fooBar) [] eq_refl)
    as (_ & Hbody & _ & _ & _ & _ & _ & _ & _ & _ & _ & Hline).
  split; [exact Hbody|].
  rewrite Hline; [reflexivity | discriminate |].
  repeat constructor; discriminate.
Defined.



(** C10 on the input [};] at its closing brace, and on the first state of
    the loop. *)
Lemma depth_never_negative_witness :
  0 <= p_depth (mkP [] 0 0 0 false false false) /\
  parseStep (fun _ _ => Panic) (B "};") 2 (mkP [] 0 0 0 false false false) =
    Ok (mkP [] (0 + 1) 0 0 false false false) /\
  (b_depth (scanStep (B "};") (mkS 0 0 false false false (-1) (-1))) = 0 /\
   lexB (scanStep (B "};") (mkS 0 0 false false false (-1) (-1))) = Normal (0 + 1)).
Proof.
  split; [|split].
  - apply (proj1 (@depth_never_negative asciiOnly) (fun _ _ => Panic) (B "};") 0 2).
    apply PReach_init.
  - apply (proj1 (proj2 (proj2 (@depth_never_negative asciiOnly)))
             (fun _ _ => Panic) (B "};") 2 (mkP [] 0 0 0 false false false));
      evaluate.
  - apply (proj1 (proj2 (proj2 (proj2 (@depth_never_negative asciiOnly))))
             (B "};") (mkS 0 0 false false false (-1) (-1))); reflexivity.
Defined.

(** * Further properties of the writer, the queries and the parser *)

(** ** The writer only appends *)

Lemma writeTo_regenerate (s : Stmt) (buf : bytes) :
  RawText s = [] ->
  writeTo (StmtNode s) buf = writeTo (StmtNode (MarkModified s)) buf.
Proof.
  intros H. cbn [writeTo MarkModified RawText Modified HasBlock HeadRaw Keyword Body].
  rewrite H. cbn. rewrite andb_false_r. reflexivity.
Qed.

Lemma writeTo_buf (n : Node) (buf : bytes) :
  writeTo n buf = buf ++ writeTo n [].
Proof.
  destruct n as [r | s].
  - reflexivity.
  - destruct (Modified s) eqn:Hm.
    + destruct (HasBlock s) eqn:Hb.
      * rewrite !writeTo_block by assumption. reflexivity.
      * cbn [writeTo]. rewrite Hm, Hb. cbn [negb andb].
        destruct (len (HeadRaw s) =? 0); [reflexivity |].
        cbn [app]. rewrite <- app_assoc. reflexivity.
    + destruct (RawText s) as [| c t] eqn:Hr.
      * rewrite !(writeTo_regenerate s) by assumption.
        destruct (HasBlock s) eqn:Hb.
        -- rewrite !writeTo_block by (cbn; assumption || reflexivity).
           reflexivity.
        -- cbn [writeTo MarkModified RawText Modified HasBlock HeadRaw].
           rewrite Hb. cbn [negb andb].
           destruct (len (HeadRaw s) =? 0); [reflexivity |].
           cbn [app]. rewrite <- app_assoc. reflexivity.
      * rewrite !writeTo_unmodified by (assumption || (rewrite Hr; discriminate)).
        reflexivity.
Qed.

(** X1.  The writer never alters what the buffer already holds: the
    output of a list of nodes into a buffer is the buffer followed by
    the outputs of the nodes, each written on its own, in order; the
    bytes of a file are the concatenation of the outputs of its
    top-level nodes. *)
Theorem writer_appends (nodes : list Node) (buf : bytes) :
  writeNodes nodes buf =
    buf ++ List.concat (map (fun n => writeTo n []) nodes) /\
  Bytes (mkFile nodes buf) =
    List.concat (map (fun n => writeTo n []) nodes).
Proof.
  assert (H : forall l b,
             writeNodes l b = b ++ List.concat (map (fun n => writeTo n []) l)).
  { induction l as [| n l IH]; intros b.
    - cbn. rewrite app_nil_r. reflexivity.
    - rewrite writeNodes_cons, IH, writeTo_buf. cbn [map List.concat].
      rewrite app_assoc. reflexivity. }
  split; [apply H |]. unfold Bytes. cbn [Nodes]. rewrite H. reflexivity.
Qed.

(** ** [trimRightSpace] *)

Lemma dropSpaces_spec (r : bytes) :
  exists t, r = t ++ dropSpaces r /\ Forall (fun c => isSpace c = true) t /\
            (dropSpaces r = [] \/
             exists c r', dropSpaces r = c :: r' /\ isSpace c = false).
Proof.
  induction r as [| c r IH].
  - exists []. cbn. auto.
  - cbn [dropSpaces]. destruct (isSpace c) eqn:Hc.
    + destruct IH as (t & Ht & Hs & Hd). exists (c :: t). split; [| split].
      * cbn. rewrite <- Ht. reflexivity.
      * constructor; assumption.
      * exact Hd.
    + exists []. split; [reflexivity | split; [constructor |]].
      right. exists c, r. auto.
Qed.

Lemma dropSpaces_stop (c : byte) (r : bytes) :
  isSpace c = false -> dropSpaces (c :: r) = c :: r.
Proof. intros H. cbn. rewrite H. reflexivity. Qed.

(** X2.  [trimRightSpace s] is the prefix of [s] left when the longest
    run of the five space bytes is cut from its end: what is cut is
    spaces only, what is left is empty or ends in a byte that is not a
    space, and trimming again changes nothing. *)
Theorem trimRightSpace_spec (s : bytes) :
  exists t,
    s = trimRightSpace s ++ t /\
    Forall (fun c => isSpace c = true) t /\
    (trimRightSpace s = [] \/ isSpace (lastByte (trimRightSpace s)) = false) /\
    trimRightSpace (trimRightSpace s) = trimRightSpace s.
Proof.
  unfold trimRightSpace.
  destruct (dropSpaces_spec (rev s)) as (t & Ht & Hs & Hd).
  exists (rev t). split; [| split; [| split]].
  - rewrite <- rev_app_distr, <- Ht, rev_involutive. reflexivity.
  - apply Forall_rev. exact Hs.
  - destruct Hd as [Hd | (c & r' & Hd & Hc)].
    + left. rewrite Hd. reflexivity.
    + right. rewrite Hd. cbn [rev]. unfold lastByte.
      rewrite last_last. exact Hc.
  - rewrite rev_involutive.
    destruct Hd as [Hd | (c & r' & Hd & Hc)].
    + rewrite Hd. reflexivity.
    + rewrite Hd, dropSpaces_stop by exact Hc. reflexivity.
Qed.

(** ** The traversal *)

Lemma Node_forall (P : Node -> Prop) :
  (forall r, P (RawNode r)) ->
  (forall s, Forall P (Body s) -> P (StmtNode s)) ->
  forall n, P n.
Proof.
  intros Hr Hs. fix IH 1. intros [r | s]; [apply Hr |].
  apply Hs. generalize (Body s) as l.
  fix IHl 1. intros [| x l]; constructor; [apply IH | apply IHl].
Qed.

Lemma foldStop_app {S : Type} (fn : Node -> S -> S * bool) (l1 l2 : list Node) :
  forall st,
    foldStop fn (l1 ++ l2) st =
    let '(st', go) := foldStop fn l1 st in
    if go then foldStop fn l2 st' else (st', false).
Proof.
  induction l1 as [| n l1 IH]; intros st; [reflexivity |].
  cbn [app foldStop]. destruct (fn n st) as [st1 go]. destruct go.
  - apply IH.
  - reflexivity.
Qed.

Lemma walkNode_preorder {S : Type} (fn : Node -> S -> S * bool) :
  forall n st, walkNode fn n st = foldStop fn (preorder n) st.
Proof.
  induction n as [r | s IH] using Node_forall; intros st.
  - cbn. destruct (fn (RawNode r) st) as [st1 go]. destruct go; reflexivity.
  - cbn [walkNode preorder foldStop].
    destruct (fn (StmtNode s) st) as [st1 go]. destruct go; [| reflexivity].
    cbn [negb]. revert st1. induction IH as [| x l Hx Hl IHl]; intros st1.
    + reflexivity.
    + cbn [flat_map]. rewrite foldStop_app, <- Hx.
      destruct (walkNode fn x st1) as [st2 go]. destruct go.
      * cbn [negb]. apply IHl.
      * reflexivity.
Qed.

Lemma walkNodes_preorder {S : Type} (fn : Node -> S -> S * bool) :
  forall nodes st,
    walkNodes fn nodes st = fst (foldStop fn (flat_map preorder nodes) st).
Proof.
  induction nodes as [| n nodes IH]; intros st; [reflexivity |].
  cbn [walkNodes flat_map]. rewrite foldStop_app, walkNode_preorder.
  destruct (foldStop fn (preorder n) st) as [st1 go]. destruct go.
  - cbn [negb]. apply IH.
  - reflexivity.
Qed.

(** X3.  [Walk] visits the nodes of the file depth first, a statement
    before the nodes of its body, the nodes of a body in their order,
    and stops for good after the first node on which the callback
    returns [false]: the state that the callback leaves is that of a
    fold over the file in document order that stops there. *)
Theorem Walk_document_order {S : Type} (f : File)
    (fn : Node -> S -> S * bool) (st : S) :
  Walk f fn st = fst (foldStop fn (flat_map preorder (Nodes f)) st).
Proof. apply walkNodes_preorder. Qed.

Lemma foldStop_collect (pred : Stmt -> bool) (l : list Node) :
  forall out,
    foldStop
      (fun n out =>
         match n with
         | StmtNode s => (if pred s then out ++ [s] else out, true)
         | RawNode _ => (out, true)
         end) l out =
    (out ++ filter pred (stmtsOf l), true).
Proof.
  induction l as [| n l IH]; intros out.
  - cbn. rewrite app_nil_r. reflexivity.
  - cbn [foldStop]. destruct n as [r | s].
    + rewrite IH. reflexivity.
    + rewrite IH. unfold stmtsOf. cbn [flat_map app filter].
      destruct (pred s); [rewrite <- app_assoc |]; reflexivity.
Qed.

(** X4.  [Find] returns the statements of the file that satisfy the
    predicate, those nested in the bodies of blocks at any depth
    included, each once, in document order. *)
Theorem Find_all_depths (f : File) (pred : Stmt -> bool) :
  Find f pred = filter pred (stmtsOf (flat_map preorder (Nodes f))).
Proof.
  unfold Find, Walk. rewrite walkNodes_preorder, foldStop_collect.
  reflexivity.
Qed.

(** ** The queries *)

Lemma normalize_map (s : bytes) : normalize s = map lowerASCII s.
Proof. reflexivity. Qed.

Lemma lowerASCII_idem (c : byte) : lowerASCII (lowerASCII c) = lowerASCII c.
Proof. destruct c; reflexivity. Qed.

Lemma normalize_lowered (s : bytes) :
  normalize (map lowerASCII s) = map lowerASCII s.
Proof.
  rewrite (normalize_map (map lowerASCII s)), map_map.
  apply map_ext. apply lowerASCII_idem.
Qed.

Lemma eqBytes_eq (a b : bytes) : eqBytes a b = true <-> a = b.
Proof.
  revert b. induction a as [| x a IH]; intros [| y b]; cbn [eqBytes];
    try (split; [discriminate | discriminate]); [tauto |].
  rewrite andb_true_iff, IH. split.
  - intros [H1 H2]. apply beq_eq in H1. congruence.
  - intros H. inversion H; subst. split; [apply beq_refl | reflexivity].
Qed.

Lemma In_stmtsOf (s : Stmt) (l : list Node) :
  In s (stmtsOf l) <-> In (StmtNode s) l.
Proof.
  unfold stmtsOf. rewrite in_flat_map. split.
  - intros ([r | s'] & Hin & H); cbn in H; [contradiction |].
    destruct H as [H | []]. subst. exact Hin.
  - intros H. exists (StmtNode s). split; [exact H | left; reflexivity].
Qed.

Lemma In_preorder (n : Node) (l : list Node) :
  In n l -> In n (flat_map preorder l).
Proof.
  intros H. apply in_flat_map. exists n. split; [exact H |].
  destruct n; left; reflexivity.
Qed.

Lemma TopLevel_filter (f : File) (keyword : bytes) :
  TopLevel f keyword =
  filter (fun s => eqBytes (Keyword s) (normalize keyword)) (stmtsOf (Nodes f)).
Proof.
  unfold TopLevel. generalize (Nodes f) as l.
  assert (H : forall l out,
             fold_left
               (fun out n =>
                  match n with
                  | StmtNode s =>
                      if eqBytes (Keyword s) (normalize keyword)
                      then out ++ [s] else out
                  | RawNode _ => out
                  end) l out =
             out ++ filter (fun s => eqBytes (Keyword s) (normalize keyword))
                      (stmtsOf l)).
  { induction l as [| n l IH]; intros out.
    - cbn. rewrite app_nil_r. reflexivity.
    - cbn [fold_left]. rewrite IH. destruct n as [r | s]; [reflexivity |].
      unfold stmtsOf. cbn [flat_map app filter].
      destruct (eqBytes (Keyword s) (normalize keyword));
        [rewrite <- app_assoc |]; reflexivity. }
  intros l. apply H.
Qed.

Section Queries.
Context {U : Unicode}.

(** X5.  [normalize] keeps the length of its argument, changes nothing
    when applied a second time, and on a string of ASCII bytes returns
    what [strings.ToLower], which computes the keyword of a statement,
    returns. *)
Theorem normalize_lower (s : bytes) :
  len (normalize s) = len s /\
  normalize (normalize s) = normalize s /\
  (isASCII s = true -> normalize s = ToLower s).
Proof.
  split; [| split].
  - unfold normalize, len. rewrite length_map. reflexivity.
  - rewrite (normalize_map (normalize s)), (normalize_map s), map_map.
    apply map_ext. apply lowerASCII_idem.
  - intros H. unfold ToLower. unfold isASCII in H. rewrite H. reflexivity.
Qed.

(** X6.  [TopLevel] returns, in their order, the top-level statements
    whose keyword equals the normalized argument, and none of the
    statements nested in a block; upper and lower case ASCII letters in
    the argument make no difference; what it returns [Find] returns for
    the same comparison. *)
Theorem TopLevel_spec (f : File) (keyword : bytes) :
  TopLevel f keyword =
    filter (fun s => eqBytes (Keyword s) (normalize keyword))
      (stmtsOf (Nodes f)) /\
  (forall s, In s (TopLevel f keyword) <->
             In (StmtNode s) (Nodes f) /\ Keyword s = normalize keyword) /\
  TopLevel f (normalize keyword) = TopLevel f keyword /\
  incl (TopLevel f keyword)
    (Find f (fun s => eqBytes (Keyword s) (normalize keyword))).
Proof.
  split; [apply TopLevel_filter | split; [| split]].
  - intros s. rewrite TopLevel_filter, filter_In, In_stmtsOf, eqBytes_eq.
    reflexivity.
  - rewrite !TopLevel_filter.
    rewrite (normalize_map (normalize keyword)), (normalize_map keyword), map_map.
    rewrite (map_ext _ _ lowerASCII_idem). reflexivity.
  - intros s. rewrite TopLevel_filter. unfold Find, Walk.
    rewrite walkNodes_preorder, foldStop_collect. cbn [fst app].
    rewrite !filter_In, !In_stmtsOf. intros [H1 H2].
    split; [apply In_preorder; exact H1 | exact H2].
Qed.

(** X7.  On a parsed file, a query by an ASCII keyword returns exactly
    the top-level statements whose first token, in lower case, is the
    keyword in lower case. *)
Theorem TopLevel_parsed (src keyword : bytes) :
  isASCII keyword = true ->
  exists f,
    Parse src = Ok f /\
    forall s, In s (TopLevel f keyword) <->
              In (StmtNode s) (Nodes f) /\
              keywordSpec (HeadRaw s) = ToLower keyword.
Proof.
  intros Ha. destruct (Parse_ok src) as (nodes & Hp & _ & Hall).
  exists (mkFile nodes src). split; [exact Hp |]. intros s.
  rewrite TopLevel_filter, filter_In, In_stmtsOf, eqBytes_eq. cbn [Nodes].
  assert (Hn : normalize keyword = ToLower keyword).
  { unfold ToLower. unfold isASCII in Ha. rewrite Ha. reflexivity. }
  rewrite Hn. split.
  - intros [Hin Hk]. split; [exact Hin |].
    rewrite Forall_forall in Hall. specialize (Hall _ Hin).
    apply everyStmt_stmt in Hall. destruct Hall as [(_ & _ & _ & Hkw) _].
    rewrite <- Hkw. exact Hk.
  - intros [Hin Hk]. split; [exact Hin |].
    rewrite Forall_forall in Hall. specialize (Hall _ Hin).
    apply everyStmt_stmt in Hall. destruct Hall as [(_ & _ & _ & Hkw) _].
    rewrite Hkw. exact Hk.
Qed.

End Queries.

(** ** [firstIdent] on an arbitrary head *)

Lemma triviaEnd_lead (c : byte) (s : bytes) :
  triviaEnd Lead (c :: s) =
  if unicode_IsSpace c then triviaEnd Lead s
  else if c == "#"%byte then triviaEnd LineC s
  else if c == "/"%byte then
    match s with
    | c' :: s'' =>
        if c' == "/"%byte then triviaEnd LineC s''
        else if c' == "*"%byte then triviaEnd BlockC s''
        else Closed
    | [] => Closed
    end
  else Closed.
Proof. reflexivity. Qed.

Lemma triviaEnd_block (c c' : byte) (s : bytes) :
  triviaEnd BlockC (c :: c' :: s) =
  if (c == "*"%byte) && (c' == "/"%byte) then triviaEnd Lead s
  else triviaEnd BlockC (c' :: s).
Proof. reflexivity. Qed.

Lemma end_line (s : bytes) :
  forall (m : nat) (a j : Z),
    (Z.to_nat (j - a) <= m)%nat -> 0 <= a -> a <= j -> j < len s ->
    (forall x, a <= x -> x < j -> at_ s x <> nl) -> at_ s j = nl ->
    triviaEnd LineC (from s a) = triviaEnd Lead (from s (j + 1)).
Proof.
  induction m as [|m IH]; intros a j Hm H0 Ha Hj Hall Hnl.
  - assert (a = j) by lia; subst a.
    rewrite (from_at s j) by lia. simpl. rewrite Hnl, beq_refl. reflexivity.
  - destruct (Z.eq_dec a j) as [->|Hne].
    + rewrite (from_at s j) by lia. simpl. rewrite Hnl, beq_refl. reflexivity.
    + rewrite (from_at s a) by lia. simpl.
      rewrite (neq_beq _ _ (Hall a ltac:(lia) ltac:(lia))).
      apply IH; try lia; try assumption.
      intros x Hx1 Hx2; apply Hall; lia.
Qed.

Lemma open_line (s : bytes) :
  forall (m : nat) (a : Z),
    (Z.to_nat (len s - a) <= m)%nat -> 0 <= a -> a <= len s ->
    (forall x, a <= x -> x < len s -> at_ s x <> nl) ->
    triviaEnd LineC (from s a) = OpenLine.
Proof.
  induction m as [|m IH]; intros a Hm H0 Ha Hall.
  - rewrite from_end by lia. reflexivity.
  - destruct (Z.eq_dec a (len s)) as [->|Hne].
    + rewrite from_end by lia. reflexivity.
    + rewrite (from_at s a) by lia. simpl.
      rewrite (neq_beq _ _ (Hall a ltac:(lia) ltac:(lia))).
      apply IH; try lia. intros x Hx1 Hx2; apply Hall; lia.
Qed.

Lemma end_block (s : bytes) :
  forall (m : nat) (a j : Z),
    (Z.to_nat (j - a) <= m)%nat -> 0 <= a -> a <= j -> j + 1 < len s ->
    (forall x, a <= x -> x < j ->
               (at_ s x == "*"%byte) && (at_ s (x + 1) == "/"%byte) = false) ->
    at_ s j = "*"%byte -> at_ s (j + 1) = "/"%byte ->
    triviaEnd BlockC (from s a) = triviaEnd Lead (from s (j + 2)).
Proof.
  assert (Hend : forall j, 0 <= j -> j + 1 < len s ->
            at_ s j = "*"%byte -> at_ s (j + 1) = "/"%byte ->
            triviaEnd BlockC (from s j) = triviaEnd Lead (from s (j + 2))).
  { intros j H0 Hj H1 H2.
    rewrite (from_at s j), (from_at s (j + 1)) by lia.
    replace (j + 1 + 1) with (j + 2) by lia.
    rewrite triviaEnd_block, H1, H2. reflexivity. }
  induction m as [|m IH]; intros a j Hm H0 Ha Hj Hall H1 H2.
  - assert (a = j) by lia; subst a. apply Hend; assumption.
  - destruct (Z.eq_dec a j) as [->|Hne]; [apply Hend; assumption|].
    rewrite (from_at s a), (from_at s (a + 1)) by lia.
    rewrite triviaEnd_block, (Hall a) by lia.
    rewrite <- (from_at s (a + 1)) by lia.
    apply IH; try lia; try assumption.
    intros x Hx1 Hx2; apply Hall; lia.
Qed.

Lemma open_block (s : bytes) :
  forall (m : nat) (a : Z),
    (Z.to_nat (len s - 1 - a) <= m)%nat -> 0 <= a -> a <= len s - 1 ->
    (forall x, a <= x -> x < len s - 1 ->
               (at_ s x == "*"%byte) && (at_ s (x + 1) == "/"%byte) = false) ->
    triviaEnd BlockC (from s a) = OpenBlock (Some (at_ s (len s - 1))).
Proof.
  assert (Hend : triviaEnd BlockC (from s (len s - 1)) =
                 OpenBlock (Some (at_ s (len s - 1))) \/ len s <= 0).
  { destruct (Z_lt_le_dec 0 (len s)); [left | right; assumption].
    rewrite (from_at s (len s - 1)) by lia.
    rewrite (from_end s (len s - 1 + 1)) by lia. reflexivity. }
  induction m as [|m IH]; intros a Hm H0 Ha Hall.
  - assert (a = len s - 1) by lia; subst a.
    destruct Hend as [Hend | Hend]; [exact Hend | lia].
  - destruct (Z.eq_dec a (len s - 1)) as [->|Hne].
    + destruct Hend as [Hend | Hend]; [exact Hend | lia].
    + rewrite (from_at s a), (from_at s (a + 1)) by lia.
      rewrite triviaEnd_block, (Hall a) by lia.
      rewrite <- (from_at s (a + 1)) by lia.
      apply IH; try lia. intros x Hx1 Hx2; apply Hall; lia.
Qed.

(** The two counting loops of [firstIdent] over a comment. *)
Lemma count_line (s : bytes) (a : Z) :
  0 <= a -> a <= len s ->
  let j := countWhile (fun j => (j <? len s) && negb (at_ s j == nl))
             (fuelFrom s a) a in
  a <= j /\ j <= len s /\
  (j < len s ->
   triviaEnd LineC (from s a) = triviaEnd Lead (from s (j + 1)) /\
   skipTrivia LineC (from s a) = skipTrivia Lead (from s (j + 1))) /\
  (j = len s -> triviaEnd LineC (from s a) = OpenLine).
Proof.
  intros H0 Ha.
  destruct (countWhile_spec (fun j => (j <? len s) && negb (at_ s j == nl))
              (len s)) with (fuel := fuelFrom s a) (j := a)
    as (C1 & C2 & C3 & C4).
  { intros x Hx. apply andb_prop in Hx. destruct Hx as [Hx _].
    apply Z.ltb_lt in Hx. exact Hx. }
  { exact Ha. }
  { unfold fuelFrom. lia. }
  cbv zeta. set (j := countWhile _ _ _) in *.
  assert (Hall : forall x, a <= x -> x < j -> at_ s x <> nl).
  { intros x X1 X2. specialize (C4 x X1 X2). apply andb_prop in C4.
    destruct C4 as [_ C4]. apply negb_true_iff in C4. apply beq_neq. exact C4. }
  split; [exact C1 | split; [exact C2 | split]].
  - intros Hj.
    assert (Hnl : at_ s j = nl).
    { replace (j <? len s) with true in C3 by (symmetry; apply Z.ltb_lt; lia).
      cbn [andb] in C3. apply negb_false_iff in C3. apply beq_eq. exact C3. }
    split.
    + apply (end_line s (Z.to_nat (j - a))); try lia; assumption.
    + apply (skip_line s (Z.to_nat (j - a))); try lia; assumption.
  - intros Hj. apply (open_line s (Z.to_nat (len s - a))); try lia.
    intros x X1 X2. apply Hall; lia.
Qed.

Lemma count_block (s : bytes) (a : Z) :
  0 <= a -> a <= len s ->
  let j := countWhile
             (fun j => (j + 1 <? len s) &&
                       negb ((at_ s j == "*"%byte) && (at_ s (j + 1) == "/"%byte)))
             (fuelFrom s a) a in
  a <= j /\ j <= len s /\
  (j + 1 < len s ->
   triviaEnd BlockC (from s a) = triviaEnd Lead (from s (j + 2)) /\
   skipTrivia BlockC (from s a) = skipTrivia Lead (from s (j + 2))) /\
  (len s <= j + 1 ->
   (a = len s /\ j = len s /\ triviaEnd BlockC (from s a) = OpenBlock None) \/
   (a < len s /\ j = len s - 1 /\
    triviaEnd BlockC (from s a) = OpenBlock (Some (at_ s (len s - 1))))).
Proof.
  intros H0 Ha. cbv zeta.
  destruct (Z.eq_dec a (len s)) as [He | Hne].
  - rewrite countWhile_stop.
    2: { replace (a + 1 <? len s) with false by (symmetry; apply Z.ltb_ge; lia).
         reflexivity. }
    split; [lia | split; [lia | split; [lia |]]].
    intros _. left. rewrite from_end by lia. auto.
  - destruct (countWhile_spec
                (fun j => (j + 1 <? len s) &&
                          negb ((at_ s j == "*"%byte) && (at_ s (j + 1) == "/"%byte)))
                (len s - 1)) with (fuel := fuelFrom s a) (j := a)
      as (C1 & C2 & C3 & C4).
    { intros x Hx. apply andb_prop in Hx. destruct Hx as [Hx _].
      apply Z.ltb_lt in Hx. lia. }
    { lia. }
    { unfold fuelFrom. lia. }
    set (j := countWhile _ _ _) in *.
    assert (Hall : forall x, a <= x -> x < j ->
              (at_ s x == "*"%byte) && (at_ s (x + 1) == "/"%byte) = false).
    { intros x X1 X2. specialize (C4 x X1 X2). apply andb_prop in C4.
      destruct C4 as [_ C4]. apply negb_true_iff in C4. exact C4. }
    split; [exact C1 | split; [lia | split]].
    + intros Hj.
      replace (j + 1 <? len s) with true in C3 by (symmetry; apply Z.ltb_lt; lia).
      cbn [andb] in C3. apply negb_false_iff in C3. apply andb_prop in C3.
      destruct C3 as [C3 C3']. apply beq_eq in C3. apply beq_eq in C3'.
      split.
      * apply (end_block s (Z.to_nat (j - a))); try lia; assumption.
      * apply (skip_block s (Z.to_nat (j - a))); try lia; assumption.
    + intros Hj. right. split; [lia | split; [lia |]].
      apply (open_block s (Z.to_nat (len s - 1 - a))); try lia.
      intros x X1 X2. apply Hall; lia.
Qed.

(** The first loop of [firstIdent] entered at the last byte of [s]. *)
Lemma lead_last (s : bytes) (fuel : nat) :
  1 <= len s -> (1 <= fuel)%nat ->
  leadLoop s fuel (len s - 1) =
  if unicode_IsSpace (at_ s (len s - 1)) then Ok (len s)
  else if at_ s (len s - 1) == "#"%byte then Ok (len s + 1)
  else Ok (len s - 1).
Proof.
  intros Hl Hf. destruct fuel as [| fuel]; [lia |].
  cbn [leadLoop].
  replace (len s - 1 <? len s) with true by (symmetry; apply Z.ltb_lt; lia).
  unfold leadStep.
  replace (len s - 1 + 1 <? len s) with false by (symmetry; apply Z.ltb_ge; lia).
  rewrite andb_false_r. cbn [andb].
  destruct (unicode_IsSpace (at_ s (len s - 1))).
  { rewrite leadLoop_end by lia. f_equal. lia. }
  destruct (at_ s (len s - 1) == "#"%byte); [| reflexivity].
  rewrite countWhile_stop.
  2: { replace (len s - 1 + 1 <? len s) with false
         by (symmetry; apply Z.ltb_ge; lia). reflexivity. }
  rewrite leadLoop_end by lia. f_equal. lia.
Qed.

(** Where the first loop of [firstIdent] leaves its index, by the way
    the leading trivia of the head ends. *)
Lemma lead_list (s : bytes) :
  forall (fuel : nat) (i : Z),
    0 <= i -> i <= len s -> (Z.to_nat (len s - i) <= fuel)%nat ->
    match triviaEnd Lead (from s i) with
    | Closed =>
        exists start,
          leadLoop s fuel i = Ok start /\ i <= start /\ start <= len s /\
          skipTrivia Lead (from s i) = from s start
    | OpenLine => leadLoop s fuel i = Ok (len s + 1)
    | OpenBlock None => leadLoop s fuel i = Ok (len s)
    | OpenBlock (Some c) =>
        c = at_ s (len s - 1) /\ 1 <= len s /\
        leadLoop s fuel i =
        if unicode_IsSpace c then Ok (len s)
        else if c == "#"%byte then Ok (len s + 1)
        else Ok (len s - 1)
    end.
Proof.
  assert (Hbase : forall fuel,
            match triviaEnd Lead (from s (len s)) with
            | Closed =>
                exists start,
                  leadLoop s fuel (len s) = Ok start /\ len s <= start /\
                  start <= len s /\
                  skipTrivia Lead (from s (len s)) = from s start
            | OpenLine => leadLoop s fuel (len s) = Ok (len s + 1)
            | OpenBlock None => leadLoop s fuel (len s) = Ok (len s)
            | OpenBlock (Some c) =>
                c = at_ s (len s - 1) /\ 1 <= len s /\
                leadLoop s fuel (len s) =
                if unicode_IsSpace c then Ok (len s)
                else if c == "#"%byte then Ok (len s + 1)
                else Ok (len s - 1)
            end).
  { intros fuel. rewrite from_end by lia. cbn [triviaEnd skipTrivia].
    exists (len s). rewrite leadLoop_end by lia.
    repeat split; try lia. rewrite from_end by lia. reflexivity. }
  induction fuel as [|fuel IH]; intros i Hi0 Hil Hf.
  - assert (i = len s) by lia; subst i. apply Hbase.
  - destruct (Z.eq_dec i (len s)) as [->|Hne]; [apply Hbase|].
    assert (Hlt : i < len s) by lia.
    cbn [leadLoop].
    replace (i <? len s) with true by (symmetry; apply Z.ltb_lt; lia).
    assert (Hfrom : from s i = at_ s i :: from s (i + 1))
      by (apply from_at; lia).
    rewrite Hfrom, triviaEnd_lead, skipTrivia_lead. unfold leadStep.
    destruct (unicode_IsSpace (at_ s i)) eqn:Esp.
    { (* white space *)
      specialize (IH (i + 1) ltac:(lia) ltac:(lia) ltac:(lia)).
      destruct (triviaEnd Lead (from s (i + 1))) as [| | [c|]]; try exact IH.
      destruct IH as (start & H1 & H2 & H3 & H4).
      exists start. repeat split; try lia; assumption. }
    destruct (at_ s i == "#"%byte) eqn:Ehash.
    { (* a comment from the hash to the end of the line *)
      destruct (count_line s (i + 1)) as (C1 & C2 & C3 & C4); try lia.
      cbv zeta in C1, C2, C3, C4.
      set (j := countWhile _ _ _) in *.
      destruct (Z.eq_dec j (len s)) as [Hj | Hj].
      - rewrite (C4 Hj). rewrite leadLoop_end by lia. f_equal. lia.
      - destruct (C3 ltac:(lia)) as [T1 T2]. rewrite T1, T2.
        specialize (IH (j + 1) ltac:(lia) ltac:(lia) ltac:(lia)).
        destruct (triviaEnd Lead (from s (j + 1))) as [| | [c|]]; try exact IH.
        destruct IH as (start & H1 & H2 & H3 & H4).
        exists start. repeat split; try lia; assumption. }
    destruct (at_ s i == "/"%byte) eqn:Eslash; cbn [andb].
    2: { exists i. repeat split; try lia. symmetry. exact Hfrom. }
    destruct (i + 1 <? len s) eqn:Enext; cbn [andb].
    2: { (* the slash is the last byte of the head *)
      apply Z.ltb_ge in Enext.
      rewrite (from_end s (i + 1)) by lia.
      exists i. repeat split; try lia.
      rewrite Hfrom, (from_end s (i + 1)) by lia. reflexivity. }
    apply Z.ltb_lt in Enext.
    rewrite (from_at s (i + 1)) by lia.
    replace (i + 1 + 1) with (i + 2) by lia.
    destruct (at_ s (i + 1) == "/"%byte) eqn:E2; cbn [orb].
    { (* a comment from two slashes to the end of the line *)
      destruct (count_line s (i + 2)) as (C1 & C2 & C3 & C4); try lia.
      cbv zeta in C1, C2, C3, C4.
      set (j := countWhile _ _ _) in *.
      destruct (Z.eq_dec j (len s)) as [Hj | Hj].
      - rewrite (C4 Hj). rewrite leadLoop_end by lia. f_equal. lia.
      - destruct (C3 ltac:(lia)) as [T1 T2]. rewrite T1, T2.
        specialize (IH (j + 1) ltac:(lia) ltac:(lia) ltac:(lia)).
        destruct (triviaEnd Lead (from s (j + 1))) as [| | [c|]]; try exact IH.
        destruct IH as (start & H1 & H2 & H3 & H4).
        exists start. repeat split; try lia; assumption. }
    destruct (at_ s (i + 1) == "*"%byte) eqn:E3.
    2: { exists i. repeat split; try lia.
         rewrite Hfrom, (from_at s (i + 1)) by lia.
         replace (i + 1 + 1) with (i + 2) by lia. reflexivity. }
    (* a comment from slash-star to star-slash *)
    destruct (count_block s (i + 2)) as (C1 & C2 & C3 & C4); try lia.
    cbv zeta in C1, C2, C3, C4.
    set (j := countWhile _ _ _) in *.
    destruct (j + 1 <? len s) eqn:Ej.
    + apply Z.ltb_lt in Ej. destruct (C3 Ej) as [T1 T2]. rewrite T1, T2.
      specialize (IH (j + 2) ltac:(lia) ltac:(lia) ltac:(lia)).
      destruct (triviaEnd Lead (from s (j + 2))) as [| | [c|]]; try exact IH.
      destruct IH as (start & H1 & H2 & H3 & H4).
      exists start. repeat split; try lia; assumption.
    + apply Z.ltb_ge in Ej.
      destruct (C4 Ej) as [(A1 & A2 & A3) | (A1 & A2 & A3)]; rewrite A3.
      * rewrite leadLoop_end by lia. f_equal. lia.
      * split; [reflexivity | split; [lia |]].
        rewrite A2. apply lead_last; lia.
Qed.

Section FirstIdentAny.
Context {U : Unicode}.

(** [firstIdent] when its first loop ends at the last byte of the head,
    after it or two after it. *)
Lemma firstIdent_last (s : bytes) :
  1 <= len s ->
  leadLoop s (fuelFrom s 0) 0 =
    (if unicode_IsSpace (at_ s (len s - 1)) then Ok (len s)
     else if at_ s (len s - 1) == "#"%byte then Ok (len s + 1)
     else Ok (len s - 1)) ->
  firstIdent s =
    if unicode_IsSpace (at_ s (len s - 1)) then Ok (Trim1 (TrimSpace []) dq)
    else if at_ s (len s - 1) == "#"%byte then Panic
    else Ok (Trim1 (TrimSpace (if isDelim (at_ s (len s - 1)) then []
                               else [at_ s (len s - 1)])) dq).
Proof.
  intros Hl H. unfold firstIdent. rewrite H.
  destruct (unicode_IsSpace (at_ s (len s - 1))).
  { cbn [bind]. rewrite countWhile_stop.
    2: { replace (len s <? len s) with false by (symmetry; apply Z.ltb_ge; lia).
         reflexivity. }
    rewrite sl_in by lia. cbn [bind]. rewrite slice_empty by lia. reflexivity. }
  destruct (at_ s (len s - 1) == "#"%byte).
  { cbn [bind]. rewrite countWhile_stop.
    2: { replace (len s + 1 <? len s) with false
           by (symmetry; apply Z.ltb_ge; lia). reflexivity. }
    unfold sl.
    replace (len s + 1 <=? len s) with false by (symmetry; apply Z.leb_gt; lia).
    rewrite andb_false_r. reflexivity. }
  cbn [bind].
  destruct (takeToken_count s (fuelFrom s (len s - 1)) (len s - 1))
    as (T1 & T2 & T3); try lia.
  { unfold fuelFrom. lia. }
  cbv zeta in T1, T2, T3. rewrite sl_in by lia. cbn [bind]. rewrite T3.
  rewrite (from_at s (len s - 1)) by lia.
  rewrite (from_end s (len s - 1 + 1)) by lia. cbn [takeToken].
  destruct (isDelim (at_ s (len s - 1))); reflexivity.
Qed.

Lemma firstIdent_on_closed (s : bytes) :
  triviaEnd Lead s = Closed -> firstIdent s = Ok (identSpec s).
Proof.
  intros Hc.
  pose proof (lead_list s (fuelFrom s 0) 0) as H.
  rewrite from_zero, Hc in H.
  destruct H as (start & H1 & H2 & H3 & H4);
    [lia | apply len_nonneg | unfold fuelFrom; lia |].
  unfold firstIdent. rewrite H1. cbn [bind].
  destruct (takeToken_count s (fuelFrom s start) start) as (T1 & T2 & T3);
    try lia.
  { unfold fuelFrom; lia. }
  rewrite sl_in by lia. cbn [bind].
  unfold identSpec. rewrite H4, <- T3. reflexivity.
Qed.

Lemma firstIdent_on_open_line (s : bytes) :
  triviaEnd Lead s = OpenLine -> firstIdent s = Panic.
Proof.
  intros Hc.
  pose proof (lead_list s (fuelFrom s 0) 0) as H.
  rewrite from_zero, Hc in H.
  unfold firstIdent.
  rewrite H; [| lia | apply len_nonneg | unfold fuelFrom; lia].
  cbn [bind]. rewrite countWhile_stop.
  2: { replace (len s + 1 <? len s) with false
         by (symmetry; apply Z.ltb_ge; lia). reflexivity. }
  unfold sl.
  replace (len s + 1 <=? len s) with false by (symmetry; apply Z.leb_gt; lia).
  rewrite andb_false_r. reflexivity.
Qed.

(** X8.  On a head whose leading comments are all closed inside it,
    [firstIdent] returns the first token after the leading white space
    and comments, with the white space and the double quotes around it
    stripped; the head need not come from the parser. *)
Theorem firstIdent_closed (s : bytes) :
  triviaEnd Lead s = Closed -> firstIdent s = Ok (identSpec s).
Proof. apply firstIdent_on_closed. Qed.

(** X9.  On a head whose leading white space and comments end in a
    comment that runs to the end of the line, with no newline left in
    the head to end it, [firstIdent] panics: its index passes the end
    of the head by one and the slice of the token is out of range. *)
Theorem firstIdent_open_line (s : bytes) :
  triviaEnd Lead s = OpenLine -> firstIdent s = Panic.
Proof. apply firstIdent_on_open_line. Qed.

(** X10.  On a head whose leading white space and comments end in a
    comment that the star and the slash never close, [firstIdent]
    returns the empty token when the head ends with the opening of the
    comment, and otherwise what it returns on the last byte of the
    head alone. *)
Theorem firstIdent_open_block (s : bytes) :
  (triviaEnd Lead s = OpenBlock None -> firstIdent s = Ok []) /\
  (forall c, triviaEnd Lead s = OpenBlock (Some c) ->
             firstIdent s = firstIdent [c]).
Proof.
  pose proof (lead_list s (fuelFrom s 0) 0) as H.
  rewrite from_zero in H.
  assert (Hf : (Z.to_nat (len s - 0) <= fuelFrom s 0)%nat)
    by (unfold fuelFrom; lia).
  specialize (H ltac:(lia) (len_nonneg s) Hf).
  split.
  - intros Hc. rewrite Hc in H. unfold firstIdent. rewrite H. cbn [bind].
    rewrite countWhile_stop.
    2: { replace (len s <? len s) with false by (symmetry; apply Z.ltb_ge; lia).
         reflexivity. }
    rewrite sl_in by (pose proof (len_nonneg s); lia).
    cbn [bind]. rewrite slice_empty by lia. reflexivity.
  - intros c Hc. rewrite Hc in H. destruct H as (Hc' & Hl & H). subst c.
    rewrite (firstIdent_last s Hl H).
    set (c := at_ s (len s - 1)).
    assert (Hlc : len [c] = 1) by reflexivity.
    assert (Hat : at_ [c] (len [c] - 1) = c) by reflexivity.
    rewrite (firstIdent_last [c]).
    + rewrite Hat. reflexivity.
    + rewrite Hlc. lia.
    + rewrite <- (lead_last [c] (fuelFrom [c] 0)).
      * rewrite Hlc. reflexivity.
      * rewrite Hlc. lia.
      * cbv. lia.
Qed.


(** ** The constructors *)

Lemma isSpace_asciiSpace (c : byte) : isSpace c = true -> asciiSpace c = true.
Proof.
  unfold isSpace, asciiSpace. intros H.
  repeat (apply orb_prop in H; destruct H as [H | H]);
    rewrite H, ?orb_true_r; reflexivity.
Qed.

Lemma trimRightSpace_keeps (x : bytes) :
  x = [] \/ isSpace (lastByte x) = false -> trimRightSpace x = x.
Proof.
  intros [-> | H]; [reflexivity |].
  destruct (rev x) as [| c r] eqn:Hr.
  - unfold trimRightSpace. rewrite Hr. cbn.
    apply (f_equal (@rev byte)) in Hr. rewrite rev_involutive in Hr.
    symmetry. exact Hr.
  - apply (f_equal (@rev byte)) in Hr. rewrite rev_involutive in Hr.
    cbn [rev] in Hr. subst x. unfold lastByte in H. rewrite last_last in H.
    unfold trimRightSpace. rewrite rev_app_distr. cbn [rev app].
    rewrite dropSpaces_stop by exact H. cbn [rev]. rewrite rev_involutive.
    reflexivity.
Qed.

Lemma trimSpaceStop_ascii (r : bytes) :
  isASCII r = true ->
  trimSpaceStop r = [] \/ isSpace (lastByte (trimSpaceStop r)) = false.
Proof.
  induction r as [| c r IH]; intros Ha; [left; reflexivity |].
  unfold isASCII in Ha. cbn [forallb] in Ha. apply andb_prop in Ha.
  destruct Ha as [Hc Ha]. apply negb_true_iff in Hc.
  cbn [trimSpaceStop]. rewrite Hc.
  destruct (asciiSpace c) eqn:Es; [apply IH; exact Ha |].
  right. cbn [rev]. unfold lastByte. rewrite last_last.
  destruct (isSpace c) eqn:E; [| reflexivity].
  apply isSpace_asciiSpace in E. congruence.
Qed.

Lemma isASCII_rev (s : bytes) : isASCII s = true -> isASCII (rev s) = true.
Proof.
  unfold isASCII. rewrite !forallb_forall. intros H x Hx.
  apply H. apply in_rev. exact Hx.
Qed.

Lemma TrimSpace_ascii (s : bytes) :
  isASCII s = true ->
  TrimSpace s = [] \/ isSpace (lastByte (TrimSpace s)) = false.
Proof.
  induction s as [| c s IH]; intros Ha; [left; reflexivity |].
  pose proof Ha as Ha'.
  unfold isASCII in Ha. cbn [forallb] in Ha. apply andb_prop in Ha.
  destruct Ha as [Hc Ha]. apply negb_true_iff in Hc.
  cbn [TrimSpace]. rewrite Hc.
  destruct (asciiSpace c) eqn:Es; [apply IH; exact Ha |].
  apply trimSpaceStop_ascii. apply isASCII_rev. exact Ha'.
Qed.

(** X11.  [NewSimpleStmt] on a head whose leading comments are closed,
    once the semicolons, spaces, tabs, carriage returns and newlines at
    its end are cut: the statement keeps the cut head, its keyword is
    the first token of the cut head in lower case, and it is written as
    the cut head without the spaces at its end, followed by one
    semicolon; when nothing is left of the head, nothing is written. *)
Theorem NewSimpleStmt_written (head : bytes) :
  triviaEnd Lead (TrimRight head simpleCutset) = Closed ->
  exists s,
    NewSimpleStmt head = Ok s /\
    HeadRaw s = TrimRight head simpleCutset /\
    Keyword s = keywordSpec (HeadRaw s) /\
    HasBlock s = false /\ Modified s = true /\
    forall buf,
      writeTo (StmtNode s) buf =
      buf ++ (if len (HeadRaw s) =? 0 then []
              else trimRightSpace (HeadRaw s) ++ B ";").
Proof.
  intros Hc. unfold NewSimpleStmt.
  change (B "; " ++ [tab; cr; nl]) with simpleCutset.
  rewrite (firstIdent_on_closed _ Hc). cbn [bind].
  eexists. split; [reflexivity |].
  cbn [HeadRaw Keyword HasBlock Modified].
  split; [reflexivity | split; [reflexivity | split; [reflexivity |
    split; [reflexivity |]]]].
  intros buf. cbn [writeTo Modified RawText HasBlock HeadRaw negb andb].
  destruct (len (TrimRight head simpleCutset) =? 0).
  - reflexivity.
  - rewrite <- app_assoc. reflexivity.
Qed.

(** X12.  [NewBlockStmt] on an ASCII head whose leading comments are
    closed, once the white space around it is cut: the statement keeps
    the cut head and the body, its keyword is the first token of the
    cut head in lower case, and it is written as the cut head, a space
    and the opening brace, the body lines indented, and the closing
    brace and the semicolon. *)
Theorem NewBlockStmt_written (head : bytes) (body : list Node) :
  isASCII head = true ->
  triviaEnd Lead (TrimSpace head) = Closed ->
  exists s,
    NewBlockStmt head body = Ok s /\
    HeadRaw s = TrimSpace head /\
    Keyword s = keywordSpec (HeadRaw s) /\
    Body s = body /\
    forall buf,
      writeTo (StmtNode s) buf =
      buf ++ TrimSpace head ++ B " {" ++
      (match body with
       | [] => []
       | _ :: _ => closeLine ([nl] ++ bodyText body)
       end) ++ B "};".
Proof.
  intros Ha Hc. unfold NewBlockStmt.
  rewrite (firstIdent_on_closed _ Hc). cbn [bind].
  eexists. split; [reflexivity |].
  cbn [HeadRaw Keyword Body].
  split; [reflexivity | split; [reflexivity | split; [reflexivity |]]].
  intros buf. rewrite writeTo_block by reflexivity.
  unfold regenBlock, blockHead. cbn [HeadRaw Keyword Body].
  rewrite (trimRightSpace_keeps _ (TrimSpace_ascii head Ha)).
  destruct (TrimSpace head) as [| c t] eqn:Ht.
  - reflexivity.
  - rewrite len_cons.
    replace (len t + 1 =? 0) with false
      by (symmetry; apply Z.eqb_neq; pose proof (len_nonneg t); lia).
    reflexivity.
Qed.

(** X13.  The constructors panic on a head that, once cut, ends inside
    a leading comment that runs to the end of the line: so does
    [NewSimpleStmt] on any head that is a comment line, whose newline
    it cuts. *)
Theorem constructors_panic (head : bytes) (body : list Node) :
  (triviaEnd Lead (TrimRight head simpleCutset) = OpenLine ->
   NewSimpleStmt head = Panic) /\
  (triviaEnd Lead (TrimSpace head) = OpenLine ->
   NewBlockStmt head body = Panic).
Proof.
  split; intros Hc.
  - unfold NewSimpleStmt. change (B "; " ++ [tab; cr; nl]) with simpleCutset.
    rewrite (firstIdent_on_open_line _ Hc). reflexivity.
  - unfold NewBlockStmt. rewrite (firstIdent_on_open_line _ Hc). reflexivity.
Qed.

(** X14.  Appending nodes one by one to a statement that [NewBlockStmt]
    built gives the statement that [NewBlockStmt] builds from the body
    with the nodes at its end. *)
Theorem NewBlockStmt_append (head : bytes) (body ns : list Node) (s : Stmt) :
  NewBlockStmt head body = Ok s ->
  NewBlockStmt head (body ++ ns) = Ok (fold_left AppendToBody ns s).
Proof.
  unfold NewBlockStmt. destruct (firstIdent (TrimSpace head)) as [ident | | |];
    cbn [bind]; try discriminate.
  intros H. inversion H; subst s; clear H. f_equal.
  revert body. induction ns as [| n ns IH]; intros body.
  - rewrite app_nil_r. reflexivity.
  - cbn [fold_left]. unfold AppendToBody at 2. cbn.
    rewrite <- IH, <- app_assoc. reflexivity.
Qed.

End FirstIdentAny.

(** ** The spans and the shape of a parsed tree *)

Lemma Forall_slice (P : byte -> Prop) (s : bytes) :
  forall (m : nat) (a b : Z),
    (Z.to_nat (b - a) <= m)%nat -> 0 <= a -> b <= len s ->
    (forall x, a <= x -> x < b -> P (at_ s x)) ->
    Forall P (slice s a b).
Proof.
  induction m as [| m IH]; intros a b Hm Ha Hb Hall.
  - rewrite slice_empty by lia. constructor.
  - destruct (Z_lt_le_dec a b) as [Hlt | Hge].
    + rewrite <- (slice_app s a (a + 1) b) by lia.
      rewrite slice_succ by lia. cbn [app]. constructor.
      * apply Hall; lia.
      * apply IH; try lia. intros x X1 X2. apply Hall; lia.
    + rewrite slice_empty by lia. constructor.
Qed.

Lemma Tiles_app (l1 l2 : list Node) :
  forall a b c, Tiles l1 a b -> Tiles l2 b c -> Tiles (l1 ++ l2) a c.
Proof.
  induction l1 as [| n l1 IH]; intros a b c H1 H2.
  - cbn in H1. subst b. exact H2.
  - cbn [Tiles app] in *. destruct H1 as (T1 & T2 & T3).
    split; [exact T1 | split; [exact T2 |]]. apply (IH _ b); assumption.
Qed.

Lemma everyNode_stmt (P : Node -> Prop) (s : Stmt) :
  everyNode P (StmtNode s) <->
  P (StmtNode s) /\ Forall (everyNode P) (Body s).
Proof.
  cbn [everyNode].
  assert (H : forall l,
            (fix every (l : list Node) : Prop :=
               match l with
               | [] => True
               | x :: l' => everyNode P x /\ every l'
               end) l <-> Forall (everyNode P) l).
  { induction l as [|x l IH].
    - split; intros; [constructor | exact I].
    - split.
      + intros [H1 H2]; constructor; [assumption | apply IH; assumption].
      + intros H; inversion H; subst; split; [assumption | apply IH; assumption]. }
  rewrite H; reflexivity.
Qed.

Lemma everyNode_top (P : Node -> Prop) (n : Node) : everyNode P n -> P n.
Proof. destruct n; cbn [everyNode]; intros [H _]; exact H. Qed.

Lemma everyNode_impl (P Q : Node -> Prop) :
  (forall n, P n -> Q n) -> forall n, everyNode P n -> everyNode Q n.
Proof.
  intros HPQ. induction n as [r | s IH] using Node_forall.
  - cbn. intros [H _]. split; [apply HPQ; exact H | exact I].
  - rewrite !everyNode_stmt. intros [H1 H2]. split; [apply HPQ; exact H1 |].
    rewrite Forall_forall in *. intros x Hx. apply IH; [exact Hx |].
    apply H2. exact Hx.
Qed.

Lemma everyNode_everyStmt (P : Node -> Prop) (Q : Stmt -> Prop) :
  (forall s, P (StmtNode s) -> Q s) ->
  forall n, everyNode P n -> everyStmt Q n.
Proof.
  intros HPQ. induction n as [r | s IH] using Node_forall.
  - intros _. exact I.
  - rewrite everyNode_stmt, everyStmt_stmt. intros [H1 H2].
    split; [apply HPQ; exact H1 |].
    rewrite Forall_forall in *. intros x Hx. apply IH; [exact Hx |].
    apply H2. exact Hx.
Qed.

Lemma Groups_apart (g : list Node) :
  Groups g -> forall t, RawsApart t -> RawsApart (g ++ t).
Proof.
  induction 1 as [| nodes s Hg IH | nodes r s Hsp Hg IH]; intros t Ht.
  - exact Ht.
  - rewrite <- app_assoc. apply IH. cbn [app RawsApart]. exact Ht.
  - rewrite <- app_assoc. apply IH. cbn [app RawsApart].
    split; [exact Hsp | split; [eexists; reflexivity | exact Ht]].
Qed.

Section Shape.
Context {U : Unicode}.

(** The fields of the statement that [buildStmt] returns on a segment
    that ends with its only top-level semicolon, as slices of the
    segment. *)
Lemma buildStmt_shape (parse : Z -> Z -> outcome (list Node))
    (seg : bytes) (absStart : Z) (s : Stmt) :
  1 <= len seg -> at_ seg (len seg - 1) = ";"%byte ->
  buildStmt parse seg absStart = Ok s ->
  (HasBlock s = false /\ HeadRaw s = slice seg 0 (len seg - 1) /\
   LBraceRaw s = [] /\ Body s = [] /\ RBraceRaw s = [] /\
   TrailingAfterR s = []) \/
  (HasBlock s = true /\
   exists bo lb bc rb,
     0 <= bo /\ bo < lb /\ lb <= bc /\ bc < rb /\ rb <= len seg - 1 /\
     HeadRaw s = slice seg 0 bo /\ LBraceRaw s = slice seg bo lb /\
     RBraceRaw s = slice seg bc rb /\
     TrailingAfterR s = slice seg rb (len seg - 1) /\
     at_ seg bo = "{"%byte /\ at_ seg bc = "}"%byte /\
     (forall x, bo < x -> x < lb -> isSpace (at_ seg x) = true) /\
     (forall x, bc < x -> x < rb -> isSpace (at_ seg x) = true) /\
     ((lb = bc /\ Body s = []) \/
      (lb < bc /\
       (parse (absStart + lb) (absStart + bc) = Ok (Body s) \/
        exists e, parse (absStart + lb) (absStart + bc) = Err e)))).
Proof.
  intros Hlen Hsemi H.
  unfold buildStmt in H.
  destruct (scanLoop_inv seg (fuelFrom seg 0) (mkS 0 0 false false false (-1) (-1)))
    as (st & Hloop & Hinv & Hend).
  { apply ScanInv_init. }
  { unfold fuelFrom; cbn [b_i]; lia. }
  rewrite Hloop in H; cbn [bind] in H.
  rewrite (LastIndexByte_last seg ";"%byte Hlen Hsemi) in H.
  replace (len seg - 1 <? 0) with false in H by (symmetry; apply Z.ltb_ge; lia).
  destruct Hinv as (I1 & I2 & I3 & I4 & I5 & I6).
  destruct ((b_braceOpen st >=? 0) && (b_braceClose st >=? 0) &&
            (b_braceClose st >? b_braceOpen st)) eqn:Eblock.
  - (* a block statement *)
    right.
    apply andb_prop in Eblock; destruct Eblock as [Eb E3].
    apply andb_prop in Eb; destruct Eb as [E1 E2].
    apply Z.geb_le in E1, E2. apply Z.gtb_lt in E3.
    destruct I5 as [I5 | (O1 & O2 & O3 & O4)]; [lia|].
    destruct I6 as [I6 | (C1 & C2 & C3 & C4)]; [lia|].
    assert (Hclose : b_braceClose st <= len seg - 2).
    { destruct (Z.eq_dec (b_braceClose st) (len seg - 1)) as [Heq|]; [|lia].
      rewrite Heq, Hsemi in C4; discriminate. }
    rewrite sl_in in H by lia; cbn [bind] in H.
    destruct (countWhile_spec
                (fun lbEnd => (lbEnd <? len seg) && isSpace (at_ seg lbEnd) &&
                              (lbEnd <? b_braceClose st))
                (b_braceClose st)) with
      (fuel := fuelFrom seg (b_braceOpen st + 1)) (j := b_braceOpen st + 1)
      as (L1 & L2 & _ & L4).
    { intros x Hx. apply andb_prop in Hx; destruct Hx as [_ Hx].
      apply Z.ltb_lt in Hx; exact Hx. }
    { lia. }
    { unfold fuelFrom; lia. }
    set (lbEnd := countWhile _ (fuelFrom seg (b_braceOpen st + 1)) (b_braceOpen st + 1)) in *.
    rewrite (sl_in seg (b_braceOpen st) lbEnd) in H by lia; cbn [bind] in H.
    rewrite (sl_in seg lbEnd (b_braceClose st)) in H by lia; cbn [bind] in H.
    destruct (countWhile_spec
                (fun rbEnd => (rbEnd <? len seg - 1) && isSpace (at_ seg rbEnd))
                (len seg - 1)) with
      (fuel := fuelFrom seg (b_braceClose st + 1)) (j := b_braceClose st + 1)
      as (R1 & R2 & _ & R4).
    { intros x Hx. apply andb_prop in Hx; destruct Hx as [Hx _].
      apply Z.ltb_lt in Hx; exact Hx. }
    { lia. }
    { unfold fuelFrom; lia. }
    set (rbEnd := countWhile _ (fuelFrom seg (b_braceClose st + 1)) (b_braceClose st + 1)) in *.
    rewrite (len_slice seg lbEnd (b_braceClose st)) in H by lia.
    match type of H with
    | bind (bind ?m _) _ = _ => destruct m as [body | | |] eqn:Ebody
    end; cbn [bind] in H; try discriminate H.
    rewrite (sl_in seg (b_braceClose st) rbEnd) in H by lia; cbn [bind] in H.
    rewrite (sl_in seg rbEnd (len seg - 1)) in H by lia; cbn [bind] in H.
    destruct (firstIdent (slice seg 0 (b_braceOpen st))); cbn [bind] in H;
      try discriminate H.
    injection H as <-.
    cbn [HasBlock HeadRaw LBraceRaw Body RBraceRaw TrailingAfterR].
    split; [reflexivity |].
    exists (b_braceOpen st), lbEnd, (b_braceClose st), rbEnd.
    do 5 (split; [lia |]).
    do 4 (split; [reflexivity |]).
    split; [exact O4 | split; [exact C4 | split; [| split]]].
    + intros x X1 X2. specialize (L4 x ltac:(lia) X2).
      apply andb_prop in L4. destruct L4 as [L4 _].
      apply andb_prop in L4. destruct L4 as [_ L4]. exact L4.
    + intros x X1 X2. specialize (R4 x ltac:(lia) X2).
      apply andb_prop in R4. destruct R4 as [_ R4]. exact R4.
    + destruct (b_braceClose st - lbEnd >? 0) eqn:Eb.
      * right. apply Z.gtb_lt in Eb. split; [lia |].
        destruct (parse (absStart + lbEnd) (absStart + b_braceClose st))
          as [nodes | e | |]; try discriminate Ebody.
        -- left. congruence.
        -- right. exists e. reflexivity.
      * left. rewrite Z.gtb_ltb in Eb. apply Z.ltb_ge in Eb.
        split; [lia | congruence].
  - (* a simple statement *)
    left.
    rewrite sl_in in H by lia; cbn [bind] in H.
    destruct (firstIdent (slice seg 0 (len seg - 1))); cbn [bind] in H;
      try discriminate H.
    injection H as <-. cbn. repeat split; reflexivity.
Qed.

End Shape.

Section Tree.
Context {U : Unicode}.

(** The statement that [buildStmt] makes of [src[k:i+1]], with the body
    parsed by [parseRange] on less fuel. *)
Lemma buildStmt_good (src : bytes) (f : nat) (k i : Z) (s : Stmt) :
  (forall a b nodes,
     0 <= a -> a <= b -> b <= len src -> b - a < Z.of_nat f ->
     parseRange f src a b = Ok nodes ->
     Tiles nodes a b /\ Forall (everyNode (Good src)) nodes /\
     RawsApart nodes) ->
  0 <= k -> k <= i -> i < len src -> i + 1 - k <= Z.of_nat f ->
  at_ src i = ";"%byte -> isSpace (at_ src k) = false ->
  buildStmt (parseRange f src) (slice src k (i + 1)) k = Ok s ->
  everyNode (Good src) (StmtNode s).
Proof.
  intros IHf Hk Hki Hi Hfuel Hsemi Hfirst Hb.
  set (seg := slice src k (i + 1)) in *.
  assert (Hlen : len seg = i + 1 - k) by (unfold seg; rewrite len_slice; lia).
  assert (Hat : forall x, 0 <= x -> x < len seg -> at_ seg x = at_ src (k + x)).
  { intros x X1 X2. unfold seg. apply at_slice; lia. }
  assert (Hlast : at_ seg (len seg - 1) = ";"%byte).
  { rewrite Hat by lia. rewrite <- Hsemi. f_equal. lia. }
  destruct (buildStmt_raw _ _ _ _ Hb) as (Hraw & Hstart & Hend & Hmod).
  assert (Hsc : slice seg (len seg - 1) (len seg) = B ";").
  { replace (slice seg (len seg - 1) (len seg))
      with (slice seg (len seg - 1) (len seg - 1 + 1)) by (f_equal; lia).
    rewrite slice_succ by lia. rewrite Hlast. reflexivity. }
  assert (Hspan : SpanOk src (StmtNode s)).
  { unfold SpanOk. cbn [Start End_ nodeText]. rewrite Hstart, Hend, Hraw, Hlen.
    replace (k + (i + 1 - k)) with (i + 1) by lia.
    repeat split; try lia. }
  assert (Hns : isSpace (at_ (RawText s) 0) = false).
  { rewrite Hraw, Hat by lia. rewrite Z.add_0_r. exact Hfirst. }
  assert (Hl1 : 1 <= len seg) by lia.
  destruct (buildStmt_shape _ _ _ _ Hl1 Hlast Hb)
    as [(Hhb & Hhead & Hlb & Hbody & Hrb & Htr) |
        (Hhb & bo & lb & bc & rb & B1 & B2 & B3 & B4 & B5 & Hhead & Hlb &
         Hrb & Htr & Hopen & Hclose & Hsp1 & Hsp2 & Hbody)].
  - (* a simple statement *)
    rewrite everyNode_stmt. split.
    2: { rewrite Hbody. constructor. }
    split; [exact Hspan |]. split; [exact Hmod |].
    split; [| split; [| split; [| exact Hns]]].
    + unfold Decomposed. rewrite Hhb, Hlb, Hbody, Hrb, Htr, Hhead, Hraw.
      split; [| repeat split].
      cbn [app writeNodes fold_left]. rewrite <- Hsc.
      rewrite slice_app by lia. symmetry. apply slice_full.
    + unfold bodyStart, bodyEnd.
      rewrite Hbody, Hstart, Hend, Hhead, Hlb, Hrb, Htr.
      rewrite len_slice by lia. cbn [Tiles].
      change (len (@nil byte)) with 0. lia.
    + rewrite Hbody. exact I.
  - (* a block statement *)
    assert (Hin : writeNodes (Body s) [] = slice seg lb bc /\
                  Tiles (Body s) (k + lb) (k + bc) /\
                  Forall (everyNode (Good src)) (Body s) /\
                  RawsApart (Body s)).
    { destruct Hbody as [[Heq Hbody] | [Hlt Hbody]].
      - rewrite Hbody. subst bc. rewrite slice_empty by lia.
        repeat split; constructor.
      - destruct (parseRange_ok f src (k + lb) (k + bc))
          as (nodes & Hp & Hw & _); try lia.
        destruct Hbody as [Hbody | [e Hbody]]; [| congruence].
        assert (nodes = Body s) by congruence. subst nodes.
        destruct (IHf (k + lb) (k + bc) (Body s)) as (T1 & T2 & T3);
          try lia; try assumption.
        split; [| auto].
        rewrite Hw. unfold seg. rewrite slice_slice by lia. reflexivity. }
    destruct Hin as (Hw & Htiles & Hall & Hapart).
    rewrite everyNode_stmt. split; [| exact Hall].
    split; [exact Hspan |]. split; [exact Hmod |].
    split; [| split; [| split; [exact Hapart | exact Hns]]].
    + unfold Decomposed. rewrite Hhb, Hlb, Hrb, Htr, Hhead, Hraw, Hw.
      split; [| split].
      * rewrite <- Hsc. rewrite !slice_app by lia. symmetry. apply slice_full.
      * exists (slice seg (bo + 1) lb). split.
        -- rewrite <- (slice_app seg bo (bo + 1) lb) by lia.
           rewrite slice_succ by lia. rewrite Hopen. reflexivity.
        -- apply (Forall_slice _ seg (Z.to_nat (lb - (bo + 1)))); try lia.
           intros x X1 X2. apply Hsp1; lia.
      * exists (slice seg (bc + 1) rb). split.
        -- rewrite <- (slice_app seg bc (bc + 1) rb) by lia.
           rewrite slice_succ by lia. rewrite Hclose. reflexivity.
        -- apply (Forall_slice _ seg (Z.to_nat (rb - (bc + 1)))); try lia.
           intros x X1 X2. apply Hsp2; lia.
    + unfold bodyStart, bodyEnd. rewrite Hstart, Hend, Hhead, Hlb, Hrb, Htr.
      rewrite !len_slice by lia.
      replace (k + (bo - 0) + (lb - bo)) with (k + lb) by lia.
      replace (k + len seg - 1 - (len seg - 1 - rb) - (rb - bc))
        with (k + bc) by lia.
      exact Htiles.
Qed.

(** The invariant of the loop of [parseRange]. *)
Lemma loop_good (src : bytes) (f : nat) (start end_ : Z) :
  (forall a b nodes,
     0 <= a -> a <= b -> b <= len src -> b - a < Z.of_nat f ->
     parseRange f src a b = Ok nodes ->
     Tiles nodes a b /\ Forall (everyNode (Good src)) nodes /\
     RawsApart nodes) ->
  0 <= start -> start <= end_ -> end_ <= len src ->
  end_ - start <= Z.of_nat f ->
  forall st,
    PReach (buildStmt (parseRange f src)) src start end_ st ->
    LInv src start end_ st.
Proof.
  intros IHf Hs Hse He Hfuel st HR.
  induction HR as [| st st' HR IH Hlt Hstep].
  - unfold LInv. cbn [p_nodes p_i p_last Tiles].
    repeat split; try lia; constructor.
  - destruct IH as (I1 & I2 & I3 & I4 & I5 & I6).
    destruct (boundary_dec src st) as [(B1 & B2 & B3) | Hnb].
    + (* a statement boundary *)
      destruct (parseStep_boundary (buildStmt (parseRange f src)) src end_ st)
        as (k & K1 & K2 & K3 & K4 & K5 & K6); try lia; try assumption.
      rewrite K6 in Hstep. cbv zeta in Hstep.
      destruct (buildStmt (parseRange f src) (slice src k (p_i st + 1)) k)
        as [s | e | |] eqn:Eb; try discriminate Hstep.
      2: { exfalso.
           assert (Herr : exists e,
                     buildStmt (parseRange f src) (slice src k (p_i st + 1)) k
                     = Err e) by (exists e; exact Eb).
           pose proof (proj1 (buildStmt_err_iff _ _ _) Herr) as Hno.
           apply (Hno (p_i st - k)); try lia.
           - rewrite len_slice by lia. lia.
           - rewrite at_slice by lia.
             replace (k + (p_i st - k)) with (p_i st) by lia. exact B2. }
      injection Hstep as <-.
      assert (Hfirst : isSpace (at_ src k) = false).
      { destruct (Z.eq_dec k (p_i st)) as [-> | Hne].
        - rewrite B2. reflexivity.
        - apply K5. lia. }
      assert (Hgood : everyNode (Good src) (StmtNode s)).
      { apply (buildStmt_good src f k (p_i st)); try lia; assumption. }
      destruct (buildStmt_raw _ _ _ _ Eb) as (Hraw & Hstart & Hend & Hmod).
      assert (Hend' : s_end s = p_i st + 1).
      { rewrite Hend, len_slice by lia. lia. }
      unfold LInv. cbn [p_nodes p_i p_last].
      split; [lia | split; [lia | split; [lia |]]].
      destruct (k >? p_last st) eqn:Ek.
      * apply Z.gtb_lt in Ek. rewrite <- app_assoc. cbn [app].
        split; [| split].
        -- apply (Tiles_app _ _ _ (p_last st)); [exact I4 |].
           cbn [Tiles Start End_ r_start r_end]. rewrite Hstart, Hend'.
           repeat split; lia.
        -- apply Forall_app. split; [exact I5 |].
           constructor; [| constructor; [exact Hgood | constructor]].
           cbn [everyNode]. split; [| exact I].
           split; [| exact I]. unfold SpanOk.
           cbn [Start End_ nodeText Text r_start r_end].
           repeat split; lia.
        -- apply Groups_raw; [| exact I6]. cbn [Text].
           apply (Forall_slice _ src (Z.to_nat (k - p_last st))); try lia.
           intros x X1 X2. apply K4; lia.
      * rewrite Z.gtb_ltb in Ek. apply Z.ltb_ge in Ek.
        assert (Hkl : k = p_last st) by lia. rewrite app_nil_r.
        split; [| split].
        -- apply (Tiles_app _ _ _ (p_last st)); [exact I4 |].
           cbn [Tiles Start End_]. rewrite Hstart, Hend'.
           repeat split; lia.
        -- apply Forall_app. split; [exact I5 |].
           constructor; [exact Hgood | constructor].
        -- apply Groups_stmt. exact I6.
    + (* any other byte *)
      assert (Hi0 : 0 <= p_i st) by lia.
      destruct (parseStep_plain (buildStmt (parseRange f src)) src end_ st
                  Hi0 Hlt He Hnb) as (st'' & P1 & P2 & P3 & P4 & _).
      assert (st'' = st') by congruence. subst st''.
      pose proof (lexStep_incr src end_ (lexP st)) as Hinc.
      rewrite <- P2 in Hinc. unfold lexP in Hinc. cbn [l_i] in Hinc.
      specialize (Hinc Hlt).
      unfold LInv. rewrite P3, P4.
      repeat split; try lia; assumption.
Qed.

(** What [parseRange] returns. *)
Lemma parseRange_good (src : bytes) :
  forall (f : nat) (a b : Z) (nodes : list Node),
    0 <= a -> a <= b -> b <= len src -> b - a < Z.of_nat f ->
    parseRange f src a b = Ok nodes ->
    Tiles nodes a b /\ Forall (everyNode (Good src)) nodes /\
    RawsApart nodes.
Proof.
  induction f as [| f IHf]; intros a b nodes Ha Hab Hb Hfuel H; [lia |].
  cbn [parseRange] in H.
  destruct (parseLoop (buildStmt (parseRange f src)) src b (Z.to_nat (b - a))
              (mkP [] a a 0 false false false)) as [st | | |] eqn:Eloop;
    cbn [bind] in H; try discriminate H.
  assert (HR : PReach (buildStmt (parseRange f src)) src a b st).
  { apply (parseLoop_reach _ _ _ _ _ _ _ (PReach_init _ _ _ _) Eloop). }
  destruct (loop_good src f a b IHf Ha Hab Hb ltac:(lia) st HR)
    as (I1 & I2 & I3 & I4 & I5 & I6).
  destruct (p_last st <? b) eqn:El.
  - apply Z.ltb_lt in El. rewrite sl_in in H by lia. cbn [bind] in H.
    injection H as <-. split; [| split].
    + apply (Tiles_app _ _ _ (p_last st)); [exact I4 |].
      cbn [Tiles Start End_ r_start r_end]. repeat split; lia.
    + apply Forall_app. split; [exact I5 |]. constructor; [| constructor].
      cbn [everyNode]. split; [| exact I]. split; [| exact I].
      unfold SpanOk. cbn [Start End_ nodeText Text r_start r_end].
      repeat split; lia.
    + apply Groups_apart; [exact I6 |]. exact I.
  - apply Z.ltb_ge in El. injection H as <-.
    assert (Hlb : p_last st = b) by lia.
    split; [| split].
    + rewrite <- Hlb. exact I4.
    + exact I5.
    + rewrite <- (app_nil_r (p_nodes st)). apply Groups_apart; [exact I6 |].
      exact I.
Qed.

(** What [Parse] returns. *)
Lemma Parse_good (src : bytes) :
  exists nodes,
    Parse src = Ok (mkFile nodes src) /\
    Tiles nodes 0 (len src) /\ Forall (everyNode (Good src)) nodes /\
    RawsApart nodes.
Proof.
  destruct (Parse_ok src) as (nodes & Hp & _).
  exists nodes. split; [exact Hp |].
  unfold Parse in Hp.
  destruct (parseRange (S (List.length src)) src 0 (len src)) as [nodes' | | |]
    eqn:E; cbn [bind] in Hp; try discriminate Hp.
  injection Hp as ->.
  apply (parseRange_good src (S (List.length src)) 0 (len src)); try lia.
  - apply len_nonneg.
  - unfold len. lia.
  - exact E.
Qed.

(** X15.  Every node of a parsed file, at any depth, spans a range of
    the source that is not empty and lies within it, and its text is
    the bytes of the source over that range. *)
Theorem parsed_spans (src : bytes) :
  exists f,
    Parse src = Ok f /\ Forall (everyNode (SpanOk src)) (Nodes f).
Proof.
  destruct (Parse_good src) as (nodes & Hp & _ & Hall & _).
  exists (mkFile nodes src). split; [exact Hp |]. cbn [Nodes].
  revert Hall. apply Forall_impl. apply everyNode_impl.
  intros n [H _]. exact H.
Qed.

(** X16.  The spans of the top-level nodes of a parsed file follow one
    another from offset 0 to the length of the source, without gap or
    overlap, and so do the spans of the nodes of the body of every
    statement, from the end of its opening brace and the spaces after
    it to its closing brace. *)
Theorem parsed_tiling (src : bytes) :
  exists f,
    Parse src = Ok f /\
    Tiles (Nodes f) 0 (len src) /\
    Forall (everyStmt (fun s => Tiles (Body s) (bodyStart s) (bodyEnd s)))
      (Nodes f).
Proof.
  destruct (Parse_good src) as (nodes & Hp & Ht & Hall & _).
  exists (mkFile nodes src). split; [exact Hp |]. cbn [Nodes].
  split; [exact Ht |].
  revert Hall. apply Forall_impl. apply everyNode_everyStmt.
  intros s (_ & _ & _ & H & _). exact H.
Qed.

(** X17.  The fields of every statement of a parsed file hold its
    original text in pieces: the head, the opening brace with the
    spaces after it, the serialized body, the closing brace with the
    spaces after it, the text up to the semicolon, and the semicolon;
    the four pieces of the block are empty in a statement without
    block. *)
Theorem parsed_decomposition (src : bytes) :
  exists f,
    Parse src = Ok f /\ Forall (everyStmt Decomposed) (Nodes f).
Proof.
  destruct (Parse_good src) as (nodes & Hp & _ & Hall & _).
  exists (mkFile nodes src). split; [exact Hp |]. cbn [Nodes].
  revert Hall. apply Forall_impl. apply everyNode_everyStmt.
  intros s (_ & _ & H & _). exact H.
Qed.

(** X18.  In a parsed file, among the top-level nodes and among the
    nodes of every body, a [Raw] node that is not the last one holds
    spaces only and is followed by a statement, so that no two [Raw]
    nodes are neighbours; and the text of every statement begins with
    a byte that is not a space. *)
Theorem parsed_raws_apart (src : bytes) :
  exists f,
    Parse src = Ok f /\
    RawsApart (Nodes f) /\
    Forall (everyStmt (fun s => RawsApart (Body s) /\
                                isSpace (at_ (RawText s) 0) = false))
      (Nodes f).
Proof.
  destruct (Parse_good src) as (nodes & Hp & _ & Hall & Ha).
  exists (mkFile nodes src). split; [exact Hp |]. cbn [Nodes].
  split; [exact Ha |].
  revert Hall. apply Forall_impl. apply everyNode_everyStmt.
  intros s (_ & _ & _ & _ & H1 & H2). split; assumption.
Qed.

(** X19.  A parsed statement without block that is marked modified is
    written as its head without the spaces at its end, followed by the
    semicolon; its original text is its head followed by the semicolon.
    After its head is replaced it is written as the new head without
    the spaces at its end, followed by the semicolon, except that after
    a replacement by the empty string it is written as its original
    text. *)
Theorem parsed_simple_rewritten (src : bytes) :
  exists f,
    Parse src = Ok f /\
    Forall
      (everyStmt
         (fun s =>
            HasBlock s = false ->
            RawText s = HeadRaw s ++ B ";" /\
            forall buf,
              writeTo (StmtNode (MarkModified s)) buf =
                buf ++ trimRightSpace (HeadRaw s) ++ B ";" /\
              forall newHead,
                writeTo (StmtNode (ReplaceHead s newHead)) buf =
                buf ++ (if len newHead =? 0 then RawText s
                        else trimRightSpace newHead ++ B ";")))
      (Nodes f).
Proof.
  destruct (Parse_good src) as (nodes & Hp & _ & Hall & _).
  exists (mkFile nodes src). split; [exact Hp |]. cbn [Nodes].
  revert Hall. apply Forall_impl. apply everyNode_everyStmt.
  intros s (_ & _ & [Hd Hf] & _) Hb. rewrite Hb in Hf.
  destruct Hf as (F1 & F2 & F3 & F4).
  rewrite F1, F2, F3, F4 in Hd. cbn [writeNodes fold_left app] in Hd.
  split; [exact Hd |]. intros buf. split.
  - cbn [writeTo MarkModified Modified RawText HasBlock HeadRaw negb andb].
    rewrite Hb. cbn [negb].
    destruct (len (HeadRaw s) =? 0) eqn:E.
    + apply Z.eqb_eq in E. apply len_zero in E. rewrite Hd, E. reflexivity.
    + rewrite <- app_assoc. reflexivity.
  - intros newHead.
    cbn [writeTo ReplaceHead Modified RawText HasBlock HeadRaw negb andb].
    rewrite Hb. cbn [negb].
    destruct (len newHead =? 0); [reflexivity |].
    rewrite <- app_assoc. reflexivity.
Qed.

Lemma no_semicolon_loop (build : bytes -> Z -> outcome Stmt) (src : bytes)
    (start end_ : Z) :
  0 <= start -> end_ <= len src ->
  (forall j, start <= j -> j < end_ -> at_ src j <> ";"%byte) ->
  forall st,
    PReach build src start end_ st ->
    p_nodes st = [] /\ p_last st = start /\ start <= p_i st.
Proof.
  intros Hs He Hno st HR.
  induction HR as [| st st' HR IH Hlt Hstep].
  - cbn. repeat split; lia.
  - destruct IH as (I1 & I2 & I3).
    assert (Hnb : ~ (lexP st = Normal (p_i st) /\
                     at_ src (p_i st) = ";"%byte /\ p_depth st = 0)).
    { intros (_ & H & _). exact (Hno (p_i st) I3 Hlt H). }
    destruct (parseStep_plain build src end_ st ltac:(lia) Hlt He Hnb)
      as (st'' & P1 & P2 & P3 & P4 & _).
    assert (st'' = st') by congruence. subst st''.
    pose proof (lexStep_incr src end_ (lexP st)) as Hinc.
    rewrite <- P2 in Hinc. unfold lexP in Hinc. cbn [l_i] in Hinc.
    specialize (Hinc Hlt).
    rewrite P3, P4. repeat split; try assumption. lia.
Qed.

Lemma at_In (s : bytes) (j : Z) : 0 <= j -> j < len s -> In (at_ s j) s.
Proof.
  intros H0 Hj. unfold at_. apply nth_In. unfold len in Hj. lia.
Qed.

(** X20.  A source without any semicolon parses to a single [Raw] node
    that holds the whole source; the empty source parses to no node. *)
Theorem Parse_no_semicolon (src : bytes) :
  Forall (fun c => c <> ";"%byte) src ->
  Parse src =
  Ok (mkFile (if 0 <? len src then [RawNode (mkRaw src 0 (len src))] else [])
        src).
Proof.
  intros Hno. destruct (Parse_ok src) as (nodes & Hp & _).
  rewrite Hp. f_equal. f_equal.
  unfold Parse in Hp.
  destruct (parseRange (S (List.length src)) src 0 (len src)) as [nodes' | | |]
    eqn:E; cbn [bind] in Hp; try discriminate Hp.
  injection Hp as ->. cbn [parseRange] in E.
  match type of E with
  | bind ?m _ = _ => destruct m as [st | | |] eqn:Eloop
  end; cbn [bind] in E; try discriminate E.
  assert (HR : PReach (buildStmt (parseRange (List.length src) src)) src 0
                 (len src) st).
  { apply (parseLoop_reach _ _ _ _ _ _ _ (PReach_init _ _ _ _) Eloop). }
  assert (Hat : forall j, 0 <= j -> j < len src -> at_ src j <> ";"%byte).
  { intros j J1 J2. rewrite Forall_forall in Hno. apply Hno.
    apply at_In; lia. }
  destruct (no_semicolon_loop _ src 0 (len src) (Z.le_refl 0)
              (Z.le_refl (len src)) Hat st HR) as (N1 & N2 & N3).
  rewrite N1, N2 in E.
  destruct (0 <? len src) eqn:El.
  - apply Z.ltb_lt in El. rewrite sl_in in E by lia. cbn [bind] in E.
    rewrite slice_full in E. injection E as <-. reflexivity.
  - injection E as <-. reflexivity.
Qed.

End Tree.

(** ** Edits and the original bytes *)

Lemma writeNodes_buf (l : list Node) :
  forall buf, writeNodes l buf = buf ++ writeNodes l [].
Proof.
  induction l as [| n l IH]; intros buf.
  - cbn. rewrite app_nil_r. reflexivity.
  - rewrite !writeNodes_cons, IH, (IH (writeTo n [])), writeTo_buf.
    rewrite app_assoc. reflexivity.
Qed.

Lemma Tiles_split (l1 l2 : list Node) :
  forall a c, Tiles (l1 ++ l2) a c -> exists b, Tiles l1 a b /\ Tiles l2 b c.
Proof.
  induction l1 as [| n l1 IH]; intros a c H.
  - exists a. split; [reflexivity | exact H].
  - cbn [app Tiles] in H. destruct H as (H1 & H2 & H3).
    destruct (IH _ _ H3) as (b & T1 & T2).
    exists b. cbn [Tiles]. auto.
Qed.

Lemma Good_written (src : bytes) (n : Node) :
  Good src n -> writeTo n [] = slice src (Start n) (End_ n).
Proof.
  intros [(S1 & S2 & S3 & S4) H]. destruct n as [r | s].
  - cbn [writeTo app]. exact S4.
  - destruct H as (Hm & _). cbn [nodeText Start End_] in *.
    rewrite writeTo_unmodified; [exact S4 | exact Hm |].
    intros Hnil. rewrite Hnil in S4.
    apply (f_equal (@len byte)) in S4. rewrite len_slice in S4 by lia.
    change (len (@nil byte)) with 0 in S4. lia.
Qed.

Lemma Tiles_written (src : bytes) (nodes : list Node) :
  forall a b,
    0 <= a -> Tiles nodes a b -> Forall (everyNode (Good src)) nodes ->
    a <= b /\ writeNodes nodes [] = slice src a b.
Proof.
  induction nodes as [| n nodes IH]; intros a b Ha Ht Hall.
  - cbn in Ht. subst b. split; [lia |]. rewrite slice_empty by lia.
    reflexivity.
  - cbn [Tiles] in Ht. destruct Ht as (T1 & T2 & T3).
    apply Forall_cons_iff in Hall. destruct Hall as [Hn Hrest].
    destruct (IH (End_ n) b ltac:(lia) T3 Hrest) as [Hle Hw].
    split; [lia |].
    rewrite writeNodes_cons, writeNodes_buf, Hw.
    rewrite (Good_written src n (everyNode_top _ _ Hn)), T1.
    apply slice_app; lia.
Qed.

Section Edits.
Context {U : Unicode}.

(** X21.  An edit of a top-level statement of a parsed file is local:
    with the statement replaced by any other, the file is written as
    the bytes of the source before the span of the statement, the
    output of the replacement, and the bytes of the source after the
    span.  A change of the body of the statement alone, without the
    mark, changes nothing in what is written. *)
Theorem edit_is_local (src : bytes) :
  exists f,
    Parse src = Ok f /\
    forall pre s post,
      Nodes f = pre ++ StmtNode s :: post ->
      (forall s',
         Bytes (mkFile (pre ++ StmtNode s' :: post) src) =
         slice src 0 (s_start s) ++ writeTo (StmtNode s') [] ++
         slice src (s_end s) (len src)) /\
      (forall body,
         Bytes (mkFile (pre ++ StmtNode (withBody s body) :: post) src) = src).
Proof.
  destruct (Parse_good src) as (nodes & Hp & Ht & Hall & _).
  exists (mkFile nodes src). split; [exact Hp |]. cbn [Nodes].
  intros pre s post Hn. subst nodes.
  destruct (Tiles_split _ _ _ _ Ht) as (b & T1 & T2).
  cbn [Tiles Start End_] in T2. destruct T2 as (T2 & T3 & T4).
  apply Forall_app in Hall. destruct Hall as [Hpre Hrest].
  apply Forall_cons_iff in Hrest. destruct Hrest as [Hs Hpost].
  rewrite <- T2 in T1, T3.
  destruct (Tiles_written src pre 0 (s_start s) ltac:(lia) T1 Hpre) as [L1 W1].
  destruct (Tiles_written src post (s_end s) (len src) ltac:(lia) T4 Hpost)
    as [L2 W2].
  assert (Hedit : forall s',
            Bytes (mkFile (pre ++ StmtNode s' :: post) src) =
            slice src 0 (s_start s) ++ writeTo (StmtNode s') [] ++
            slice src (s_end s) (len src)).
  { intros s'. unfold Bytes. cbn [Nodes].
    rewrite writeNodes_app, writeNodes_cons, writeNodes_buf, writeTo_buf.
    rewrite W1, W2, <- app_assoc. reflexivity. }
  split; [exact Hedit |].
  intros body. rewrite Hedit.
  pose proof (everyNode_top _ _ Hs) as Hg.
  pose proof (Good_written src _ Hg) as Hw. cbn [Start End_] in Hw.
  destruct Hg as [(S1 & S2 & S3 & S4) (Hm & _)].
  cbn [Start End_ nodeText] in S1, S2, S3, S4.
  assert (Hsame : writeTo (StmtNode (withBody s body)) [] =
                  writeTo (StmtNode s) []).
  { rewrite !writeTo_unmodified; try reflexivity; try assumption.
    - intros Hnil. rewrite Hnil in S4.
      apply (f_equal (@len byte)) in S4. rewrite len_slice in S4 by lia.
      change (len (@nil byte)) with 0 in S4. lia.
    - cbn [withBody RawText]. intros Hnil. rewrite Hnil in S4.
      apply (f_equal (@len byte)) in S4. rewrite len_slice in S4 by lia.
      change (len (@nil byte)) with 0 in S4. lia. }
  rewrite Hsame, Hw, !slice_app by lia. apply slice_full.
Qed.

(** X22.  [buildStmt] returns its error on the segments that hold no
    semicolon and on no other segment. *)
Theorem buildStmt_error_iff (parse : Z -> Z -> outcome (list Node))
    (seg : bytes) (absStart : Z) :
  (exists e, buildStmt parse seg absStart = Err e) <->
  Forall (fun c => c <> ";"%byte) seg.
Proof.
  rewrite buildStmt_err_iff. split.
  - intros H. apply Forall_forall. intros c Hc.
    destruct (In_nth _ _ x00 Hc) as (n & Hn & Hnth).
    specialize (H (Z.of_nat n) ltac:(lia) ltac:(unfold len; lia)).
    unfold at_ in H. rewrite Nat2Z.id, Hnth in H. exact H.
  - intros H j J1 J2. rewrite Forall_forall in H. apply H.
    apply at_In; assumption.
Qed.

End Edits.

(** ** The keyword of a statement of an ASCII source *)

Lemma isASCII_Forall (s : bytes) :
  isASCII s = true <-> Forall (fun c => nonASCII c = false) s.
Proof.
  unfold isASCII. rewrite forallb_forall, Forall_forall.
  split; intros H x Hx; specialize (H x Hx).
  - apply negb_true_iff. exact H.
  - apply negb_true_iff. exact H.
Qed.

Lemma skipTrivia_Forall (P : byte -> Prop) :
  forall (n : nat) (s : bytes) (m : trivia),
    (List.length s <= n)%nat -> Forall P s -> Forall P (skipTrivia m s).
Proof.
  induction n as [| n IH]; intros s m Hn Hs.
  - destruct s; [constructor | cbn in Hn; lia].
  - destruct s as [| c s]; [constructor |].
    cbn [List.length] in Hn.
    pose proof (Forall_inv_tail Hs) as Hs'.
    destruct m.
    + rewrite skipTrivia_lead.
      destruct (unicode_IsSpace c); [apply IH; [lia | exact Hs'] |].
      destruct (c == "#"%byte); [apply IH; [lia | exact Hs'] |].
      destruct (c == "/"%byte); [| exact Hs].
      destruct s as [| c' s'']; [exact Hs |].
      cbn [List.length] in Hn.
      pose proof (Forall_inv_tail Hs') as Hs''.
      destruct (c' == "/"%byte); [apply IH; [lia | exact Hs''] |].
      destruct (c' == "*"%byte); [apply IH; [lia | exact Hs''] | exact Hs].
    + cbn [skipTrivia].
      destruct (c == nl); apply IH; try lia; exact Hs'.
    + destruct s as [| c' s'']; [constructor |].
      rewrite skipTrivia_block. cbn [List.length] in Hn.
      destruct ((c == "*"%byte) && (c' == "/"%byte)).
      * apply IH; [lia | exact (Forall_inv_tail Hs')].
      * apply IH; [cbn [List.length]; lia | exact Hs'].
Qed.

Lemma takeToken_Forall (P : byte -> Prop) (s : bytes) :
  Forall P s -> Forall P (takeToken s).
Proof.
  induction 1 as [| c s Hc Hs IH]; cbn [takeToken]; [constructor |].
  destruct (isDelim c); constructor; assumption.
Qed.

Lemma trimLeftByte_Forall (P : byte -> Prop) (c : byte) (s : bytes) :
  Forall P s -> Forall P (trimLeftByte s c).
Proof.
  induction 1 as [| x s Hx Hs IH]; cbn [trimLeftByte]; [constructor |].
  destruct (x == c); [exact IH | constructor; assumption].
Qed.

Lemma Trim1_Forall (P : byte -> Prop) (c : byte) (s : bytes) :
  Forall P s -> Forall P (Trim1 s c).
Proof.
  intros H. unfold Trim1, trimRightByte.
  apply trimLeftByte_Forall, Forall_rev, trimLeftByte_Forall, Forall_rev.
  exact H.
Qed.

Section OwnKeyword.
Context {U : Unicode}.

Lemma trimSpaceStop_Forall (P : byte -> Prop) (r : bytes) :
  isASCII r = true -> Forall P r -> Forall P (trimSpaceStop r).
Proof.
  induction r as [| c r IH]; intros Ha Hr; [constructor |].
  unfold isASCII in Ha. cbn [forallb] in Ha. apply andb_prop in Ha.
  destruct Ha as [Hc Ha]. apply negb_true_iff in Hc.
  cbn [trimSpaceStop]. rewrite Hc.
  destruct (asciiSpace c).
  - apply IH; [exact Ha | exact (Forall_inv_tail Hr)].
  - apply Forall_rev. exact Hr.
Qed.

Lemma TrimSpace_Forall (P : byte -> Prop) (s : bytes) :
  isASCII s = true -> Forall P s -> Forall P (TrimSpace s).
Proof.
  induction s as [| c s IH]; intros Ha Hs; [constructor |].
  pose proof Ha as Ha'.
  unfold isASCII in Ha. cbn [forallb] in Ha. apply andb_prop in Ha.
  destruct Ha as [Hc Ha]. apply negb_true_iff in Hc.
  cbn [TrimSpace]. rewrite Hc.
  destruct (asciiSpace c).
  - apply IH; [exact Ha | exact (Forall_inv_tail Hs)].
  - apply trimSpaceStop_Forall; [apply isASCII_rev; exact Ha' |].
    apply Forall_rev. exact Hs.
Qed.

Lemma identSpec_ascii (head : bytes) :
  isASCII head = true -> isASCII (identSpec head) = true.
Proof.
  intros Ha. unfold identSpec.
  assert (Ht : isASCII (takeToken (skipTrivia Lead head)) = true).
  { apply isASCII_Forall. apply takeToken_Forall.
    apply (skipTrivia_Forall _ (List.length head)); [lia |].
    apply isASCII_Forall. exact Ha. }
  apply isASCII_Forall. apply Trim1_Forall.
  apply TrimSpace_Forall; [exact Ht |]. apply isASCII_Forall. exact Ht.
Qed.

(** X23.  In the file parsed from an ASCII source, every top-level
    statement is among the statements that a query for its own keyword
    returns. *)
Theorem TopLevel_finds_own (src : bytes) :
  isASCII src = true ->
  exists f,
    Parse src = Ok f /\
    forall s, In (StmtNode s) (Nodes f) -> In s (TopLevel f (Keyword s)).
Proof.
  intros Ha.
  destruct (Parse_good src) as (nodes & Hp & _ & Hgood & _).
  destruct (Parse_ok src) as (nodes' & Hp' & _ & Hparsed).
  assert (nodes' = nodes) by congruence. subst nodes'.
  exists (mkFile nodes src). split; [exact Hp |]. cbn [Nodes]. intros s Hin.
  rewrite TopLevel_filter, filter_In, In_stmtsOf, eqBytes_eq. cbn [Nodes].
  split; [exact Hin |].
  rewrite Forall_forall in Hgood, Hparsed.
  pose proof (everyNode_top _ _ (Hgood _ Hin)) as [(S1 & S2 & S3 & S4) (_ & [Hd _] & _)].
  pose proof (proj1 (everyStmt_stmt _ _) (Hparsed _ Hin)) as [(_ & _ & _ & Hk) _].
  cbn [Start End_ nodeText] in S1, S2, S3, S4.
  assert (Hhead : isASCII (HeadRaw s) = true).
  { apply isASCII_Forall.
    assert (Hraw : Forall (fun c => nonASCII c = false) (RawText s)).
    { rewrite S4.
      apply (Forall_slice _ src (Z.to_nat (s_end s - s_start s))); try lia.
      intros x X1 X2. apply isASCII_Forall in Ha.
      rewrite Forall_forall in Ha. apply Ha. apply at_In; lia. }
    rewrite Hd in Hraw. apply Forall_app in Hraw. exact (proj1 Hraw). }
  rewrite Hk. unfold keywordSpec, ToLower.
  pose proof (identSpec_ascii _ Hhead) as Hi. unfold isASCII in Hi.
  rewrite Hi. symmetry. apply normalize_lowered.
Qed.

End OwnKeyword.

(** ** The parse of a statement of plain bytes *)

Lemma plainByte_neq (c : byte) :
  plainByte c = true ->
  (c == ";"%byte) = false /\ (c == "{"%byte) = false /\
  (c == "}"%byte) = false /\ (c == dq) = false /\
  (c == "#"%byte) = false /\ (c == "/"%byte) = false.
Proof.
  unfold plainByte. intros H. apply negb_true_iff in H.
  repeat (apply orb_false_iff in H; destruct H as [H ?]).
  repeat split; assumption.
Qed.

Lemma isSpace_plainByte (c : byte) : isSpace c = true -> plainByte c = true.
Proof.
  unfold isSpace. intros H.
  repeat (apply orb_prop in H; destruct H as [H | H]);
    apply beq_eq in H; subst c; reflexivity.
Qed.

Lemma parseStep_plainByte (build : bytes -> Z -> outcome Stmt)
    (src : bytes) (end_ : Z) (st : pstate) :
  0 <= p_i st -> p_i st < len src ->
  lexP st = Normal (p_i st) -> plainByte (at_ src (p_i st)) = true ->
  parseStep build src end_ st =
  Ok (mkP (p_nodes st) (p_i st + 1) (p_last st) (p_depth st)
        false false false).
Proof.
  destruct st as [nodes i last depth ss ln str]; unfold lexP, Normal;
    cbn [p_i p_nodes p_last p_depth p_inSlashStar p_inLine p_inString].
  intros H0 Hi Hlex Hc. injection Hlex as -> -> ->.
  destruct (plainByte_neq _ Hc) as (P1 & P2 & P3 & P4 & P5 & P6).
  unfold parseStep. rewrite rd_in by lia; cbn [bind].
  rewrite P6. cbn [andb bind]. rewrite P5, P4, P2, P3, P1. reflexivity.
Qed.

Lemma at_app_l (a b : bytes) (i : Z) :
  0 <= i -> i < len a -> at_ (a ++ b) i = at_ a i.
Proof.
  intros H0 Hi. unfold at_. apply app_nth1. unfold len in Hi. lia.
Qed.

Lemma at_app_r (a b : bytes) (i : Z) :
  len a <= i -> at_ (a ++ b) i = at_ b (i - len a).
Proof.
  intros Hi. unfold at_, len in *. rewrite app_nth2 by lia.
  f_equal. lia.
Qed.

Lemma slice_app_r (a b : bytes) (m : Z) :
  0 <= m -> slice (a ++ b) (len a) (len a + m) = slice b 0 m.
Proof.
  intros Hm. unfold slice, len. rewrite Nat2Z.id.
  rewrite skipn_app, skipn_all, Nat.sub_diag. cbn [app skipn].
  f_equal. lia.
Qed.

Lemma at_hd (h : bytes) (d : byte) : h <> [] -> at_ h 0 = hd d h.
Proof. destruct h; [congruence | reflexivity]. Qed.

(** The loop of [parseRange] over spaces and plain bytes up to a
    semicolon at [n]; [k] is the index of the first byte that is not a
    space. *)
Lemma plain_loop (build : bytes -> Z -> outcome Stmt) (src : bytes)
    (n k : Z) :
  0 <= k -> k <= n -> n < len src ->
  (forall j, 0 <= j -> j < n -> plainByte (at_ src j) = true) ->
  at_ src n = ";"%byte ->
  (forall j, 0 <= j -> j < k -> isSpace (at_ src j) = true) ->
  (k < n -> isSpace (at_ src k) = false) ->
  (forall e, build (slice src k (n + 1)) k <> Err e) ->
  forall st,
    PReach build src 0 (n + 1) st ->
    (0 <= p_i st /\ p_i st <= n /\ lexP st = Normal (p_i st) /\
     p_depth st = 0 /\ p_nodes st = [] /\ p_last st = 0) \/
    (p_i st = n + 1 /\ p_last st = n + 1 /\
     exists s,
       build (slice src k (n + 1)) k = Ok s /\
       p_nodes st =
         (if k >? 0 then [RawNode (mkRaw (slice src 0 k) 0 k)] else []) ++
         [StmtNode s]).
Proof.
  intros Hk0 Hkn Hn Hplain Hsemi Hsp Hfirst Hnoerr st HR.
  induction HR as [| st st' HR IH Hlt Hstep].
  - left. cbn. repeat split; try lia.
  - destruct IH as [(I1 & I2 & I3 & I4 & I5 & I6) | (I1 & _)]; [| lia].
    destruct (Z.eq_dec (p_i st) n) as [Hin | Hin].
    + (* the semicolon *)
      right.
      destruct (parseStep_boundary build src (n + 1) st)
        as (k' & K1 & K2 & K3 & K4 & K5 & K6); try lia; try assumption.
      { rewrite Hin. exact Hsemi. }
      assert (k' = k).
      { destruct (Z.lt_trichotomy k' k) as [Hl | [He | Hg]]; [| exact He |].
        - specialize (K5 ltac:(lia)). rewrite Hsp in K5 by lia. discriminate.
        - specialize (K4 k ltac:(lia) Hg).
          rewrite Hfirst in K4 by lia. discriminate. }
      subst k'. rewrite K6 in Hstep. cbv zeta in Hstep.
      rewrite Hin, I5, I6 in Hstep. cbn [app] in Hstep.
      destruct (build (slice src k (n + 1)) k) as [s | e | |] eqn:Eb;
        try discriminate Hstep.
      * injection Hstep as <-. cbn [p_i p_last p_nodes].
        split; [reflexivity | split; [reflexivity |]].
        exists s. split; reflexivity.
      * exfalso. exact (Hnoerr e eq_refl).
    + (* a plain byte *)
      left.
      rewrite (parseStep_plainByte build src (n + 1) st) in Hstep;
        try lia; try assumption.
      2: { apply Hplain; lia. }
      injection Hstep as <-. cbn [p_i p_last p_nodes p_depth lexP].
      repeat split; try lia; assumption.
Qed.

Section PlainStatement.
Context {U : Unicode}.

Lemma Parse_plain (ws h : bytes) :
  Forall (fun c => isSpace c = true) ws ->
  forallb plainByte h = true ->
  isSpace (firstByte h) = false ->
  Parse (ws ++ h ++ B ";") =
  Ok (mkFile
        ((match ws with
          | [] => []
          | _ :: _ => [RawNode (mkRaw ws 0 (len ws))]
          end) ++
         [StmtNode (mkStmt (h ++ B ";") (len ws) (len ws + len h + 1)
                      (keywordSpec h) h false [] [] [] [] false)])
        (ws ++ h ++ B ";")).
Proof.
  intros Hws Hh Hfirst.
  set (src := ws ++ h ++ B ";").
  set (k := len ws). set (n := len ws + len h).
  pose proof (len_nonneg ws) as Lw. pose proof (len_nonneg h) as Lh.
  assert (Hlen : len src = n + 1).
  { unfold src, n. rewrite !len_app. change (len (B ";")) with 1. lia. }
  assert (Hat_ws : forall j, 0 <= j -> j < k -> at_ src j = at_ ws j).
  { intros j J1 J2. unfold src. apply at_app_l; assumption. }
  assert (Hat_h : forall j, k <= j -> j < n -> at_ src j = at_ h (j - k)).
  { intros j J1 J2. unfold src. rewrite at_app_r by (fold k; lia).
    fold k. apply at_app_l; lia. }
  assert (Hsemi : at_ src n = ";"%byte).
  { unfold src. rewrite at_app_r by (fold k; lia). fold k.
    rewrite at_app_r by lia. replace (n - k - len h) with 0 by lia.
    reflexivity. }
  assert (Hsp : forall j, 0 <= j -> j < k -> isSpace (at_ src j) = true).
  { intros j J1 J2. rewrite Hat_ws by assumption.
    rewrite Forall_forall in Hws. apply Hws. apply at_In; assumption. }
  assert (Hplain : forall j, 0 <= j -> j < n -> plainByte (at_ src j) = true).
  { intros j J1 J2. destruct (Z_lt_le_dec j k) as [Hl | Hg].
    - apply isSpace_plainByte. apply Hsp; assumption.
    - rewrite Hat_h by lia. rewrite forallb_forall in Hh. apply Hh.
      apply at_In; lia. }
  assert (Hns : k < n -> isSpace (at_ src k) = false).
  { intros Hkn. rewrite Hat_h by lia. replace (k - k) with 0 by lia.
    rewrite (at_hd h ";"%byte); [exact Hfirst |].
    intros Hnil. unfold n, k in Hkn. rewrite Hnil in Hkn.
    change (len (@nil byte)) with 0 in Hkn. lia. }
  assert (Hseg : slice src k (n + 1) = h ++ B ";").
  { unfold src, k. replace (n + 1) with (len ws + (len h + 1)) by (unfold n; lia).
    rewrite slice_app_r by lia.
    replace (len h + 1) with (len (h ++ B ";")) by (rewrite len_app; reflexivity).
    apply slice_full. }
  destruct (Parse_ok src) as (nodes & Hp & _ & Hparsed).
  rewrite Hp. f_equal. f_equal.
  unfold Parse in Hp.
  destruct (parseRange (S (List.length src)) src 0 (len src)) as [nodes' | | |]
    eqn:E; cbn [bind] in Hp; try discriminate Hp.
  injection Hp as ->. cbn [parseRange] in E. rewrite Hlen in E.
  match type of E with
  | bind ?m _ = _ => destruct m as [st | | |] eqn:Eloop
  end; cbn [bind] in E; try discriminate E.
  pose proof (parseLoop_exit _ _ _ _ _ _ Eloop) as Hexit.
  assert (HR : PReach (buildStmt (parseRange (List.length src) src)) src 0
                 (n + 1) st).
  { apply (parseLoop_reach _ _ _ _ _ _ _ (PReach_init _ _ _ _) Eloop). }
  assert (Hnoerr : forall e,
            buildStmt (parseRange (List.length src) src)
              (slice src k (n + 1)) k <> Err e).
  { intros e He.
    assert (Herr : exists e,
              buildStmt (parseRange (List.length src) src)
                (slice src k (n + 1)) k = Err e) by (exists e; exact He).
    pose proof (proj1 (buildStmt_err_iff _ _ _) Herr) as Hno.
    apply (Hno (n - k)); try (unfold n, k; lia).
    - rewrite len_slice by (unfold n, k; lia). unfold n, k. lia.
    - rewrite at_slice by (unfold n, k; lia).
      replace (k + (n - k)) with n by lia. exact Hsemi. }
  assert (H0k : 0 <= k) by (unfold k; lia).
  assert (Hkn : k <= n) by (unfold n, k; lia).
  assert (Hnl : n < len src) by lia.
  destruct (plain_loop _ src n k H0k Hkn Hnl Hplain Hsemi Hsp Hns Hnoerr st HR)
    as [(I1 & I2 & _) | (I1 & I2 & s & Hb & Hnodes)]; [lia |].
  rewrite I2 in E. rewrite Z.ltb_irrefl in E. injection E as <-.
  rewrite Hnodes in *.
  (* the statement *)
  assert (Hkw : Keyword s = keywordSpec (HeadRaw s)).
  { apply Forall_app in Hparsed. destruct Hparsed as [_ Hps].
    apply Forall_inv in Hps. apply everyStmt_stmt in Hps.
    destruct Hps as [(_ & _ & _ & Hkw) _]. exact Hkw. }
  destruct (buildStmt_raw _ _ _ _ Hb) as (Hraw & Hstart & Hend & Hmod).
  assert (Hl1 : 1 <= len (slice src k (n + 1))).
  { rewrite len_slice by (unfold n, k; lia). unfold n, k. lia. }
  assert (Hlast : at_ (slice src k (n + 1))
                    (len (slice src k (n + 1)) - 1) = ";"%byte).
  { rewrite len_slice by (unfold n, k; lia).
    rewrite at_slice by (unfold n, k; lia).
    replace (k + (n + 1 - k - 1)) with n by lia. exact Hsemi. }
  destruct (buildStmt_shape _ _ _ _ Hl1 Hlast Hb)
    as [(Hhb & Hhead & Hlb & Hbody & Hrb & Htr) |
        (_ & bo & lb & bc & rb & B1 & B2 & B3 & B4 & B5 & _ & _ & _ & _ &
         Hopen & _)].
  2: { exfalso. rewrite len_slice in B5 by (unfold n, k; lia).
       rewrite at_slice in Hopen by (unfold n, k; lia).
       assert (Hpb : plainByte (at_ src (k + bo)) = true)
         by (apply Hplain; unfold n, k in *; lia).
       rewrite Hopen in Hpb. discriminate Hpb. }
  assert (Hhead' : HeadRaw s = h).
  { rewrite Hhead, Hseg. rewrite len_app.
    change (len (B ";")) with 1.
    replace (len h + 1 - 1) with (len h) by lia.
    rewrite slice_prefix_app by lia. apply slice_full. }
  assert (Hs : s = mkStmt (h ++ B ";") (len ws) (len ws + len h + 1)
                     (keywordSpec h) h false [] [] [] [] false).
  { destruct s as [rt ss se kw hr hb lbr bd rbr tr md].
    cbn [RawText s_start s_end Keyword HeadRaw HasBlock LBraceRaw Body
         RBraceRaw TrailingAfterR Modified] in *.
    rewrite Hkw, Hhead', Hraw, Hstart, Hend, Hhb, Hlb, Hbody, Hrb, Htr, Hmod.
    rewrite Hseg, len_app. change (len (B ";")) with 1.
    fold k. rewrite Z.add_assoc. reflexivity. }
  rewrite Hs. f_equal.
  destruct ws as [| c ws'].
  - reflexivity.
  - assert (Hpos : (k >? 0) = true).
    { apply Z.gtb_lt. unfold k. rewrite len_cons.
      pose proof (len_nonneg ws'). lia. }
    rewrite Hpos. unfold k, src.
    rewrite slice_prefix_app by lia.
    rewrite slice_full. reflexivity.
Qed.

Lemma triviaEnd_plain (h : bytes) :
  forallb plainByte h = true -> triviaEnd Lead h = Closed.
Proof.
  induction h as [| c h IH]; intros Hh; [reflexivity |].
  cbn [forallb] in Hh. apply andb_prop in Hh. destruct Hh as [Hc Hh].
  destruct (plainByte_neq _ Hc) as (_ & _ & _ & _ & P5 & P6).
  rewrite triviaEnd_lead, P5, P6.
  destruct (unicode_IsSpace c); [apply IH; exact Hh | reflexivity].
Qed.

Lemma TrimRight_keeps (h : bytes) :
  h <> [] -> plainByte (lastByte h) = true -> isSpace (lastByte h) = false ->
  TrimRight h simpleCutset = h.
Proof.
  intros Hne Hp Hs. unfold TrimRight.
  destruct (rev h) as [| c r] eqn:Hr.
  - apply (f_equal (@rev byte)) in Hr. rewrite rev_involutive in Hr.
    cbn in Hr. congruence.
  - apply (f_equal (@rev byte)) in Hr. rewrite rev_involutive in Hr.
    cbn [rev] in Hr. subst h. unfold lastByte in Hp, Hs.
    rewrite last_last in Hp, Hs.
    destruct (plainByte_neq _ Hp) as (P1 & _).
    unfold isSpace in Hs.
    repeat (apply orb_false_iff in Hs; destruct Hs as [Hs ?]).
    assert (Hcut : existsb (beq c) simpleCutset = false).
    { cbn [simpleCutset B list_byte_of_string app existsb].
      cbn. repeat (apply orb_false_iff; split); assumption || reflexivity. }
    cbn [trimLeftSet]. rewrite Hcut. reflexivity.
Qed.

(** X24.  The parse of one statement of plain bytes: a source made of
    spaces, a head that holds no semicolon, brace, double quote, hash or
    slash and does not begin with a space, and a semicolon, parses to
    the [Raw] node of the spaces, if there are any, and one statement
    without block whose text is the head and the semicolon, whose head
    is the head and whose keyword is the first token of the head in
    lower case. *)
Theorem Parse_plain_statement (ws h : bytes) :
  Forall (fun c => isSpace c = true) ws ->
  forallb plainByte h = true ->
  isSpace (firstByte h) = false ->
  Parse (ws ++ h ++ B ";") =
  Ok (mkFile
        ((match ws with
          | [] => []
          | _ :: _ => [RawNode (mkRaw ws 0 (len ws))]
          end) ++
         [StmtNode (mkStmt (h ++ B ";") (len ws) (len ws + len h + 1)
                      (keywordSpec h) h false [] [] [] [] false)])
        (ws ++ h ++ B ";")).
Proof. apply Parse_plain. Qed.

(** X25.  What [NewSimpleStmt] builds from a head of plain bytes without
    space at either end is written as the head and a semicolon, and the
    parse of what is written is one statement without block with the
    same head and the same keyword. *)
Theorem NewSimpleStmt_reparsed (h : bytes) :
  h <> [] ->
  forallb plainByte h = true ->
  isSpace (firstByte h) = false ->
  isSpace (lastByte h) = false ->
  exists s,
    NewSimpleStmt h = Ok s /\
    writeTo (StmtNode s) [] = h ++ B ";" /\
    Parse (writeTo (StmtNode s) []) =
    Ok (mkFile
          [StmtNode (mkStmt (h ++ B ";") 0 (len h + 1) (Keyword s) (HeadRaw s)
                       false [] [] [] [] false)]
          (h ++ B ";")).
Proof.
  intros Hne Hh Hfirst Hlast.
  assert (Hpl : plainByte (lastByte h) = true).
  { rewrite forallb_forall in Hh. apply Hh.
    destruct (exists_last Hne) as (r & c & ->).
    unfold lastByte. rewrite last_last. apply in_or_app. right. left.
    reflexivity. }
  unfold NewSimpleStmt. change (B "; " ++ [tab; cr; nl]) with simpleCutset.
  rewrite (TrimRight_keeps h Hne Hpl Hlast).
  rewrite (firstIdent_on_closed h (triviaEnd_plain h Hh)). cbn [bind].
  eexists. split; [reflexivity |].
  cbn [writeTo Modified RawText HasBlock HeadRaw Keyword negb andb].
  assert (Hlen : (len h =? 0) = false).
  { apply Z.eqb_neq. intros H0. apply len_zero in H0. contradiction. }
  rewrite Hlen. cbn [app].
  rewrite (trimRightSpace_keeps h (or_intror Hlast)).
  split; [reflexivity |].
  pose proof (Parse_plain [] h (Forall_nil _) Hh Hfirst) as Hp.
  cbn [app] in Hp. change (len (@nil byte)) with 0 in Hp.
  rewrite Z.add_0_l in Hp. exact Hp.
Qed.

End PlainStatement.

(** ** The properties above on concrete inputs *)

(** X5 on [Zone]. *)
Lemma normalize_lower_witness :
  isASCII (B "Zone") = true /\
  normalize (B "Zone") = @ToLower asciiOnly (B "Zone").
Proof.
  split; [reflexivity |].
  apply (proj2 (proj2 (@normalize_lower asciiOnly (B "Zone")))). reflexivity.
Defined.

(** X7 on [twoZonesSrc] and the query [ZONE]. *)
Lemma TopLevel_parsed_witness :
  exists f,
    @Parse asciiOnly twoZonesSrc = Ok f /\
    forall s, In s (TopLevel f (B "ZONE")) <->
              In (StmtNode s) (Nodes f) /\
              @keywordSpec asciiOnly (HeadRaw s) = @ToLower asciiOnly (B "ZONE").
Proof.
  apply (@TopLevel_parsed asciiOnly twoZonesSrc (B "ZONE")). reflexivity.
Defined.

(** X8 on a head that begins with a closed comment. *)
Lemma firstIdent_closed_witness :
  triviaEnd Lead (B "/* c */ Zone x") = Closed /\
  @firstIdent asciiOnly (B "/* c */ Zone x") =
    Ok (@identSpec asciiOnly (B "/* c */ Zone x")).
Proof.
  split; [reflexivity |]. apply (@firstIdent_closed asciiOnly). reflexivity.
Defined.

(** X9 on a head that is a comment without newline. *)
Lemma firstIdent_open_line_witness :
  triviaEnd Lead (B "# note") = OpenLine /\
  @firstIdent asciiOnly (B "# note") = Panic.
Proof.
  split; [reflexivity |]. apply (@firstIdent_open_line asciiOnly). reflexivity.
Defined.

(** X10 on the opening of a comment alone and on an open comment that
    ends with a hash. *)
Lemma firstIdent_open_block_witness :
  @firstIdent asciiOnly (B "/*") = Ok [] /\
  @firstIdent asciiOnly (B "/* #") = @firstIdent asciiOnly (B "#").
Proof.
  split.
  - apply (proj1 (@firstIdent_open_block asciiOnly (B "/*"))). reflexivity.
  - apply (proj2 (@firstIdent_open_block asciiOnly (B "/* #"))). reflexivity.
Defined.

(** X11 on a head with a space, a semicolon and a newline at its end. *)
Lemma NewSimpleStmt_written_witness :
  exists s,
    @NewSimpleStmt asciiOnly (B "recursion no ;" ++ [nl]) = Ok s /\
    HeadRaw s = TrimRight (B "recursion no ;" ++ [nl]) simpleCutset /\
    Keyword s = @keywordSpec asciiOnly (HeadRaw s) /\
    HasBlock s = false /\ Modified s = true /\
    forall buf,
      writeTo (StmtNode s) buf =
      buf ++ (if len (HeadRaw s) =? 0 then []
              else trimRightSpace (HeadRaw s) ++ B ";").
Proof.
  apply (@NewSimpleStmt_written asciiOnly (B "recursion no ;" ++ [nl])).
  reflexivity.
Defined.

(** X12 on a head between spaces and a body of one comment line. *)
Lemma NewBlockStmt_written_witness :
  exists s,
    @NewBlockStmt asciiOnly (B " options ") [noteLine] = Ok s /\
    HeadRaw s = @TrimSpace asciiOnly (B " options ") /\
    Keyword s = @keywordSpec asciiOnly (HeadRaw s) /\
    Body s = [noteLine] /\
    forall buf,
      writeTo (StmtNode s) buf =
      buf ++ @TrimSpace asciiOnly (B " options ") ++ B " {" ++
      closeLine ([nl] ++ bodyText [noteLine]) ++ B "};".
Proof.
  apply (@NewBlockStmt_written asciiOnly (B " options ") [noteLine]);
    reflexivity.
Defined.

(** X13 on a comment line with its newline and on two slashes. *)
Lemma constructors_panic_witness :
  @NewSimpleStmt asciiOnly (B "# note" ++ [nl]) = Panic /\
  @NewBlockStmt asciiOnly (B "// x") [] = Panic.
Proof.
  split.
  - apply (proj1 (@constructors_panic asciiOnly (B "# note" ++ [nl]) [])).
    reflexivity.
  - apply (proj2 (@constructors_panic asciiOnly (B "// x") [])).
    reflexivity.
Defined.

(** X14 on [optionsStmt] and a comment line. *)
Lemma NewBlockStmt_append_witness :
  @NewBlockStmt asciiOnly (B "options") [] = Ok optionsStmt /\
  @NewBlockStmt asciiOnly (B "options") ([] ++ [noteLine]) =
    Ok (fold_left AppendToBody [noteLine] optionsStmt).
Proof.
  split; [reflexivity |].
  apply (@NewBlockStmt_append asciiOnly (B "options") [] [noteLine] optionsStmt).
  reflexivity.
Defined.

(** X19 on the statement [a ;]: marked modified, it is written as [a;]. *)
Lemma parsed_simple_rewritten_witness :
  @Parse asciiOnly (B "a ;") = Ok (mkFile [StmtNode spacedStmt] (B "a ;")) /\
  HasBlock spacedStmt = false /\
  writeTo (StmtNode (MarkModified spacedStmt)) [] =
    [] ++ trimRightSpace (HeadRaw spacedStmt) ++ B ";".
Proof.
  split; [reflexivity | split; [reflexivity |]].
  destruct (@parsed_simple_rewritten asciiOnly (B "a ;")) as (f & Hp & Hall).
  vm_compute in Hp. injection Hp as <-. cbn [Nodes] in Hall.
  apply Forall_inv in Hall. destruct Hall as [H _].
  destruct (H eq_refl) as [_ Hw]. apply (proj1 (Hw [])).
Defined.

(** X20 on a source that is one comment. *)
Lemma Parse_no_semicolon_witness :
  Forall (fun c => c <> ";"%byte) (B "# note") /\
  @Parse asciiOnly (B "# note") =
    Ok (mkFile (if 0 <? len (B "# note")
                then [RawNode (mkRaw (B "# note") 0 (len (B "# note")))]
                else []) (B "# note")).
Proof.
  assert (H : Forall (fun c => c <> ";"%byte) (B "# note"))
    by (repeat constructor; discriminate).
  split; [exact H |].
  apply (@Parse_no_semicolon asciiOnly (B "# note") H).
Defined.

(** X21 on [a;b;] with its first statement replaced by [foo bar]. *)
Lemma edit_is_local_witness :
  @Parse asciiOnly abSrc = Ok (mkFile ([] ++ StmtNode aStmt :: [StmtNode bStmt]) abSrc) /\
  Bytes (mkFile ([] ++ StmtNode fooBar :: [StmtNode bStmt]) abSrc) =
    slice abSrc 0 (s_start aStmt) ++ writeTo (StmtNode fooBar) [] ++
    slice abSrc (s_end aStmt) (len abSrc).
Proof.
  split; [reflexivity |].
  destruct (@edit_is_local asciiOnly abSrc) as (f & Hp & H).
  vm_compute in Hp. injection Hp as <-.
  apply (proj1 (H [] aStmt [StmtNode bStmt] eq_refl)).
Defined.

(** X23 on [twoZonesSrc]. *)
Lemma TopLevel_finds_own_witness :
  exists f,
    @Parse asciiOnly twoZonesSrc = Ok f /\
    forall s, In (StmtNode s) (Nodes f) -> In s (TopLevel f (Keyword s)).
Proof.
  apply (@TopLevel_finds_own asciiOnly twoZonesSrc). reflexivity.
Defined.

(** X24 on [recursion no;] after a newline and two spaces. *)
Lemma Parse_plain_statement_witness :
  @Parse asciiOnly ([nl; sp; sp] ++ B "recursion no" ++ B ";") =
  Ok (mkFile
        ([RawNode (mkRaw [nl; sp; sp] 0 (len [nl; sp; sp]))] ++
         [StmtNode (mkStmt (B "recursion no" ++ B ";") (len [nl; sp; sp])
                      (len [nl; sp; sp] + len (B "recursion no") + 1)
                      (@keywordSpec asciiOnly (B "recursion no"))
                      (B "recursion no") false [] [] [] [] false)])
        ([nl; sp; sp] ++ B "recursion no" ++ B ";")).
Proof.
  apply (@Parse_plain_statement asciiOnly [nl; sp; sp] (B "recursion no")).
  - repeat constructor.
  - reflexivity.
  - reflexivity.
Defined.

(** X25 on the head [foo bar]. *)
Lemma NewSimpleStmt_reparsed_witness :
  exists s,
    @NewSimpleStmt asciiOnly (B "foo bar") = Ok s /\
    writeTo (StmtNode s) [] = B "foo bar" ++ B ";" /\
    @Parse asciiOnly (writeTo (StmtNode s) []) =
    Ok (mkFile
          [StmtNode (mkStmt (B "foo bar" ++ B ";") 0 (len (B "foo bar") + 1)
                       (Keyword s) (HeadRaw s) false [] [] [] [] false)]
          (B "foo bar" ++ B ";")).
Proof.
  apply (@NewSimpleStmt_reparsed asciiOnly (B "foo bar")).
  - discriminate.
  - reflexivity.
  - reflexivity.
  - reflexivity.
Defined.
